(** * nuXgal: synthetic events, effective-area lookup and likelihood fit

    A shallow embedding of
    - [KIPAC/nuXgal/EventGenerator.py] (power-law energies, atmospheric and
      astrophysical event maps, synthetic data),
    - [scripts/IC3yrIntensityMap.py] and [scripts/analyzeICdata.py]
      (effective-area table lookup, counts and flux maps),
    - the fit driven by [tests/test_likelihood.py].

    Conventions.  A float64 is read as a real number of [R]: rounding,
    overflow and NaN are outside the model, with two exceptions: the result
    of [1. / 0.] in the scripts is kept as [Infinite], and the energies of
    [randPowerLaw] are also computed within the range of float64
    ([randPowerLaw_f64] over [f64]), where powers overflow and underflow.
    numpy's global random state is threaded explicitly.  A Python exception
    is a [Raise] result. *)

From Stdlib Require Import Reals Lra Lia ZArith List Bool Arith Sorted.
Import ListNotations.
Local Open Scope R_scope.

(** ** Python results *)

Inductive exn : Type :=
| ValueError | IndexError | TypeError | NameError | DomainError.

Inductive result (A : Type) : Type :=
| Ok (a : A)
| Raise (e : exn).
Arguments Ok {A} a.
Arguments Raise {A} e.

Definition bind {A B : Type} (r : result A) (k : A -> result B) : result B :=
  match r with
  | Ok a => k a
  | Raise e => Raise e
  end.

Notation "x <- c ;; k" := (bind c (fun x => k))
  (at level 61, c at next level, right associativity).
Notation "' pat <- c ;; k" := (bind c (fun x => match x with pat => k end))
  (at level 61, pat pattern, c at next level, right associativity).

Fixpoint mapM {A B : Type} (f : A -> result B) (l : list A) : result (list B) :=
  match l with
  | [] => Ok []
  | x :: l' => y <- f x ;; ys <- mapM f l' ;; Ok (y :: ys)
  end.

(** [x[0]] *)
Definition first_item {A : Type} (l : list A) : result A :=
  match l with
  | x :: _ => Ok x
  | [] => Raise IndexError
  end.

Ltac inv_bind H :=
  match type of H with
  | bind ?c _ = Ok _ =>
      let E := fresh "E" in
      destruct c eqn:E; cbn [bind] in H; [| discriminate H]
  end.

(** Values that travel through the generators' [nevents_expected] cells:
    a float array, an integer array, or a 2-tuple. *)
Inductive pyval : Type :=
| PyFloatArr (a : list R)
| PyIntArr (a : list Z)
| PyPair (first second : pyval).

(** ** The numpy operations the sources use *)

Module np.

Definition Rltb (x y : R) : bool := if Rlt_dec x y then true else false.
Definition Rleb (x y : R) : bool := if Rle_dec x y then true else false.
Definition Reqb (x y : R) : bool := if Req_dec_T x y then true else false.

(** [a[k]] index normalisation: a negative index counts from the end. *)
Definition norm_index (n : nat) (k : Z) : result nat :=
  if ((0 <=? k) && (k <? Z.of_nat n))%Z then Ok (Z.to_nat k)
  else if ((- Z.of_nat n <=? k) && (k <? 0))%Z then Ok (Z.to_nat (Z.of_nat n + k))
  else Raise IndexError.

Definition getitem {A : Type} (a : list A) (k : Z) : result A :=
  i <- norm_index (length a) k ;;
  match nth_error a i with
  | Some x => Ok x
  | None => Raise IndexError
  end.

(** [np.searchsorted(a, v)] (side left) on a sorted array: the number of
    entries strictly below [v]. *)
Definition searchsorted (a : list R) (v : R) : nat :=
  length (filter (fun x => Rltb x v) a).

Fixpoint zipWith {A B C : Type} (f : A -> B -> C) (a : list A) (b : list B) : list C :=
  match a, b with
  | x :: a', y :: b' => f x y :: zipWith f a' b'
  | _, _ => []
  end.

(** [a * b] on one-dimensional arrays, with numpy's broadcasting rule: equal
    lengths, or one of the two of length one. *)
Definition multiply (a b : list R) : result (list R) :=
  if (length a =? length b)%nat then Ok (zipWith Rmult a b)
  else match a, b with
       | [x], _ => Ok (map (fun y => x * y) b)
       | _, [y] => Ok (map (fun x => x * y) a)
       | _, _ => Raise ValueError
       end.

Definition sum (a : list Z) : Z := fold_right Z.add 0%Z a.
Definition sumR (a : list R) : R := fold_right Rplus 0 a.

(** [np.histogram(x, edges)]: half-open bins, the last one closed; the
    result is the pair (counts, edges). *)
Definition in_bin (lo hi : R) (last : bool) (x : R) : bool :=
  Rleb lo x && (Rltb x hi || (last && Rleb x hi)).

Fixpoint hist_counts (edges : list R) (x : list R) : list Z :=
  match edges with
  | lo :: ((hi :: rest) as tl) =>
      Z.of_nat (length (filter (in_bin lo hi (match rest with [] => true | _ => false end)) x))
      :: hist_counts tl x
  | _ => []
  end.

Fixpoint increasing (edges : list R) : bool :=
  match edges with
  | lo :: ((hi :: _) as tl) => Rleb lo hi && increasing tl
  | _ => true
  end.

Definition histogram (x : list R) (edges : list R) : result pyval :=
  if increasing edges
  then Ok (PyPair (PyIntArr (hist_counts edges x)) (PyFloatArr edges))
  else Raise ValueError.

Definition log10 (x : R) : R := ln x / ln 10.

(** In-place update of one entry, [a[i] = f(a[i])], for [0 <= i]. *)
Fixpoint updateM {A : Type} (f : A -> result A) (a : list A) (i : nat) : result (list A) :=
  match a, i with
  | [], _ => Raise IndexError
  | x :: a', O => y <- f x ;; Ok (y :: a')
  | x :: a', S i' => r <- updateM f a' i' ;; Ok (x :: r)
  end.

Definition update {A : Type} (f : A -> A) (a : list A) (i : nat) : result (list A) :=
  updateM (fun x => Ok (f x)) a i.

(** [m[b][p] = f(m[b][p])] on a two-dimensional array. *)
Definition update2 {A : Type} (f : A -> A) (m : list (list A)) (b p : nat) : result (list (list A)) :=
  updateM (fun row => update f row p) m b.

(** Elementwise sum of two integer arrays of the same shape. *)
Fixpoint add1 (a b : list Z) : result (list Z) :=
  match a, b with
  | [], [] => Ok []
  | x :: a', y :: b' => r <- add1 a' b' ;; Ok ((x + y)%Z :: r)
  | _, _ => Raise ValueError
  end.

Fixpoint add2 (a b : list (list Z)) : result (list (list Z)) :=
  match a, b with
  | [], [] => Ok []
  | x :: a', y :: b' => r0 <- add1 x y ;; r <- add2 a' b' ;; Ok (r0 :: r)
  | _, _ => Raise ValueError
  end.

(** [np.random.poisson] refuses a mean above this constant of numpy
    ("lam value too large"). *)
Definition POISSON_LAM_MAX : R := 9.223372006484771e18.

(** [np.histogram(x, edges)[0]] *)
Definition histogram_counts (x : list R) (edges : list R) : result (list Z) :=
  if increasing edges then Ok (hist_counts edges x) else Raise ValueError.

(** [np.linspace(lo, hi, n)] *)
Definition linspace (lo hi : R) (n : nat) : list R :=
  map (fun k => lo + INR k * ((hi - lo) / INR (n - 1))) (seq 0 n).

(** [a.sum()] of a two-dimensional float array. *)
Definition sum2R (m : list (list R)) : R := sumR (map sumR m).

(** [a.max()] of a one-dimensional float array: [ValueError] on an empty
    one. *)
Definition max (a : list R) : result R :=
  match a with
  | [] => Raise ValueError
  | x :: a' => Ok (fold_left Rmax a' x)
  end.

End np.

(** ** float64 by its range

    A float64 value by magnitude: a real number, an infinity or NaN.  An
    operation rounds its exact result into the range, to an infinity from
    [overflow] on and to zero up to [underflow]; the rounding of the
    significand in between and the sign of zero are not modelled. *)

Module f64.

Inductive t : Type := Fin (x : R) | PInf | NInf | NaN.

(** [2^1024 - 2^970], half an ulp above the largest float64, from where on
    rounding to nearest gives an infinity; [2^-1075], half the smallest
    subnormal, up to where it gives zero. *)
Definition overflow : R := IZR (2 ^ 1024 - 2 ^ 970).
Definition underflow : R := / IZR (2 ^ 1075).

Definition round (x : R) : t :=
  if Rle_dec overflow x then PInf
  else if Rle_dec x (- overflow) then NInf
  else if Rle_dec (Rabs x) underflow then Fin 0
  else Fin x.


Definition add (a b : t) : t :=
  match a, b with
  | NaN, _ | _, NaN => NaN
  | Fin x, Fin y => round (x + y)
  | PInf, NInf | NInf, PInf => NaN
  | PInf, _ | _, PInf => PInf
  | NInf, _ | _, NInf => NInf
  end.





Definition exp (a : t) : t :=
  match a with
  | Fin x => round (Rtrigo_def.exp x)
  | PInf => PInf
  | NInf => Fin 0
  | NaN => NaN
  end.





End f64.

(** ** scripts/IC3yrIntensityMap.py and scripts/analyzeICdata.py *)

Module IC3yr.

(** A flux-map entry: a real number, or the value of [1. / 0.]. *)
Inductive flux : Type :=
| Finite (x : R)
| Infinite.

Definition flux_add (a b : flux) : flux :=
  match a, b with
  | Finite x, Finite y => Finite (x + y)
  | _, _ => Infinite
  end.

(** [1. / a] *)
Definition one_over (a : R) : flux :=
  if Req_dec_T a 0 then Infinite else Finite (1 / a).

(** The tabulated effective area: one row per (energy bin, cos-zenith bin),
    200 cos-zenith bins for each of 70 energy bins. *)
Record Aeff_row : Type := mkAeffRow {
  col_Emin : R; col_Emax : R; col_cosZmin : R; col_cosZmax : R; col_Aeff : R
}.

Fixpoint chunks (width n : nat) (a : list R) : list (list R) :=
  match n with
  | O => []
  | S n' => firstn width a :: chunks width n' (skipn width a)
  end.

(** [np.reshape(a, (70, 200))] *)
Definition reshape_70_200 (a : list R) : result (list (list R)) :=
  if (length a =? 70 * 200)%nat then Ok (chunks 200 70 a) else Raise ValueError.

Definition Aeff_table (Aeff_file : list Aeff_row) : list R := map col_Aeff Aeff_file.

Definition logEmin (Aeff_file : list Aeff_row) : result (list R) :=
  rows <- reshape_70_200 (map col_Emin Aeff_file) ;;
  Emin <- mapM first_item rows ;;
  Ok (map np.log10 Emin).

Definition cosZenith_min (Aeff_file : list Aeff_row) : result (list R) :=
  rows <- reshape_70_200 (map col_cosZmin Aeff_file) ;;
  first_item rows.

(** [np.searchsorted(logEmin, logE) - 1], with -1 sent to bin 0 *)
Definition index_E_Aeff_table (logEmin : list R) (logE : R) : Z :=
  let i := (Z.of_nat (np.searchsorted logEmin logE) - 1)%Z in
  if (i =? -1)%Z then 0%Z else i.

(** [np.searchsorted(cosZenith_min, cosz) - 1] *)
Definition index_coszenith_Aeff_table (cosZenith_min : list R) (cosz : R) : Z :=
  (Z.of_nat (np.searchsorted cosZenith_min cosz) - 1)%Z.

(** [Aeff_table[index_E_Aeff_table * 200 + index_coszenith_Aeff_table]] *)
Definition Aeff_event (Aeff_table logEmin cosZenith_min : list R) (logE cosz : R) : result R :=
  np.getitem Aeff_table
    (index_E_Aeff_table logEmin logE * 200
     + index_coszenith_Aeff_table cosZenith_min cosz)%Z.

(** analyzeICdata.py, the exposure map: the same lookup without the
    grouping of index -1. *)
Definition index_E (logEmin : list R) (logE_center : R) : Z :=
  (Z.of_nat (np.searchsorted logEmin logE_center) - 1)%Z.

Definition index_coszenith (cosZenith_min : list R) (costheta : R) : Z :=
  (Z.of_nat (np.searchsorted cosZenith_min costheta) - 1)%Z.

Definition exposuremap_pixel (Aeff_table logEmin cosZenith_min : list R)
  (logE_center costheta : R) : result R :=
  np.getitem Aeff_table
    (index_E logEmin logE_center * 200 + index_coszenith cosZenith_min costheta)%Z.

(** One row of the event file, by column: 1 log-energy, 3 and 4 the
    direction, 6 the zenith angle in degrees. *)
Record event_row : Type := mkRow {
  col1 : R; col3 : R; col4 : R; col6 : R
}.

Definition radians (deg : R) : R := deg * PI / 180.

(** What the loop reads per event: the arrays computed before it. *)
Record event : Type := mkEvent {
  ev_row : event_row;
  ev_index_E : Z;
  ev_index_coszenith : Z;
  ev_Aeff : R;
  ev_index_map_logE : Z;
  ev_index_map_pixel : nat
}.

Definition index_map_logE (map_logE_edge : list R) (logE : R) : Z :=
  let i := (Z.of_nat (np.searchsorted map_logE_edge logE) - 1)%Z in
  if (i =? -1)%Z then 0%Z else i.

Definition event_of (ang2pix : R -> R -> nat) (map_logE_edge Aeff_table logEmin cosZenith_min : list R)
  (r : event_row) : result event :=
  let cosz := cos (radians (col6 r)) in
  a <- Aeff_event Aeff_table logEmin cosZenith_min (col1 r) cosz ;;
  Ok (mkEvent r
        (index_E_Aeff_table logEmin (col1 r))
        (index_coszenith_Aeff_table cosZenith_min cosz)
        a
        (index_map_logE map_logE_edge (col1 r))
        (ang2pix (radians (90 - col4 r)) (radians (360 - col3 r)))).

(** The three diagnostic lines printed for an IC3yr.excluded event. *)
Record diagnostic : Type := mkDiag {
  d_idx : nat;
  d_energy : R; d_index_E : Z; d_logEmin : R; d_logEmin_next : R;
  d_coszenith : R; d_index_coszenith : Z; d_cosZmin : R; d_cosZmin_next : R;
  d_Aeff : R
}.

Definition check_event (logEmin cosZenith_min : list R) (idx : nat) (e : event)
  : result diagnostic :=
  lo <- np.getitem logEmin (ev_index_E e) ;;
  hi <- np.getitem logEmin (ev_index_E e + 1)%Z ;;
  clo <- np.getitem cosZenith_min (ev_index_coszenith e) ;;
  chi <- np.getitem cosZenith_min (ev_index_coszenith e + 1)%Z ;;
  Ok (mkDiag idx (col1 (ev_row e)) (ev_index_E e) lo hi
        (cos (radians (col6 (ev_row e)))) (ev_index_coszenith e) clo chi (ev_Aeff e)).

Record maps : Type := mkMaps {
  fluxmap : list (list flux);
  countsmap : list (list R);
  printed : list diagnostic
}.

(** The body of the loop "put events into healpy maps". *)
Definition put_event (logEmin cosZenith_min : list R) (st : maps) (ie : nat * event)
  : result maps :=
  let (i, e) := ie in
  if np.Reqb (ev_Aeff e) 0 && np.Rltb 90 (col6 (ev_row e)) then
    d <- check_event logEmin cosZenith_min i e ;;
    Ok (mkMaps (fluxmap st) (countsmap st) (printed st ++ [d]))
  else
    b <- np.norm_index (length (fluxmap st)) (ev_index_map_logE e) ;;
    fm <- np.update2 (fun v => flux_add v (one_over (ev_Aeff e))) (fluxmap st) b
            (ev_index_map_pixel e) ;;
    b' <- np.norm_index (length (countsmap st)) (ev_index_map_logE e) ;;
    cm <- np.update2 (fun v => v + 1) (countsmap st) b' (ev_index_map_pixel e) ;;
    Ok (mkMaps fm cm (printed st)).

Fixpoint put_events (logEmin cosZenith_min : list R) (st : maps) (es : list (nat * event))
  : result maps :=
  match es with
  | [] => Ok st
  | ie :: es' =>
      st1 <- put_event logEmin cosZenith_min st ie ;;
      put_events logEmin cosZenith_min st1 es'
  end.

Definition zero_maps (NEbin npix : nat) : maps :=
  mkMaps (repeat (repeat (Finite 0) npix) NEbin) (repeat (repeat 0 npix) NEbin) [].

Definition getFlux_Countmaps (ang2pix : R -> R -> nat) (NEbin npix : nat)
  (map_logE_edge : list R) (Aeff_file : list Aeff_row) (AtmBG_file : list event_row)
  : result maps :=
  lEmin <- logEmin Aeff_file ;;
  cZmin <- cosZenith_min Aeff_file ;;
  events <- mapM (event_of ang2pix map_logE_edge (Aeff_table Aeff_file) lEmin cZmin) AtmBG_file ;;
  put_events lEmin cZmin (zero_maps NEbin npix) (combine (seq 0 (length events)) events).

(** The grid of the data release: lower edges of 70 energy bins and of 200
    cos-zenith bins. *)
Definition grid (Aeff_table logEmin cosZenith_min : list R) : Prop :=
  length Aeff_table = (70 * 200)%nat /\ length logEmin = 70%nat /\ length cosZenith_min = 200%nat
  /\ StronglySorted Rle logEmin /\ StronglySorted Rle cosZenith_min.

(** [v] lies in bin [i] of the lower edges: above edge [i], not above the
    next one. *)
Definition in_bin_of (edges : list R) (v : R) (i : nat) : Prop :=
  (i < length edges)%nat /\ nth i edges 0 < v /\
  ((S i < length edges)%nat -> v <= nth (S i) edges 0).

(** The event is left out: zero effective area at a zenith above 90. *)
Definition excluded (e : event) : Prop :=
  ev_Aeff e = 0 /\ 90 < col6 (ev_row e).

(** The event's pixel exists in both maps. *)
Definition on_map (st : maps) (e : event) : Prop :=
  (0 <= ev_index_map_logE e < Z.of_nat (length (fluxmap st)))%Z /\
  length (countsmap st) = length (fluxmap st) /\
  (ev_index_map_pixel e
   < length (nth (Z.to_nat (ev_index_map_logE e)) (fluxmap st) []))%nat /\
  (ev_index_map_pixel e
   < length (nth (Z.to_nat (ev_index_map_logE e)) (countsmap st) []))%nat.

(** The condition of line 117: [Aeff_event[i] == 0 and AtmBG_file[i][6] > 90.] *)
Definition left_out (e : event) : bool :=
  np.Reqb (ev_Aeff e) 0 && np.Rltb 90 (col6 (ev_row e)).

(** The event is counted in row [b] of a map of [n] rows. *)
Definition counted_in (n b : nat) (e : event) : bool :=
  negb (left_out e) &&
  match np.norm_index n (ev_index_map_logE e) with
  | Ok b' => (b' =? b)%nat
  | Raise _ => false
  end.

End IC3yr.

(** ** scripts/analyzeICdata.py: counts map, zenith distribution, event numbers *)

Module analyzeICdata.

(** Lines 33-34, the loop "put events into healpy maps": every event adds
    one count. *)
Definition put_event (countsmap : list (list R)) (ip : Z * nat) : result (list (list R)) :=
  b <- np.norm_index (length countsmap) (fst ip) ;;
  np.update2 (fun v => v + 1) countsmap b (snd ip).

Fixpoint put_events (countsmap : list (list R)) (l : list (Z * nat))
  : result (list (list R)) :=
  match l with
  | [] => Ok countsmap
  | ip :: l' => m <- put_event countsmap ip ;; put_events m l'
  end.

(** Lines 20-34.  [random_sample k] is draw [k] of
    [np.random.random_sample(len(AtmBG_file))]. *)
Definition countsmap (ang2pix : R -> R -> nat) (npix : nat) (map_logE_edge : list R)
  (AtmBG_file : list IC3yr.event_row) (random_sample : nat -> R) : result (list (list R)) :=
  let _index_map_logE :=
    map (fun r => IC3yr.index_map_logE map_logE_edge (IC3yr.col1 r)) AtmBG_file in
  let randomphi := map (fun k => random_sample k * 2 * PI) (seq 0 (length AtmBG_file)) in
  let _index_map_pixel :=
    np.zipWith (fun r phi => ang2pix ((180 - IC3yr.col6 r) * PI / 180) phi)
      AtmBG_file randomphi in
  put_events (repeat (repeat 0 npix) (length map_logE_edge - 1))
    (combine _index_map_logE _index_map_pixel).

(** Lines 86-98: the distribution of the cosine of the zenith angle of the
    events of energy bin [i], in [Nzenith_bin] bins of equal width on
    [-1, 1], summed over the event files. *)
Definition Nzenith_bin : nat := 60.

Definition coszenith (zenith : R) : R := cos (PI - zenith * PI / 180).

Definition N_coszenith_i (map_logE_edge : list R) (i : nat) (AtmBG_file : list IC3yr.event_row)
  : result (list Z) :=
  np.histogram_counts
    (map (fun r => coszenith (IC3yr.col6 r))
       (filter (fun r => (IC3yr.index_map_logE map_logE_edge (IC3yr.col1 r) =? Z.of_nat i)%Z)
          AtmBG_file))
    (np.linspace (-1) 1 (Nzenith_bin + 1)).

(** [acc += counts] on arrays of one shape. *)
Fixpoint add_counts (acc : list R) (counts : list Z) : result (list R) :=
  match acc, counts with
  | [], [] => Ok []
  | x :: acc', c :: counts' => r <- add_counts acc' counts' ;; Ok (x + IZR c :: r)
  | _, _ => Raise ValueError
  end.

Fixpoint N_coszenith (map_logE_edge : list R) (i : nat) (acc : list R)
  (files : list (list IC3yr.event_row)) : result (list R) :=
  match files with
  | [] => Ok acc
  | f :: files' =>
      c <- N_coszenith_i map_logE_edge i f ;;
      acc' <- add_counts acc c ;;
      N_coszenith map_logE_edge i acc' files'
  end.

(** Lines 112-126: the event numbers per energy bin, averaged over the two
    IC86 years.  The loop also fills [eventnumber_Ebin2], which is never
    saved or read again. *)
Fixpoint eventnumber_Ebin (map_logE_edge : list R) (acc : list R)
  (files : list (list IC3yr.event_row)) : result (list R) :=
  match files with
  | [] => Ok acc
  | f :: files' =>
      c <- np.histogram_counts (map IC3yr.col1 f) map_logE_edge ;;
      acc' <- add_counts acc c ;;
      eventnumber_Ebin map_logE_edge acc' files'
  end.

Definition eventNumber_Ebin_perIC86year (map_logE_edge : list R)
  (IC86_2012 IC86_2011 : list IC3yr.event_row) : result (list R) :=
  n <- eventnumber_Ebin map_logE_edge (repeat 0 (length map_logE_edge - 1))
         [IC86_2012; IC86_2011] ;;
  Ok (map (fun x => x / 2) n).

End analyzeICdata.

(** ** tests/test_likelihood.py: the range of energy bins *)

Module test_likelihood.

(** [len(np.where(row > 0)[0])] *)
Definition count_positive (row : list R) : nat :=
  length (filter (fun x => np.Rltb 0 x) row).

(** The loop of [getEbinmax], at most [fuel] iterations: [None] when the
    fuel runs out. *)
Fixpoint getEbinmax_loop (fuel : nat) (NEbin : nat) (w_astro_std_square : list (list R))
  (Ebinmax N_nonzero : nat) : option (result nat) :=
  if (0 <? N_nonzero)%nat && (Z.of_nat Ebinmax <? Z.of_nat NEbin - 1)%Z then
    match fuel with
    | O => None
    | S fuel' =>
        match np.getitem w_astro_std_square (Z.of_nat (Ebinmax + 1)) with
        | Ok row =>
            getEbinmax_loop fuel' NEbin w_astro_std_square (Ebinmax + 1) (count_positive row)
        | Raise e => Some (Raise e)
        end
    end
  else Some (Ok Ebinmax).

Definition getEbinmax (fuel : nat) (NEbin : nat) (w_astro_std_square : list (list R))
  : option (result nat) :=
  getEbinmax_loop fuel NEbin w_astro_std_square 3 1.

End test_likelihood.

(** ** The state of an EventGenerator *)

(** The object: the calibration arrays [nevts] and [Nastro_1yr_Aeffmax], and
    the mutable cells of the two generators. *)
Record EventGenerator : Type := mkEG {
  nevts : list R;
  Nastro_1yr_Aeffmax : list R;
  atm_nevents_expected : pyval;
  astro_nevents_expected : pyval;
  astro_normalized_counts_map : list R
}.

(** [AtmGenerator(NEbin, coszenith=cosz, nevents_expected=self.nevts)] *)
Definition fresh (eg : EventGenerator) : Prop :=
  atm_nevents_expected eg = PyFloatArr (nevts eg).

Definition set_atm_nevents_expected (v : pyval) (eg : EventGenerator) : EventGenerator :=
  mkEG (nevts eg) (Nastro_1yr_Aeffmax eg) v
       (astro_nevents_expected eg) (astro_normalized_counts_map eg).

Definition set_astro (v : pyval) (m : list R) (eg : EventGenerator) : EventGenerator :=
  mkEG (nevts eg) (Nastro_1yr_Aeffmax eg) (atm_nevents_expected eg) v m.

(** [nevents_expected() * duration_year] *)
Definition times_scalar (v : pyval) (d : R) : result (list R) :=
  match v with
  | PyFloatArr a => Ok (map (fun x => x * d) a)
  | PyIntArr a => Ok (map (fun k => IZR k * d) a)
  | PyPair _ _ => Raise TypeError
  end.

(** The Poisson means of [atmEvent]: [self._atm_gen.nevents_expected() * duration_year]. *)
Definition atmEvent_lambda (duration_year : R) (eg : EventGenerator) : result (list R) :=
  times_scalar (atm_nevents_expected eg) duration_year.

(** Lines 43-50 of [__init__]: the diffuse muon-neutrino flux and the
    expected number of astrophysical events of one year at the largest
    effective area of each energy bin. *)
Definition dN_dE_astro (E_GeV : R) : R := 1.44E-18 * Rpower (E_GeV / 100e3) (-2.28).

Definition Nastro_1yr_Aeffmax_bin (map_logE_center_i dlogE Aeff_max_i : R) : R :=
  dN_dE_astro (Rpower 10 map_logE_center_i)
  * (Rpower 10 map_logE_center_i * ln 10 * dlogE)
  * (Aeff_max_i * 1E4) * (333 * 24 * 3600) * 4 * PI.

Definition init_Nastro_1yr_Aeffmax (NEbin : nat) (map_logE_center : list R) (dlogE : R)
  (aeff : list (list R)) : result (list R) :=
  Aeff_max <- mapM np.max aeff ;;
  mapM (fun i =>
          c <- np.getitem map_logE_center (Z.of_nat i) ;;
          a <- np.getitem Aeff_max (Z.of_nat i) ;;
          Ok (Nastro_1yr_Aeffmax_bin c dlogE a))
       (seq 0 NEbin).

(** ** Sample data *)

Module Sample.

(** A random source that replays a tape of counts. *)
Definition rng : Type := list nat.
Definition rand1 (g : rng) : R * rng := (0, g).
Definition poisson1 (lam : R) (g : rng) : nat * rng :=
  match g with
  | [] => (0%nat, [])
  | k :: g' => (if Req_dec_T lam 0 then 0%nat else k, g')
  end.

Definition NEbin : nat := 7.
Definition NPIXEL : nat := 12.
Definition map_logE_edge : list R := [2; 3; 4; 5; 6; 7; 8; 9].

Definition atm_pixel (i : nat) (g : rng) : nat * rng := (Nat.min i 11, g).
Definition astro_pixel (template : list R) (g : rng) : nat * rng := (0%nat, g).
Definition generate_other (cell : pyval) (n_trials : nat) (g : rng)
  : result (list (list (list Z)) * rng) := Raise TypeError.

Definition analy_density : list R := repeat (/ 12) 12.
Definition where_negative (d : list R) : result unit := Ok tt.
Definition synfast (g : rng) : list R * rng := (repeat 0 12, g).

Definition vector_apply_mask (m : list (list Z)) : list (list Z) := m.
Definition crossCorrelationFromCountsmap (m : list (list Z)) : list (list R) :=
  map (map IZR) m.
Definition lnL_term (b l : nat) (f w : R) (n : Z) : R := - (w - f) * (w - f).
Definition optimizer (objective : list R -> result R) (n : nat) (g : rng) : list R * rng :=
  (repeat (/ 2) n, g).

(** A calibration: ten background events a year and two astrophysical ones
    in the first energy bin, none elsewhere. *)
Definition nevts0 : list R := [10; 0; 0; 0; 0; 0; 0].
Definition Nastro0 : list R := [2; 0; 0; 0; 0; 0; 0].

(** The release grid with uniform edges: log-energy from 2 in steps of 0.1,
    cos-zenith from -1 in steps of 0.01; entry [k] of the table is [k]. *)
Definition logEmin : list R := map (fun k => 2 + INR k / 10) (seq 0 70).
Definition cosZenith_min : list R := map (fun k => -1 + INR k / 100) (seq 0 200).
Definition Aeff_table : list R := map INR (seq 0 (70 * 200)).

(** The generator as the constructor leaves it. *)
Definition eg : EventGenerator :=
  mkEG nevts0 Nastro0 (PyFloatArr nevts0) (PyIntArr []) [].

(** An event with zero effective area that comes from above the horizon
    (zenith 45 degrees), in map bin 3 and pixel 0. *)
Definition downgoing_zero_Aeff : IC3yr.event :=
  IC3yr.mkEvent (IC3yr.mkRow 5.5 0 0 45) 34 170 0 3 0.

(** A file of the effective area with 70 x 200 rows, row [k] holding [k] in
    every column. *)
Definition Aeff_file : list IC3yr.Aeff_row :=
  map (fun k => IC3yr.mkAeffRow (INR k) (INR k) (INR k) (INR k) (INR k)) (seq 0 (70 * 200)).

(** A variance table of seven energy bins: bins 0 to 4 hold a positive
    entry, bins 5 and 6 do not. *)
Definition w_astro_std_square : list (list R) := [[1]; [1]; [1]; [1]; [1]; [0]; [0]].

End Sample.

(** ** KIPAC/nuXgal/EventGenerator.py *)

Section nuXgal.

(** numpy's global random state: one uniform draw of [np.random.rand] and
    one draw of [np.random.poisson] at a mean. *)
Variable rng : Type.
Variable rand1 : rng -> R * rng.
Variable poisson1 : R -> rng -> nat * rng.

(** [Defaults.NEbin], [Defaults.NPIXEL], [Defaults.map_logE_edge]. *)
Variable NEbin : nat.
Variable NPIXEL : nat.
Variable map_logE_edge : list R.

(** The pixel of one event: an atmospheric event of energy bin [i] (zenith
    from the bin's distribution, azimuth uniform), an astrophysical event
    from the normalised counts map. *)
Variable atm_pixel : nat -> rng -> nat * rng.
Variable astro_pixel : list R -> rng -> nat * rng.

(** What a generator does when its [nevents_expected] cell does not hold an
    integer array; the spec does not say. *)
Variable atm_generate_other : pyval -> nat -> rng -> result (list (list (list Z)) * rng).
Variable astro_generate_other : pyval -> nat -> rng -> result (list (list (list Z)) * rng).

(** [GalaxySample]: the analytic density, the diagnostic
    [density_nu.where(density_nu < 0.)] and [synfast] of its spectrum. *)
Variable analy_density : list R.
Variable where_negative : list R -> result unit.
Variable synfast : rng -> list R * rng.

(** [np.random.rand(n)] *)
Fixpoint random_rand (n : nat) (g : rng) : list R * rng :=
  match n with
  | O => ([], g)
  | S n' =>
      let (u, g1) := rand1 g in
      let (us, g2) := random_rand n' g1 in
      (u :: us, g2)
  end.

(** [np.random.poisson(lam)] on an array of means: [ValueError] when a mean
    is negative ("lam < 0") or above [np.POISSON_LAM_MAX] ("lam value too
    large"). *)
Fixpoint poisson_draws (lam : list R) (g : rng) : list Z * rng :=
  match lam with
  | [] => ([], g)
  | x :: lam' =>
      let (k, g1) := poisson1 x g in
      let (ks, g2) := poisson_draws lam' g1 in
      (Z.of_nat k :: ks, g2)
  end.

Definition random_poisson (lam : list R) (g : rng) : result (list Z * rng) :=
  if forallb (fun x => np.Rleb 0 x && np.Rleb x np.POISSON_LAM_MAX) lam
  then Ok (poisson_draws lam g)
  else Raise ValueError.

(** dN/dE proportional to E^alpha; here over the reals. *)
Definition randPowerLaw (alpha : R) (Ntotal : nat) (emin emax : R) (g : rng) : list R * rng :=
  if Req_dec_T alpha (-1) then
    let part1 := ln emax in
    let part2 := ln emin in
    let (u, g') := random_rand Ntotal g in
    (map (fun x => exp ((part1 - part2) * x + part2)) u, g')
  else
    let part1 := Rpower emax (alpha + 1) in
    let part2 := Rpower emin (alpha + 1) in
    let (u, g') := random_rand Ntotal g in
    (map (fun x => Rpower ((part1 - part2) * x + part2) (1 / (alpha + 1))) u, g').


Definition world : Type := (rng * EventGenerator)%type.

(** Modelled from the spec: [generate_event_maps] of [AtmGenerator] and
    [AstroGenerator_v2] (Generator.py is absent).  For each energy bin the
    generator takes that bin's count from [nevents_expected], samples that
    many pixels and accumulates one count per drawn pixel into a map that
    starts at zero. *)
Fixpoint place_events (draw : rng -> nat * rng) (n : nat) (m : list Z) (g : rng)
  : result (list Z * rng) :=
  match n with
  | O => Ok (m, g)
  | S n' =>
      let (p, g1) := draw g in
      m1 <- np.update (fun v => (v + 1)%Z) m p ;;
      place_events draw n' m1 g1
  end.

(** Modelled from the spec: the per-bin loop of [generate_event_maps], one
    map per energy bin, bin [i] with [counts[i]] events. *)
Fixpoint generate_bins (draw : nat -> rng -> nat * rng) (counts : list Z)
  (i nbins : nat) (g : rng) : result (list (list Z) * rng) :=
  match nbins with
  | O => Ok ([], g)
  | S k =>
      c <- np.getitem counts (Z.of_nat i) ;;
      ' (m, g1) <- place_events (draw i) (Z.to_nat c) (repeat 0%Z NPIXEL) g ;;
      ' (ms, g2) <- generate_bins draw counts (S i) k g1 ;;
      Ok (m :: ms, g2)
  end.

(** Modelled from the spec: the [n_trials] repetitions of
    [generate_event_maps]. *)
Fixpoint generate_trials (one : rng -> result (list (list Z) * rng)) (n_trials : nat)
  (g : rng) : result (list (list (list Z)) * rng) :=
  match n_trials with
  | O => Ok ([], g)
  | S k =>
      ' (t, g1) <- one g ;;
      ' (ts, g2) <- generate_trials one k g1 ;;
      Ok (t :: ts, g2)
  end.

(** Modelled from the spec: [generate_event_maps(n_trials)], reading the
    counts from the generator's [nevents_expected] cell. *)
Definition generate_event_maps (draw : nat -> rng -> nat * rng)
  (other : pyval -> nat -> rng -> result (list (list (list Z)) * rng))
  (cell : pyval) (n_trials : nat) (g : rng) : result (list (list (list Z)) * rng) :=
  match cell with
  | PyIntArr counts => generate_trials (generate_bins draw counts 0 NEbin) n_trials g
  | _ => other cell n_trials g
  end.

Definition astroEvent_galaxy (intrinsicCounts : pyval) (normalized_counts_map : list R)
  (w : world) : result (list (list Z) * world) :=
  let (g, eg) := w in
  let eg1 := set_astro intrinsicCounts normalized_counts_map eg in
  ' (trials, g1) <- generate_event_maps (fun _ => astro_pixel (astro_normalized_counts_map eg1))
                      astro_generate_other (astro_nevents_expected eg1) 1 g ;;
  m <- first_item trials ;;
  Ok (m, (g1, eg1)).

(** Lines 108-109: the energies and what [np.histogram] returns for them. *)
Definition powerlaw_intrinsicCounts (Ntotal : nat) (alpha emin emax : R) (g : rng)
  : result (pyval * rng) :=
  let (energy, g1) := randPowerLaw alpha Ntotal emin emax g in
  intrinsicCounts <- np.histogram (map np.log10 energy) map_logE_edge ;;
  Ok (intrinsicCounts, g1).

Definition astroEvent_galaxy_powerlaw (Ntotal : nat) (normalized_counts_map : list R)
  (alpha emin emax : R) (w : world) : result (list (list Z) * world) :=
  let (g, eg) := w in
  ' (intrinsicCounts, g1) <- powerlaw_intrinsicCounts Ntotal alpha emin emax g ;;
  astroEvent_galaxy intrinsicCounts normalized_counts_map (g1, eg).

Definition atmEvent (duration_year : R) (w : world) : result (list (list Z) * world) :=
  let (g, eg) := w in
  lam <- atmEvent_lambda duration_year eg ;;
  ' (eventnumber_Ebin, g1) <- random_poisson lam g ;;
  let eg1 := set_atm_nevents_expected (PyIntArr eventnumber_Ebin) eg in
  ' (trials, g2) <- generate_event_maps atm_pixel atm_generate_other
                      (atm_nevents_expected eg1) 1 g1 ;;
  m <- first_item trials ;;
  Ok (m, (g2, eg1)).

(** The loop of [computeSyntheticData] over the energy bins: the pair
    ([f_astro[i]], [f_atm[i]]), both arrays starting at zero. *)
Definition fraction_bin (eg : EventGenerator) (f_diff : R) (i : nat) : result (R * R) :=
  n <- np.getitem (nevts eg) (Z.of_nat i) ;;
  if Req_dec_T n 0 then
    a <- np.getitem (Nastro_1yr_Aeffmax eg) (Z.of_nat i) ;;
    if Req_dec_T a 0 then Ok (0, 0) else Ok (1, 0)
  else
    a <- np.getitem (Nastro_1yr_Aeffmax eg) (Z.of_nat i) ;;
    let f_astro := a * f_diff / n in
    Ok (f_astro, 1 - f_astro).

Definition fractions (eg : EventGenerator) (f_diff : R) : result (list R * list R) :=
  fs <- mapM (fraction_bin eg f_diff) (seq 0 NEbin) ;;
  Ok (map fst fs, map snd fs).

(** [self.nevts * N_yr * f_atm] and [self.Nastro_1yr_Aeffmax * N_yr * f_diff] *)
Definition synthetic_atm_lambda (eg : EventGenerator) (N_yr : R) (f_atm : list R)
  : result (list R) :=
  np.multiply (map (fun x => x * N_yr) (nevts eg)) f_atm.

Definition synthetic_astro_lambda (eg : EventGenerator) (N_yr f_diff : R) : list R :=
  map (fun x => x * N_yr * f_diff) (Nastro_1yr_Aeffmax eg).

Definition density_nu (fromGalaxy : bool) (g : rng) : result (list R * rng) :=
  if fromGalaxy then
    _ <- where_negative analy_density ;;
    Ok (analy_density, g)
  else
    let (d, g1) := synfast g in
    let e := map exp d in
    Ok (map (fun x => x / np.sumR e) e, g1).

(** [write_maps_to_fits] is not a name of the module (only [file_utils] is
    imported), so the [write_map] branch raises [NameError]. *)
Definition computeSyntheticData (N_yr : R) (fromGalaxy : bool) (f_diff : R)
  (write_map : bool) (w : world) : result (list (list Z) * world) :=
  let (g, eg) := w in
  ' (f_astro, f_atm) <- fractions eg f_diff ;;
  lam <- synthetic_atm_lambda eg N_yr f_atm ;;
  ' (Natm, g1) <- random_poisson lam g ;;
  let eg1 := set_atm_nevents_expected (PyIntArr Natm) eg in
  ' (trials, g2) <- generate_event_maps atm_pixel atm_generate_other
                      (atm_nevents_expected eg1) 1 g1 ;;
  atm_map <- first_item trials ;;
  ' (density, g3) <- density_nu fromGalaxy g2 ;;
  ' (Nastro, g4) <- random_poisson (synthetic_astro_lambda eg1 N_yr f_diff) g3 ;;
  ' (astro_map, w5) <- astroEvent_galaxy (PyIntArr Nastro) density (g4, eg1) ;;
  countsmap <- np.add2 atm_map astro_map ;;
  if write_map then Raise NameError else Ok (countsmap, w5).

(** ** The fit driven by tests/test_likelihood.py *)

(** The external pieces of the trial: the mask, the cross-correlation with
    the galaxy template, the Gaussian log-likelihood term of one (energy
    bin, multipole) at a fraction, an observed cross-power and an observed
    count, and the bounded derivative-free optimizer started at a random
    state. *)
Variable vector_apply_mask : list (list Z) -> list (list Z).
Variable crossCorrelationFromCountsmap : list (list Z) -> list (list R).
Variable lnL_term : nat -> nat -> R -> R -> Z -> R.
Variable optimizer : (list R -> result R) -> nat -> rng -> list R * rng.

(** Modelled from the spec: [Likelihood.lnL] (Likelihood.py is absent).  The
    sum over the energy bins in range and the multipoles from [lmin] on of
    the Gaussian term; [DomainError] when a fraction is outside [0, 1]. *)
Definition lnL (f : list R) (w_data : list (list R)) (Ncount : list Z)
  (lmin Ebinmin Ebinmax : nat) : result R :=
  if forallb (fun x => np.Rleb 0 x && np.Rleb x 1) f then
    Ok (np.sumR
          (map (fun b =>
                  np.sumR
                    (map (fun l =>
                            lnL_term b l (nth (b - Ebinmin) f 0)
                              (nth l (nth b w_data []) 0) (nth b Ncount 0%Z))
                       (seq lmin (length (nth b w_data []) - lmin))))
             (seq Ebinmin (Ebinmax - Ebinmin))))
  else Raise DomainError.

(** Modelled from the spec: [Likelihood.minimize__lnL] (Likelihood.py is
    absent).  One free fraction per energy bin in range; the optimizer
    maximises [lnL]; the test statistic compares the best fit with the
    all-zero vector. *)
Definition minimize__lnL (w_data : list (list R)) (Ncount : list Z)
  (lmin Ebinmin Ebinmax : nat) (g : rng) : result ((list R * R) * rng) :=
  let len_f := (Ebinmax - Ebinmin)%nat in
  let (best, g1) :=
    optimizer (fun f => l <- lnL f w_data Ncount lmin Ebinmin Ebinmax ;; Ok (- l)) len_f g in
  l1 <- lnL best w_data Ncount lmin Ebinmin Ebinmax ;;
  l0 <- lnL (repeat 0 len_f) w_data Ncount lmin Ebinmin Ebinmax ;;
  Ok ((best, 2 * (l1 - l0)), g1).

(** [np.where(Ncount != 0)[0][-1]] *)
Fixpoint last_nonzero (Ncount : list Z) (i : nat) : option nat :=
  match Ncount with
  | [] => None
  | c :: rest =>
      match last_nonzero rest (S i) with
      | Some j => Some j
      | None => if (c =? 0)%Z then None else Some i
      end
  end.

Definition Ebinmax_of (Ncount : list Z) : result nat :=
  match last_nonzero Ncount 0 with
  | Some i => Ok (Nat.min (i + 1) 5)
  | None => Raise IndexError
  end.

(** One trial, as [testMCMC] runs it: synthetic data, mask,
    cross-correlation, counts per bin, fit. *)
Definition trial (N_yr : R) (fromGalaxy : bool) (f_diff : R) (lmin : nat) (w : world)
  : result ((list (list Z) * list R * R) * world) :=
  ' (datamap0, (g1, eg1)) <- computeSyntheticData N_yr fromGalaxy f_diff false w ;;
  let datamap := vector_apply_mask datamap0 in
  let w_data := crossCorrelationFromCountsmap datamap in
  let Ncount := map np.sum datamap in
  Ebinmax <- Ebinmax_of Ncount ;;
  ' ((best, TS), g2) <- minimize__lnL w_data Ncount lmin 0 Ebinmax g1 ;;
  Ok ((datamap, best, TS), (g2, eg1)).








(** ** What the properties speak about *)

(** [np.random.rand] draws from the half-open unit interval, and a Poisson
    draw at mean zero is zero. *)
Definition uniform01 : Prop := forall g, 0 <= fst (rand1 g) < 1.
Definition poisson_zero : Prop := forall g, fst (poisson1 0 g) = 0%nat.

(** A map of one energy bin that holds exactly [c] events. *)
Definition holds_count (c : Z) (m : list Z) : Prop :=
  np.sum m = c /\ Forall (fun v => (0 <= v)%Z) m /\ length m = NPIXEL.

Definition pixels_in_range (draw : nat -> rng -> nat * rng) : Prop :=
  forall i g, (fst (draw i g) < NPIXEL)%nat.

(** The intermediate values of one run of [computeSyntheticData]. *)
Record synthetic_run : Type := mkRun {
  run_f_astro : list R;
  run_f_atm : list R;
  run_lambda_atm : list R;
  run_Natm : list Z;
  run_atm_map : list (list Z);
  run_density : list R;
  run_Nastro : list Z;
  run_astro_map : list (list Z);
  run_g1 : rng; run_g2 : rng; run_g3 : rng; run_g4 : rng; run_g5 : rng
}.

Definition synthetic_steps (N_yr : R) (fromGalaxy : bool) (f_diff : R) (g : rng)
  (eg : EventGenerator) (r : synthetic_run) (maps : list (list Z)) : Prop :=
  fractions eg f_diff = Ok (run_f_astro r, run_f_atm r) /\
  synthetic_atm_lambda eg N_yr (run_f_atm r) = Ok (run_lambda_atm r) /\
  random_poisson (run_lambda_atm r) g = Ok (run_Natm r, run_g1 r) /\
  generate_bins atm_pixel (run_Natm r) 0 NEbin (run_g1 r) = Ok (run_atm_map r, run_g2 r) /\
  density_nu fromGalaxy (run_g2 r) = Ok (run_density r, run_g3 r) /\
  random_poisson (synthetic_astro_lambda eg N_yr f_diff) (run_g3 r)
    = Ok (run_Nastro r, run_g4 r) /\
  generate_bins (fun _ => astro_pixel (run_density r)) (run_Nastro r) 0 NEbin (run_g4 r)
    = Ok (run_astro_map r, run_g5 r) /\
  np.add2 (run_atm_map r) (run_astro_map r) = Ok maps.

Definition synthetic_final (eg : EventGenerator) (r : synthetic_run) : world :=
  (run_g5 r,
   set_astro (PyIntArr (run_Nastro r)) (run_density r)
     (set_atm_nevents_expected (PyIntArr (run_Natm r)) eg)).

(** The fractions of one energy bin, as a function of its two calibration
    entries. *)
Definition fraction_of (n a f_diff : R) : R * R :=
  if Req_dec_T n 0 then (if Req_dec_T a 0 then (0, 0) else (1, 0))
  else (a * f_diff / n, 1 - a * f_diff / n).

Definition fractions_of (eg : EventGenerator) (f_diff : R) : list (R * R) :=
  map (fun i => fraction_of (nth i (nevts eg) 0) (nth i (Nastro_1yr_Aeffmax eg) 0) f_diff)
      (seq 0 NEbin).

(** One calibration entry per energy bin. *)
Definition calibrated (eg : EventGenerator) : Prop :=
  length (nevts eg) = NEbin /\ length (Nastro_1yr_Aeffmax eg) = NEbin.

(** The inputs on which every Poisson mean of [computeSyntheticData] is one
    that [np.random.poisson] accepts: non-negative duration, flux fraction
    and calibration, an astrophysical fraction of at most one wherever the
    background count is not zero, and expected counts of at most
    [np.POISSON_LAM_MAX]. *)
Definition physical (eg : EventGenerator) (N_yr f_diff : R) : Prop :=
  0 <= N_yr /\ 0 <= f_diff /\
  Forall (fun x => 0 <= x) (nevts eg) /\
  Forall (fun x => 0 <= x) (Nastro_1yr_Aeffmax eg) /\
  (forall i, (i < NEbin)%nat -> nth i (nevts eg) 0 <> 0 ->
     nth i (Nastro_1yr_Aeffmax eg) 0 * f_diff <= nth i (nevts eg) 0) /\
  Forall (fun x => x * N_yr <= np.POISSON_LAM_MAX) (nevts eg) /\
  Forall (fun x => x * N_yr * f_diff <= np.POISSON_LAM_MAX) (Nastro_1yr_Aeffmax eg).

(** The optimizer keeps every fraction inside its bounds. *)
Definition bounded_optimizer : Prop :=
  forall obj n g, Forall (fun x => 0 <= x <= 1) (fst (optimizer obj n g)).

(** What a run shows to its caller: the value it returns or the exception. *)
Definition outcome {A : Type} (r : result (A * world)) : result A :=
  match r with
  | Ok (a, _) => Ok a
  | Raise e => Raise e
  end.

(** ** Properties *)

(** *** randPowerLaw *)

Lemma ln_monotone (x y : R) : 0 < x -> x <= y -> ln x <= ln y.
Proof.
  intros Hx [Hlt | ->].
  - left. now apply ln_increasing.
  - right. reflexivity.
Qed.

Lemma exp_monotone (x y : R) : x <= y -> exp x <= exp y.
Proof.
  intros [Hlt | ->].
  - left. now apply exp_increasing.
  - right. reflexivity.
Qed.

Lemma random_rand_length (n : nat) (g : rng) : length (fst (random_rand n g)) = n.
Proof.
  revert g. induction n as [| n IH]; intros g; simpl.
  - reflexivity.
  - destruct (rand1 g) as [u g1]. specialize (IH g1).
    destruct (random_rand n g1) as [us g2]. simpl in *. now rewrite IH.
Qed.

Lemma random_rand_range (n : nat) (g : rng) :
  uniform01 -> Forall (fun u => 0 <= u < 1) (fst (random_rand n g)).
Proof.
  intros Hu. revert g. induction n as [| n IH]; intros g; simpl.
  - constructor.
  - pose proof (Hu g) as H0. destruct (rand1 g) as [u g1]. specialize (IH g1).
    destruct (random_rand n g1) as [us g2]. simpl in *. now constructor.
Qed.

(** The log-uniform branch stays between the bounds. *)
Lemma loguniform_range (emin emax u : R) :
  0 < emin <= emax -> 0 <= u < 1 ->
  emin <= exp ((ln emax - ln emin) * u + ln emin) <= emax.
Proof.
  intros [Hmin Hle] [Hu0 Hu1].
  assert (Hmax : 0 < emax) by lra.
  pose proof (ln_monotone emin emax Hmin Hle) as Hln.
  rewrite <- (exp_ln emin Hmin) at 1.
  rewrite <- (exp_ln emax Hmax) at 3.
  split; apply exp_monotone; nra.
Qed.

(** The inverse-CDF branch stays between the bounds, for either sign of
    [alpha + 1]. *)
Lemma inverse_cdf_range (a emin emax u : R) :
  a <> 0 -> 0 < emin <= emax -> 0 <= u < 1 ->
  emin <= Rpower ((Rpower emax a - Rpower emin a) * u + Rpower emin a) (1 / a) <= emax.
Proof.
  intros Ha [Hmin Hle] [Hu0 Hu1].
  assert (Hmax : 0 < emax) by lra.
  pose proof (ln_monotone emin emax Hmin Hle) as Hln.
  set (p1 := Rpower emax a). set (p2 := Rpower emin a).
  assert (Hp1 : 0 < p1) by apply exp_pos.
  assert (Hp2 : 0 < p2) by apply exp_pos.
  assert (Hl1 : ln p1 = a * ln emax) by (unfold p1, Rpower; apply ln_exp).
  assert (Hl2 : ln p2 = a * ln emin) by (unfold p2, Rpower; apply ln_exp).
  set (x := (p1 - p2) * u + p2).
  assert (Hbounds : ln emin <= 1 / a * ln x <= ln emax).
  { destruct (Rlt_dec 0 a) as [Hpos | Hneg].
    - assert (H12 : p2 <= p1).
      { unfold p1, p2, Rpower. apply exp_monotone. nra. }
      assert (Hx : p2 <= x <= p1) by (unfold x; nra).
      assert (Hx0 : 0 < x) by lra.
      pose proof (ln_monotone p2 x Hp2 (proj1 Hx)) as Hlo.
      pose proof (ln_monotone x p1 Hx0 (proj2 Hx)) as Hhi.
      rewrite Hl2 in Hlo. rewrite Hl1 in Hhi.
      assert (Hinv : 0 < / a) by now apply Rinv_0_lt_compat.
      replace (ln emin) with (1 / a * (a * ln emin)) by (field; lra).
      replace (ln emax) with (1 / a * (a * ln emax)) by (field; lra).
      split; apply Rmult_le_compat_l; lra.
    - assert (Hneg' : a < 0) by lra.
      assert (H12 : p1 <= p2).
      { unfold p1, p2, Rpower. apply exp_monotone. nra. }
      assert (Hx : p1 <= x <= p2) by (unfold x; nra).
      assert (Hx0 : 0 < x) by lra.
      pose proof (ln_monotone p1 x Hp1 (proj1 Hx)) as Hlo.
      pose proof (ln_monotone x p2 Hx0 (proj2 Hx)) as Hhi.
      rewrite Hl1 in Hlo. rewrite Hl2 in Hhi.
      assert (Hinv : / a < 0) by now apply Rinv_lt_0_compat.
      replace (ln emin) with (1 / a * (a * ln emin)) by (field; lra).
      replace (ln emax) with (1 / a * (a * ln emax)) by (field; lra).
      split; apply Rmult_le_compat_neg_l; lra. }
  unfold Rpower. split.
  - rewrite <- (exp_ln emin Hmin) at 1. apply exp_monotone. lra.
  - rewrite <- (exp_ln emax Hmax) at 1. apply exp_monotone. lra.
Qed.










(** *** Arrays *)

Lemma getitem_of_nat {A : Type} (a : list A) (i : nat) :
  np.getitem a (Z.of_nat i) =
  match nth_error a i with Some x => Ok x | None => Raise IndexError end.
Proof.
  unfold np.getitem, np.norm_index.
  destruct (Nat.lt_ge_cases i (length a)) as [Hlt | Hge].
  - replace ((0 <=? Z.of_nat i) && (Z.of_nat i <? Z.of_nat (length a)))%Z with true.
    + simpl. now rewrite Nat2Z.id.
    + symmetry. apply andb_true_iff. split; [apply Z.leb_le | apply Z.ltb_lt]; lia.
  - replace ((0 <=? Z.of_nat i) && (Z.of_nat i <? Z.of_nat (length a)))%Z with false.
    + replace ((- Z.of_nat (length a) <=? Z.of_nat i) && (Z.of_nat i <? 0))%Z with false.
      * simpl. apply nth_error_None in Hge. now rewrite Hge.
      * symmetry. apply andb_false_iff. right. apply Z.ltb_ge. lia.
    + symmetry. apply andb_false_iff. right. apply Z.ltb_ge. lia.
Qed.

Lemma update_total {A : Type} (f : A -> A) (m : list A) (p : nat) :
  (p < length m)%nat -> exists m', np.update f m p = Ok m'.
Proof.
  revert p. induction m as [| x m IH]; intros p Hp; simpl in Hp.
  - lia.
  - destruct p as [| p].
    + eexists. reflexivity.
    + destruct (IH p) as [m' Hm']; [lia |].
      exists (x :: m'). unfold np.update in *. simpl. now rewrite Hm'.
Qed.

Lemma update_increment (m : list Z) (p : nat) (m' : list Z) :
  np.update (fun v => (v + 1)%Z) m p = Ok m' ->
  np.sum m' = (np.sum m + 1)%Z /\ length m' = length m /\
  (Forall (fun v => (0 <= v)%Z) m -> Forall (fun v => (0 <= v)%Z) m').
Proof.
  unfold np.update. revert p m'.
  induction m as [| x m IH]; intros p m' H; simpl in H.
  - discriminate.
  - destruct p as [| p].
    + inversion H; subst. unfold np.sum. simpl. repeat split.
      * lia.
      * intros Hall. inversion Hall; subst. constructor; [lia | assumption].
    + inv_bind H. inversion H; subst.
      destruct (IH _ _ E) as (Hs & Hl & Hn). unfold np.sum in *. simpl.
      repeat split.
      * lia.
      * now rewrite Hl.
      * intros Hall. inversion Hall; subst. constructor; auto.
Qed.

Lemma sum_zero_all_zero (m : list Z) :
  Forall (fun v => (0 <= v)%Z) m -> np.sum m = 0%Z -> m = repeat 0%Z (length m).
Proof.
  unfold np.sum. induction 1 as [| x m Hx Hall IH]; simpl; intros Hs.
  - reflexivity.
  - assert (Hm : (0 <= fold_right Z.add 0 m)%Z).
    { clear IH Hs. induction Hall; simpl; lia. }
    assert (x = 0%Z) by lia. subst. f_equal. apply IH. lia.
Qed.

(** *** The generator *)

Ltac cells H :=
  cbn [bind atm_nevents_expected astro_nevents_expected astro_normalized_counts_map
       nevts Nastro_1yr_Aeffmax set_atm_nevents_expected set_astro] in H.

Lemma place_events_counts (draw : rng -> nat * rng) (n : nat) (m : list Z) (g : rng)
  (m' : list Z) (g' : rng) :
  place_events draw n m g = Ok (m', g') ->
  np.sum m' = (np.sum m + Z.of_nat n)%Z /\ length m' = length m /\
  (Forall (fun v => (0 <= v)%Z) m -> Forall (fun v => (0 <= v)%Z) m').
Proof.
  revert m g. induction n as [| n IH]; intros m g H; simpl in H.
  - inversion H; subst. repeat split; auto. lia.
  - destruct (draw g) as [p g1]. inv_bind H.
    destruct (update_increment _ _ _ E) as (Hs & Hl & Hn).
    destruct (IH _ _ H) as (Hs' & Hl' & Hn').
    repeat split.
    + lia.
    + congruence.
    + auto.
Qed.

Lemma place_events_total (draw : rng -> nat * rng) (n : nat) (m : list Z) (g : rng) :
  (forall g0, fst (draw g0) < length m)%nat ->
  exists m' g', place_events draw n m g = Ok (m', g').
Proof.
  intros Hd. revert m g Hd. induction n as [| n IH]; intros m g Hd; simpl.
  - eauto.
  - pose proof (Hd g) as Hp. destruct (draw g) as [p g1]. simpl in Hp.
    destruct (update_total (fun v => (v + 1)%Z) m p Hp) as [m1 Hm1].
    rewrite Hm1. simpl. apply IH.
    destruct (update_increment _ _ _ Hm1) as (_ & Hl & _). now rewrite Hl.
Qed.

Lemma zeros_hold_zero : holds_count 0 (repeat 0%Z NPIXEL).
Proof.
  unfold holds_count. repeat split.
  - unfold np.sum. induction NPIXEL; simpl; lia.
  - apply Forall_forall. intros v Hv. apply repeat_spec in Hv. lia.
  - apply repeat_length.
Qed.

Lemma generate_bins_placed (draw : nat -> rng -> nat * rng) (counts : list Z)
  (nbins i : nat) (g : rng) (ms : list (list Z)) (g' : rng) :
  generate_bins draw counts i nbins g = Ok (ms, g') ->
  length ms = nbins /\
  forall k, (k < nbins)%nat ->
    holds_count (Z.of_nat (Z.to_nat (nth (i + k) counts 0%Z))) (nth k ms []).
Proof.
  revert i g ms. induction nbins as [| n IH]; intros i g ms H; simpl in H.
  - inversion H; subst. split; [reflexivity | intros k Hk; lia].
  - rewrite getitem_of_nat in H.
    destruct (nth_error counts i) as [c |] eqn:Ei; simpl in H; [| discriminate].
    inv_bind H. destruct a as [m g1]. inv_bind H. destruct a as [ms' g2].
    inversion H; subst.
    destruct (place_events_counts _ _ _ _ _ _ E) as (Hs & Hl & Hn).
    destruct (IH _ _ _ E0) as (Hlen & Hk).
    destruct zeros_hold_zero as (Z0 & Zn & Zl).
    split; [simpl; now rewrite Hlen |].
    intros [| k] Hlt; simpl.
    + rewrite Nat.add_0_r. rewrite (nth_error_nth _ _ _ Ei).
      unfold holds_count. repeat split.
      * rewrite Hs, Z0. lia.
      * auto.
      * congruence.
    + replace (i + S k)%nat with (S i + k)%nat by lia. apply Hk. lia.
Qed.

Lemma generate_bins_counts (draw : nat -> rng -> nat * rng) (counts : list Z)
  (nbins i : nat) (g : rng) (ms : list (list Z)) (g' : rng) :
  Forall (fun c => (0 <= c)%Z) counts ->
  generate_bins draw counts i nbins g = Ok (ms, g') ->
  length ms = nbins /\
  forall k, (k < nbins)%nat -> holds_count (nth (i + k) counts 0%Z) (nth k ms []).
Proof.
  intros Hc H. destruct (generate_bins_placed _ _ _ _ _ _ _ H) as (Hlen & Hk).
  split; [exact Hlen |]. intros k Hlt. specialize (Hk k Hlt).
  rewrite Z2Nat.id in Hk; [exact Hk |].
  destruct (Nat.lt_ge_cases (i + k) (length counts)) as [Hin | Hout].
  - rewrite Forall_forall in Hc. apply Hc. now apply nth_In.
  - rewrite nth_overflow by lia. lia.
Qed.

Lemma generate_bins_total (draw : nat -> rng -> nat * rng) (counts : list Z)
  (nbins i : nat) (g : rng) :
  pixels_in_range draw -> (i + nbins <= length counts)%nat ->
  exists ms g', generate_bins draw counts i nbins g = Ok (ms, g').
Proof.
  intros Hp. revert i g. induction nbins as [| n IH]; intros i g Hlen; simpl.
  - eauto.
  - rewrite getitem_of_nat.
    destruct (nth_error counts i) as [c |] eqn:Ei.
    2:{ apply nth_error_None in Ei. lia. }
    simpl.
    destruct (place_events_total (draw i) (Z.to_nat c) (repeat 0%Z NPIXEL) g) as (m & g1 & Hm).
    { intros g0. rewrite repeat_length. apply Hp. }
    rewrite Hm. simpl.
    destruct (IH (S i) g1) as (ms & g2 & Hms); [lia |].
    rewrite Hms. simpl. eauto.
Qed.

Lemma poisson_draws_nonneg (lam : list R) (g : rng) :
  Forall (fun c => (0 <= c)%Z) (fst (poisson_draws lam g)) /\
  length (fst (poisson_draws lam g)) = length lam.
Proof.
  revert g. induction lam as [| x lam IH]; intros g; simpl.
  - split; [constructor | reflexivity].
  - destruct (poisson1 x g) as [k g1]. specialize (IH g1).
    destruct (poisson_draws lam g1) as [ks g2]. simpl in *.
    destruct IH as [IH1 IH2]. split; [constructor; [lia | assumption] | now rewrite IH2].
Qed.

Lemma generate_once (draw : nat -> rng -> nat * rng)
  (other : pyval -> nat -> rng -> result (list (list (list Z)) * rng))
  (counts : list Z) (g : rng) (m : list (list Z)) (g' : rng) :
  generate_bins draw counts 0 NEbin g = Ok (m, g') ->
  generate_event_maps draw other (PyIntArr counts) 1 g = Ok ([m], g').
Proof.
  intros H. unfold generate_event_maps. simpl. now rewrite H.
Qed.

Lemma generate_once_inv (draw : nat -> rng -> nat * rng)
  (other : pyval -> nat -> rng -> result (list (list (list Z)) * rng))
  (counts : list Z) (g : rng) (trials : list (list (list Z))) (m : list (list Z)) (g' : rng) :
  generate_event_maps draw other (PyIntArr counts) 1 g = Ok (trials, g') ->
  first_item trials = Ok m ->
  generate_bins draw counts 0 NEbin g = Ok (m, g').
Proof.
  unfold generate_event_maps. simpl. intros H Hf.
  destruct (generate_bins draw counts 0 NEbin g) as [[m0 g0] |]; simpl in H; [| discriminate].
  inversion H; subst. simpl in Hf. now inversion Hf.
Qed.

Lemma atmEvent_inv (duration_year : R) (g : rng) (eg : EventGenerator)
  (maps : list (list Z)) (w' : world) :
  atmEvent duration_year (g, eg) = Ok (maps, w') ->
  exists lam counts g1 g2,
    atmEvent_lambda duration_year eg = Ok lam /\
    random_poisson lam g = Ok (counts, g1) /\
    generate_bins atm_pixel counts 0 NEbin g1 = Ok (maps, g2) /\
    w' = (g2, set_atm_nevents_expected (PyIntArr counts) eg).
Proof.
  unfold atmEvent. intros H.
  inv_bind H. inv_bind H. destruct a0 as [counts g1]. cells H.
  inv_bind H. destruct a0 as [trials g2]. inv_bind H. inversion H; subst.
  exists a, counts, g1, g2. repeat split; auto.
  eapply generate_once_inv; eauto.
Qed.

Lemma astroEvent_galaxy_inv (counts : list Z) (template : list R) (g : rng)
  (eg : EventGenerator) (maps : list (list Z)) (w' : world) :
  astroEvent_galaxy (PyIntArr counts) template (g, eg) = Ok (maps, w') ->
  exists g1,
    generate_bins (fun _ => astro_pixel template) counts 0 NEbin g = Ok (maps, g1) /\
    w' = (g1, set_astro (PyIntArr counts) template eg).
Proof.
  unfold astroEvent_galaxy. intros H. cells H.
  inv_bind H. destruct a as [trials g1]. inv_bind H. inversion H; subst.
  exists g1. split; auto. eapply generate_once_inv; eauto.
Qed.

Lemma random_poisson_inv (lam : list R) (g : rng) (counts : list Z) (g' : rng) :
  random_poisson lam g = Ok (counts, g') ->
  Forall (fun c => (0 <= c)%Z) counts /\ length counts = length lam /\
  poisson_draws lam g = (counts, g').
Proof.
  unfold random_poisson. intros H.
  destruct (forallb (fun x => np.Rleb 0 x && np.Rleb x np.POISSON_LAM_MAX) lam);
    [| discriminate].
  inversion H as [H1]. pose proof (poisson_draws_nonneg lam g) as [Hn Hl].
  rewrite H1 in *. simpl in *. auto.
Qed.

(** C3. A map generated by [atmEvent] or by [astroEvent_galaxy] holds, in
    every energy bin, exactly the count drawn for that bin: the pixel values
    sum to it, and each pixel value is a non-negative integer. *)
Theorem generated_maps_hold_drawn_counts :
  (forall duration_year g eg maps w',
     atmEvent duration_year (g, eg) = Ok (maps, w') ->
     exists lam counts g1,
       atmEvent_lambda duration_year eg = Ok lam /\
       random_poisson lam g = Ok (counts, g1) /\
       length maps = NEbin /\
       forall i, (i < NEbin)%nat ->
         np.sum (nth i maps []) = nth i counts 0%Z /\
         Forall (fun v => (0 <= v)%Z) (nth i maps [])) /\
  (forall counts template g eg maps w',
     Forall (fun c => (0 <= c)%Z) counts ->
     astroEvent_galaxy (PyIntArr counts) template (g, eg) = Ok (maps, w') ->
     length maps = NEbin /\
     forall i, (i < NEbin)%nat ->
       np.sum (nth i maps []) = nth i counts 0%Z /\
       Forall (fun v => (0 <= v)%Z) (nth i maps [])).
Proof.
  split.
  - intros d g eg maps w' H.
    destruct (atmEvent_inv _ _ _ _ _ H) as (lam & counts & g1 & g2 & Hl & Hp & Hg & _).
    exists lam, counts, g1. repeat split; auto.
    + destruct (random_poisson_inv _ _ _ _ Hp) as (Hn & _).
      now destruct (generate_bins_counts _ _ _ _ _ _ _ Hn Hg).
    + destruct (random_poisson_inv _ _ _ _ Hp) as (Hn & _).
      destruct (generate_bins_counts _ _ _ _ _ _ _ Hn Hg) as (_ & Hk).
      now destruct (Hk i H0) as (Hs & _).
    + destruct (random_poisson_inv _ _ _ _ Hp) as (Hn & _).
      destruct (generate_bins_counts _ _ _ _ _ _ _ Hn Hg) as (_ & Hk).
      now destruct (Hk i H0) as (_ & Hs & _).
  - intros counts template g eg maps w' Hn H.
    destruct (astroEvent_galaxy_inv _ _ _ _ _ _ H) as (g1 & Hg & _).
    destruct (generate_bins_counts _ _ _ _ _ _ _ Hn Hg) as (Hlen & Hk).
    split; auto. intros i Hi. destruct (Hk i Hi) as (Hs & Hp & _). auto.
Qed.

(** *** computeSyntheticData, step by step *)

Lemma computeSyntheticData_steps (N_yr : R) (fromGalaxy : bool) (f_diff : R) (g : rng)
  (eg : EventGenerator) (r : synthetic_run) (maps : list (list Z)) :
  synthetic_steps N_yr fromGalaxy f_diff g eg r maps ->
  computeSyntheticData N_yr fromGalaxy f_diff false (g, eg) = Ok (maps, synthetic_final eg r).
Proof.
  intros (H1 & H2 & H3 & H4 & H5 & H6 & H7 & H8).
  unfold computeSyntheticData. rewrite H1. simpl. rewrite H2. simpl.
  rewrite H3. simpl. rewrite H4. simpl. rewrite H5. simpl.
  unfold synthetic_astro_lambda in *. simpl. rewrite H6. simpl.
  rewrite H7. simpl. rewrite H8. reflexivity.
Qed.

Lemma computeSyntheticData_inv (N_yr : R) (fromGalaxy : bool) (f_diff : R)
  (write_map : bool) (g : rng) (eg : EventGenerator) (maps : list (list Z)) (w' : world) :
  computeSyntheticData N_yr fromGalaxy f_diff write_map (g, eg) = Ok (maps, w') ->
  exists r, synthetic_steps N_yr fromGalaxy f_diff g eg r maps /\
            w' = synthetic_final eg r /\ write_map = false.
Proof.
  unfold computeSyntheticData. intros H.
  inv_bind H. destruct a as [fa ft]. inv_bind H.
  inv_bind H. destruct a0 as [Natm g1]. cells H.
  inv_bind H. destruct a0 as [trials g2]. inv_bind H.
  inv_bind H. destruct a1 as [density g3].
  inv_bind H. destruct a1 as [Nastro g4].
  inv_bind H. destruct a1 as [astro_map w5].
  inv_bind H. destruct write_map; [discriminate |]. inversion H; subst.
  pose proof (generate_once_inv _ _ _ _ _ _ _ E2 E3) as Hatm.
  destruct (astroEvent_galaxy_inv _ _ _ _ _ _ E6) as (g5 & Hg & Hw).
  exists (mkRun fa ft a Natm a0 density Nastro astro_map g1 g2 g3 g4 g5).
  unfold synthetic_steps, synthetic_final. simpl. repeat split; auto.
Qed.

(** *** Elementwise sums and products *)

Lemma add1_inv (a b r : list Z) :
  np.add1 a b = Ok r ->
  length r = length a /\ length a = length b /\
  np.sum r = (np.sum a + np.sum b)%Z /\
  (Forall (fun v => (0 <= v)%Z) a -> Forall (fun v => (0 <= v)%Z) b ->
   Forall (fun v => (0 <= v)%Z) r) /\
  forall p, nth p r 0%Z = (nth p a 0 + nth p b 0)%Z.
Proof.
  revert b r. induction a as [| x a IH]; intros [| y b] r H; simpl in H; try discriminate.
  - inversion H; subst. repeat split; auto. intros [| p]; reflexivity.
  - inv_bind H. inversion H; subst.
    destruct (IH _ _ E) as (Hl & Hab & Hs & Hn & Hp).
    unfold np.sum in *. simpl. repeat split.
    + now rewrite Hl.
    + now rewrite Hab.
    + lia.
    + intros Ha Hb. inversion Ha; inversion Hb; subst. constructor; [lia | auto].
    + intros [| p]; [reflexivity | apply Hp].
Qed.

Lemma add1_total (a b : list Z) :
  length a = length b -> exists r, np.add1 a b = Ok r.
Proof.
  revert b. induction a as [| x a IH]; intros [| y b] H; simpl in H; try discriminate.
  - eexists. reflexivity.
  - destruct (IH b) as [r Hr]; [lia |]. exists ((x + y)%Z :: r). simpl. now rewrite Hr.
Qed.

Lemma add2_inv (a b r : list (list Z)) :
  np.add2 a b = Ok r ->
  length r = length a /\
  forall i, (i < length a)%nat -> np.add1 (nth i a []) (nth i b []) = Ok (nth i r []).
Proof.
  revert b r. induction a as [| x a IH]; intros [| y b] r H; simpl in H; try discriminate.
  - inversion H; subst. split; [reflexivity | simpl; intros; lia].
  - inv_bind H. inv_bind H. inversion H; subst.
    destruct (IH _ _ E0) as (Hl & Hi). split; [simpl; now rewrite Hl |].
    intros [| i] Hlt; simpl in *; [assumption | apply Hi; lia].
Qed.

Lemma add2_total (a b : list (list Z)) :
  length a = length b ->
  (forall i, (i < length a)%nat -> length (nth i a []) = length (nth i b [])) ->
  exists r, np.add2 a b = Ok r.
Proof.
  revert b. induction a as [| x a IH]; intros [| y b] H Hrows; simpl in H; try discriminate.
  - eexists. reflexivity.
  - destruct (add1_total x y) as [r0 Hr0]; [apply (Hrows 0%nat); simpl; lia |].
    destruct (IH b) as [r Hr]; [lia | |].
    + intros i Hi. apply (Hrows (S i)). simpl. lia.
    + exists (r0 :: r). simpl. rewrite Hr0. simpl. now rewrite Hr.
Qed.

Lemma nth_map_in {A B : Type} (f : A -> B) (l : list A) (i : nat) (d : B) (d' : A) :
  (i < length l)%nat -> nth i (map f l) d = f (nth i l d').
Proof.
  revert i. induction l as [| x l IH]; intros [| i] H; simpl in *; try lia.
  - reflexivity.
  - apply IH. lia.
Qed.

Lemma zipWith_nth (a b : list R) (i : nat) :
  (i < length a)%nat -> (i < length b)%nat ->
  nth i (np.zipWith Rmult a b) 0 = nth i a 0 * nth i b 0.
Proof.
  revert b i. induction a as [| x a IH]; intros [| y b] i Ha Hb; simpl in *; try lia.
  destruct i as [| i]; [reflexivity | apply IH; lia].
Qed.

Lemma zipWith_length (a b : list R) :
  length a = length b -> length (np.zipWith Rmult a b) = length a.
Proof.
  revert b. induction a as [| x a IH]; intros [| y b] H; simpl in *; try lia.
  rewrite IH; lia.
Qed.

Lemma multiply_same_length (a b : list R) :
  length a = length b -> np.multiply a b = Ok (np.zipWith Rmult a b).
Proof.
  intros H. unfold np.multiply. apply Nat.eqb_eq in H. now rewrite H.
Qed.

Lemma mapM_pure {A B : Type} (f : A -> result B) (h : A -> B) (l : list A) :
  (forall x, In x l -> f x = Ok (h x)) -> mapM f l = Ok (map h l).
Proof.
  induction l as [| x l IH]; intros H; simpl.
  - reflexivity.
  - rewrite (H x (or_introl eq_refl)). simpl. rewrite IH; [reflexivity |].
    intros y Hy. apply H. now right.
Qed.

(** *** Poisson draws *)

Lemma nonneg_forallb (lam : list R) :
  Forall (fun x => 0 <= x <= np.POISSON_LAM_MAX) lam ->
  forallb (fun x => np.Rleb 0 x && np.Rleb x np.POISSON_LAM_MAX) lam = true.
Proof.
  induction 1 as [| x lam [Hx Hm] _ IH]; simpl; [reflexivity |].
  rewrite IH. unfold np.Rleb.
  destruct (Rle_dec 0 x); [| contradiction].
  destruct (Rle_dec x np.POISSON_LAM_MAX); [reflexivity | contradiction].
Qed.

Lemma random_poisson_total (lam : list R) (g : rng) :
  Forall (fun x => 0 <= x <= np.POISSON_LAM_MAX) lam ->
  random_poisson lam g = Ok (poisson_draws lam g).
Proof.
  intros H. unfold random_poisson. now rewrite nonneg_forallb.
Qed.

Lemma poisson_draws_zero (lam : list R) (g : rng) (i : nat) :
  poisson_zero -> nth i lam 0 = 0 -> nth i (fst (poisson_draws lam g)) 0%Z = 0%Z.
Proof.
  intros Hz. revert g i. induction lam as [| x lam IH]; intros g i Hi; simpl.
  - now destruct i.
  - pose proof (Hz g) as H0. specialize (IH (snd (poisson1 x g))).
    destruct (poisson1 x g) as [k g1] eqn:Ek. simpl in IH.
    destruct i as [| i]; simpl in Hi.
    + subst x. rewrite Ek in H0. simpl in H0. subst k.
      destruct (poisson_draws lam g1). reflexivity.
    + specialize (IH i Hi). destruct (poisson_draws lam g1). simpl in *. exact IH.
Qed.

(** *** The fractions of computeSyntheticData *)

Lemma fraction_bin_pure (eg : EventGenerator) (f_diff : R) (i : nat) :
  (i < length (nevts eg))%nat -> (i < length (Nastro_1yr_Aeffmax eg))%nat ->
  fraction_bin eg f_diff i
  = Ok (fraction_of (nth i (nevts eg) 0) (nth i (Nastro_1yr_Aeffmax eg) 0) f_diff).
Proof.
  intros H1 H2. unfold fraction_bin, fraction_of. rewrite !getitem_of_nat.
  destruct (nth_error (nevts eg) i) as [n |] eqn:En.
  2:{ apply nth_error_None in En. lia. }
  destruct (nth_error (Nastro_1yr_Aeffmax eg) i) as [a |] eqn:Ea.
  2:{ apply nth_error_None in Ea. lia. }
  rewrite (nth_error_nth _ _ _ En), (nth_error_nth _ _ _ Ea). cbn [bind].
  destruct (Req_dec_T n 0); cbn [bind]; [destruct (Req_dec_T a 0) |]; reflexivity.
Qed.

Lemma fractions_pure (eg : EventGenerator) (f_diff : R) :
  calibrated eg ->
  fractions eg f_diff = Ok (map fst (fractions_of eg f_diff), map snd (fractions_of eg f_diff)).
Proof.
  intros [H1 H2]. unfold fractions, fractions_of.
  erewrite mapM_pure; [reflexivity |].
  intros i Hi. apply in_seq in Hi. apply fraction_bin_pure; lia.
Qed.

Lemma fractions_of_nth (eg : EventGenerator) (f_diff : R) (i : nat) :
  (i < NEbin)%nat ->
  nth i (map fst (fractions_of eg f_diff)) 0
    = fst (fraction_of (nth i (nevts eg) 0) (nth i (Nastro_1yr_Aeffmax eg) 0) f_diff) /\
  nth i (map snd (fractions_of eg f_diff)) 0
    = snd (fraction_of (nth i (nevts eg) 0) (nth i (Nastro_1yr_Aeffmax eg) 0) f_diff).
Proof.
  intros Hi. unfold fractions_of.
  split; rewrite map_map;
    rewrite (nth_map_in _ _ _ _ 0%nat) by (rewrite length_seq; exact Hi);
    rewrite seq_nth by exact Hi; reflexivity.
Qed.

Lemma synthetic_atm_lambda_pure (eg : EventGenerator) (N_yr f_diff : R) :
  calibrated eg ->
  exists lam,
    synthetic_atm_lambda eg N_yr (map snd (fractions_of eg f_diff)) = Ok lam /\
    length lam = NEbin /\
    forall i, (i < NEbin)%nat ->
      nth i lam 0 = nth i (nevts eg) 0 * N_yr
                    * snd (fraction_of (nth i (nevts eg) 0)
                             (nth i (Nastro_1yr_Aeffmax eg) 0) f_diff).
Proof.
  intros [H1 H2]. unfold synthetic_atm_lambda.
  assert (Hlen : length (map (fun x => x * N_yr) (nevts eg))
                 = length (map snd (fractions_of eg f_diff))).
  { unfold fractions_of. rewrite !length_map, length_seq. exact H1. }
  rewrite (multiply_same_length _ _ Hlen). eexists. split; [reflexivity |].
  split.
  - rewrite zipWith_length by exact Hlen. now rewrite length_map.
  - intros i Hi. rewrite zipWith_nth.
    + destruct (fractions_of_nth eg f_diff i Hi) as [_ Hs]. rewrite Hs.
      rewrite (nth_map_in _ _ _ _ 0) by lia. reflexivity.
    + rewrite length_map. lia.
    + rewrite <- Hlen, length_map. lia.
Qed.

Lemma synthetic_astro_lambda_nth (eg : EventGenerator) (N_yr f_diff : R) (i : nat) :
  nth i (synthetic_astro_lambda eg N_yr f_diff) 0
  = nth i (Nastro_1yr_Aeffmax eg) 0 * N_yr * f_diff.
Proof.
  unfold synthetic_astro_lambda.
  destruct (Nat.lt_ge_cases i (length (Nastro_1yr_Aeffmax eg))) as [Hlt | Hge].
  - now rewrite (nth_map_in _ _ _ _ 0) by lia.
  - rewrite !nth_overflow; [lra | lia | rewrite length_map; lia].
Qed.

Lemma synthetic_steps_fractions (N_yr : R) (fromGalaxy : bool) (f_diff : R) (g : rng)
  (eg : EventGenerator) (r : synthetic_run) (maps : list (list Z)) :
  calibrated eg ->
  synthetic_steps N_yr fromGalaxy f_diff g eg r maps ->
  length (run_lambda_atm r) = NEbin /\
  forall i, (i < NEbin)%nat ->
    let fr := fraction_of (nth i (nevts eg) 0) (nth i (Nastro_1yr_Aeffmax eg) 0) f_diff in
    nth i (run_f_astro r) 0 = fst fr /\
    nth i (run_f_atm r) 0 = snd fr /\
    nth i (run_lambda_atm r) 0 = nth i (nevts eg) 0 * N_yr * snd fr.
Proof.
  intros Hcal (H1 & H2 & _).
  rewrite (fractions_pure eg f_diff Hcal) in H1. inversion H1 as [[Ha Ht]].
  destruct (synthetic_atm_lambda_pure eg N_yr f_diff Hcal) as (lam & Hl & Hlen & Hn).
  rewrite <- Ht in H2. rewrite Hl in H2. inversion H2; subst lam.
  split; [exact Hlen |].
  intros i Hi. destruct (fractions_of_nth eg f_diff i Hi) as [Hf Hs].
  cbv zeta. repeat split; auto.
Qed.

(** C10. In an energy bin whose one-year background count is not zero,
    [computeSyntheticData] takes the astrophysical fraction
    [Nastro_1yr_Aeffmax * f_diff / nevts], scales the atmospheric mean by one
    minus that fraction, so that the atmospheric and astrophysical Poisson
    means add up to [nevts * N_yr] whatever [f_diff] is; the returned map is
    the elementwise sum of the atmospheric and the astrophysical map. *)
Theorem synthetic_data_keeps_total_expectation (N_yr : R) (fromGalaxy : bool)
  (f_diff : R) (write_map : bool) (g : rng) (eg : EventGenerator)
  (maps : list (list Z)) (w' : world) :
  calibrated eg ->
  computeSyntheticData N_yr fromGalaxy f_diff write_map (g, eg) = Ok (maps, w') ->
  exists r,
    synthetic_steps N_yr fromGalaxy f_diff g eg r maps /\
    (forall i, (i < NEbin)%nat -> nth i (nevts eg) 0 <> 0 ->
       nth i (run_f_astro r) 0
         = nth i (Nastro_1yr_Aeffmax eg) 0 * f_diff / nth i (nevts eg) 0 /\
       nth i (run_f_atm r) 0 = 1 - nth i (run_f_astro r) 0 /\
       nth i (run_lambda_atm r) 0
         = nth i (nevts eg) 0 * N_yr * (1 - nth i (run_f_astro r) 0) /\
       nth i (run_lambda_atm r) 0 + nth i (synthetic_astro_lambda eg N_yr f_diff) 0
         = nth i (nevts eg) 0 * N_yr) /\
    (forall i p, (i < NEbin)%nat ->
       nth p (nth i maps []) 0%Z
         = (nth p (nth i (run_atm_map r) []) 0 + nth p (nth i (run_astro_map r) []) 0)%Z) /\
    (forall i, (i < NEbin)%nat ->
       np.sum (nth i maps []) = (nth i (run_Natm r) 0 + nth i (run_Nastro r) 0)%Z).
Proof.
  intros Hcal H.
  destruct (computeSyntheticData_inv _ _ _ _ _ _ _ _ H) as (r & Hsteps & _ & _).
  exists r. split; [exact Hsteps |].
  destruct (synthetic_steps_fractions _ _ _ _ _ _ _ Hcal Hsteps) as (_ & Hfr).
  destruct Hsteps as (_ & _ & H3 & H4 & _ & H6 & H7 & H8).
  destruct (random_poisson_inv _ _ _ _ H3) as (Hn3 & _).
  destruct (random_poisson_inv _ _ _ _ H6) as (Hn6 & _).
  destruct (generate_bins_counts _ _ _ _ _ _ _ Hn3 H4) as (Hlatm & Hatm).
  destruct (generate_bins_counts _ _ _ _ _ _ _ Hn6 H7) as (Hlast & Hast).
  destruct (add2_inv _ _ _ H8) as (Hlen & Hrows).
  split; [| split].
  - intros i Hi Hn. destruct (Hfr i Hi) as (Ha & Ht & Hl).
    unfold fraction_of in *.
    destruct (Req_dec_T (nth i (nevts eg) 0) 0) as [Heq | Hne]; [contradiction |].
    simpl in *. rewrite Ha, Ht, Hl, synthetic_astro_lambda_nth.
    repeat split; try reflexivity. field. exact Hne.
  - intros i p Hi. rewrite Hlatm in Hrows.
    destruct (add1_inv _ _ _ (Hrows i Hi)) as (_ & _ & _ & _ & Hp). apply Hp.
  - intros i Hi. rewrite Hlatm in Hrows.
    destruct (add1_inv _ _ _ (Hrows i Hi)) as (_ & _ & Hs & _).
    destruct (Hatm i Hi) as (Hsa & _). destruct (Hast i Hi) as (Hsb & _).
    simpl in Hsa, Hsb. rewrite Hs, Hsa, Hsb. reflexivity.
Qed.

(** *** Zero expected counts *)

Lemma holds_zero (m : list Z) : holds_count 0 m -> m = repeat 0%Z NPIXEL.
Proof.
  intros (Hs & Hn & Hl). rewrite <- Hl. now apply sum_zero_all_zero.
Qed.

Lemma atmEvent_steps (duration_year : R) (g : rng) (eg : EventGenerator)
  (lam : list R) (counts : list Z) (g1 g2 : rng) (maps : list (list Z)) :
  atmEvent_lambda duration_year eg = Ok lam ->
  random_poisson lam g = Ok (counts, g1) ->
  generate_bins atm_pixel counts 0 NEbin g1 = Ok (maps, g2) ->
  atmEvent duration_year (g, eg)
  = Ok (maps, (g2, set_atm_nevents_expected (PyIntArr counts) eg)).
Proof.
  intros H1 H2 H3. unfold atmEvent. rewrite H1. cbn [bind]. rewrite H2. cbn [bind].
  cbn [atm_nevents_expected set_atm_nevents_expected].
  rewrite (generate_once _ _ _ _ _ _ H3). reflexivity.
Qed.

Lemma astroEvent_galaxy_steps (counts : list Z) (template : list R) (g : rng)
  (eg : EventGenerator) (g1 : rng) (maps : list (list Z)) :
  generate_bins (fun _ => astro_pixel template) counts 0 NEbin g = Ok (maps, g1) ->
  astroEvent_galaxy (PyIntArr counts) template (g, eg)
  = Ok (maps, (g1, set_astro (PyIntArr counts) template eg)).
Proof.
  intros H. unfold astroEvent_galaxy.
  cbn [astro_nevents_expected astro_normalized_counts_map set_astro].
  rewrite (generate_once _ _ _ _ _ _ H). reflexivity.
Qed.

Lemma density_nu_total (fromGalaxy : bool) (g : rng) :
  (fromGalaxy = true -> where_negative analy_density = Ok tt) ->
  exists d g', density_nu fromGalaxy g = Ok (d, g').
Proof.
  intros H. unfold density_nu. destruct fromGalaxy.
  - rewrite (H eq_refl). cbn [bind]. eauto.
  - destruct (synfast g) as [d g1]. eauto.
Qed.

Lemma nth_nonneg (l : list R) (i : nat) : Forall (fun x => 0 <= x) l -> 0 <= nth i l 0.
Proof.
  intros H. destruct (Nat.lt_ge_cases i (length l)) as [Hlt | Hge].
  - rewrite Forall_forall in H. apply H. now apply nth_In.
  - rewrite nth_overflow by lia. lra.
Qed.

Lemma POISSON_LAM_MAX_pos : 0 < np.POISSON_LAM_MAX.
Proof. unfold np.POISSON_LAM_MAX. lra. Qed.

Lemma physical_atm_lambda (eg : EventGenerator) (N_yr f_diff : R) (i : nat) :
  physical eg N_yr f_diff -> (i < NEbin)%nat -> (i < length (nevts eg))%nat ->
  0 <= nth i (nevts eg) 0 * N_yr
       * snd (fraction_of (nth i (nevts eg) 0) (nth i (Nastro_1yr_Aeffmax eg) 0) f_diff)
    <= np.POISSON_LAM_MAX.
Proof.
  intros (HN & Hf & Hn & Ha & Hle & Hmax & _) Hi Hlen.
  pose proof (nth_nonneg _ i Hn) as Hn0. specialize (Hle i Hi).
  pose proof (nth_nonneg _ i Ha) as Ha0.
  assert (Hm : nth i (nevts eg) 0 * N_yr <= np.POISSON_LAM_MAX).
  { rewrite Forall_forall in Hmax. apply (Hmax (nth i (nevts eg) 0)). now apply nth_In. }
  pose proof POISSON_LAM_MAX_pos as Hp.
  unfold fraction_of.
  destruct (Req_dec_T (nth i (nevts eg) 0) 0) as [Heq | Hne].
  - destruct (Req_dec_T (nth i (Nastro_1yr_Aeffmax eg) 0) 0); simpl; rewrite Heq; lra.
  - simpl. specialize (Hle Hne).
    set (n := nth i (nevts eg) 0) in *. set (a := nth i (Nastro_1yr_Aeffmax eg) 0) in *.
    assert (Hpos : 0 < n) by lra.
    assert (Hfr : 0 <= 1 - a * f_diff / n <= 1).
    { assert (H0 : 0 <= a * f_diff / n).
      { apply Rmult_le_pos; [apply Rmult_le_pos; lra |]. left. now apply Rinv_0_lt_compat. }
      assert (H1 : a * f_diff / n <= 1).
      { apply (Rmult_le_reg_r n); [exact Hpos |]. unfold Rdiv.
        rewrite Rmult_assoc, Rinv_l by lra. lra. }
      lra. }
    assert (HnN : 0 <= n * N_yr) by (apply Rmult_le_pos; lra).
    split; [apply Rmult_le_pos; lra |]. nra.
Qed.

Lemma physical_astro_lambda (eg : EventGenerator) (N_yr f_diff : R) :
  physical eg N_yr f_diff ->
  Forall (fun x => 0 <= x <= np.POISSON_LAM_MAX) (synthetic_astro_lambda eg N_yr f_diff).
Proof.
  intros (HN & Hf & _ & Ha & _ & _ & Hmax). unfold synthetic_astro_lambda.
  apply Forall_map. rewrite Forall_forall in *. intros a Hin.
  specialize (Ha a Hin). specialize (Hmax a Hin). cbv beta in *.
  split; [apply Rmult_le_pos; [apply Rmult_le_pos |]; lra | exact Hmax].
Qed.

(** On physical inputs [computeSyntheticData] returns, and its run is the
    one that [synthetic_steps] describes. *)
Lemma computeSyntheticData_total (N_yr : R) (fromGalaxy : bool) (f_diff : R) (g : rng)
  (eg : EventGenerator) :
  pixels_in_range atm_pixel -> (forall t, pixels_in_range (fun _ => astro_pixel t)) ->
  calibrated eg -> physical eg N_yr f_diff ->
  (fromGalaxy = true -> where_negative analy_density = Ok tt) ->
  exists r maps, synthetic_steps N_yr fromGalaxy f_diff g eg r maps.
Proof.
  intros Hpa Hps Hcal Hphys Hw.
  destruct (synthetic_atm_lambda_pure eg N_yr f_diff Hcal) as (lam & Hl & Hlen & Hn).
  assert (Hlam : Forall (fun x => 0 <= x <= np.POISSON_LAM_MAX) lam).
  { apply Forall_nth. intros i d Hi. rewrite (nth_indep _ d 0) by exact Hi.
    rewrite Hn by lia.
    apply physical_atm_lambda; [exact Hphys | lia | destruct Hcal; lia]. }
  pose proof (random_poisson_total lam g Hlam) as Hp1.
  destruct (poisson_draws lam g) as [Natm g1] eqn:Ed1.
  destruct (random_poisson_inv _ _ _ _ Hp1) as (Hn1 & Hl1 & _).
  destruct (generate_bins_total atm_pixel Natm NEbin 0 g1 Hpa) as (atm_map & g2 & Hg1);
    [lia |].
  destruct (density_nu_total fromGalaxy g2 Hw) as (d & g3 & Hd).
  pose proof (random_poisson_total _ g3 (physical_astro_lambda _ _ _ Hphys)) as Hp2.
  destruct (poisson_draws (synthetic_astro_lambda eg N_yr f_diff) g3) as [Nastro g4] eqn:Ed2.
  destruct (random_poisson_inv _ _ _ _ Hp2) as (Hn2 & Hl2 & _).
  destruct (generate_bins_total (fun _ => astro_pixel d) Nastro NEbin 0 g4 (Hps d))
    as (astro_map & g5 & Hg2).
  { unfold synthetic_astro_lambda in Hl2. rewrite length_map in Hl2.
    destruct Hcal as [_ Hc]. lia. }
  destruct (generate_bins_counts _ _ _ _ _ _ _ Hn1 Hg1) as (Hla & Hka).
  destruct (generate_bins_counts _ _ _ _ _ _ _ Hn2 Hg2) as (Hlb & Hkb).
  destruct (add2_total atm_map astro_map) as [maps Hadd].
  { lia. }
  { intros i Hi. rewrite Hla in Hi.
    destruct (Hka i Hi) as (_ & _ & L1). destruct (Hkb i Hi) as (_ & _ & L2). lia. }
  exists (mkRun (map fst (fractions_of eg f_diff)) (map snd (fractions_of eg f_diff))
            lam Natm atm_map d Nastro astro_map g1 g2 g3 g4 g5), maps.
  unfold synthetic_steps. cbn [run_f_astro run_f_atm run_lambda_atm run_Natm run_atm_map
    run_density run_Nastro run_astro_map run_g1 run_g2 run_g3 run_g4 run_g5].
  repeat split; auto. now apply fractions_pure.
Qed.

(** Whenever a generator's call returns, a bin that was given the count
    zero has an all-zero map. *)
Lemma zero_count_zero_map (draw : nat -> rng -> nat * rng) (counts : list Z) (g : rng)
  (maps : list (list Z)) (g' : rng) (i : nat) :
  generate_bins draw counts 0 NEbin g = Ok (maps, g') ->
  (i < NEbin)%nat -> nth i counts 0%Z = 0%Z -> nth i maps [] = repeat 0%Z NPIXEL.
Proof.
  intros Hg Hi H0. destruct (generate_bins_placed _ _ _ _ _ _ _ Hg) as (_ & Hk).
  specialize (Hk i Hi). simpl in Hk. rewrite H0 in Hk. now apply holds_zero.
Qed.

(** C5. A bin whose expected count is zero gets an all-zero map and the
    zero raises nothing.  Whenever the call returns, that bin's map is
    all-zero: for [atmEvent] a bin whose Poisson mean is zero, for
    [astroEvent_galaxy] a bin whose count is zero, for
    [computeSyntheticData] a bin whose two Poisson means (atmospheric and
    astrophysical) are zero, which is the case when [N_yr] is zero and when
    the background count of the bin is zero together with its astrophysical
    count or with [f_diff].  And the call does return when every Poisson
    mean is one that [np.random.poisson] accepts (not negative, at most
    [np.POISSON_LAM_MAX]), the arrays have an entry for every bin, the
    sampled pixels are pixels of the map and [write_map] is off. *)
Theorem zero_expected_count_gives_zero_map :
  poisson_zero ->
  (forall duration_year g eg lam maps w',
     atmEvent_lambda duration_year eg = Ok lam ->
     atmEvent duration_year (g, eg) = Ok (maps, w') ->
     forall i, (i < NEbin)%nat -> nth i lam 0 = 0 -> nth i maps [] = repeat 0%Z NPIXEL) /\
  (forall counts template g eg maps w',
     astroEvent_galaxy (PyIntArr counts) template (g, eg) = Ok (maps, w') ->
     forall i, (i < NEbin)%nat -> nth i counts 0%Z = 0%Z ->
       nth i maps [] = repeat 0%Z NPIXEL) /\
  (forall N_yr fromGalaxy f_diff write_map g eg maps w',
     calibrated eg ->
     computeSyntheticData N_yr fromGalaxy f_diff write_map (g, eg) = Ok (maps, w') ->
     exists r,
       synthetic_steps N_yr fromGalaxy f_diff g eg r maps /\
       forall i, (i < NEbin)%nat ->
         (nth i (run_lambda_atm r) 0 = 0 /\
          nth i (synthetic_astro_lambda eg N_yr f_diff) 0 = 0) \/
         N_yr = 0 \/
         (nth i (nevts eg) 0 = 0 /\
          (nth i (Nastro_1yr_Aeffmax eg) 0 = 0 \/ f_diff = 0)) ->
         nth i maps [] = repeat 0%Z NPIXEL) /\
  (pixels_in_range atm_pixel ->
   forall duration_year g eg lam,
     atmEvent_lambda duration_year eg = Ok lam ->
     Forall (fun x => 0 <= x <= np.POISSON_LAM_MAX) lam -> (NEbin <= length lam)%nat ->
     exists maps w', atmEvent duration_year (g, eg) = Ok (maps, w')) /\
  (forall counts template g eg,
     pixels_in_range (fun _ => astro_pixel template) -> (NEbin <= length counts)%nat ->
     exists maps w',
       astroEvent_galaxy (PyIntArr counts) template (g, eg) = Ok (maps, w')) /\
  (pixels_in_range atm_pixel -> (forall t, pixels_in_range (fun _ => astro_pixel t)) ->
   forall N_yr fromGalaxy f_diff g eg,
     calibrated eg -> physical eg N_yr f_diff ->
     (fromGalaxy = true -> where_negative analy_density = Ok tt) ->
     exists maps w',
       computeSyntheticData N_yr fromGalaxy f_diff false (g, eg) = Ok (maps, w')).
Proof.
  intros Hz. repeat apply conj.
  - intros d g eg lam maps w' Hl H i Hi H0.
    destruct (atmEvent_inv _ _ _ _ _ H) as (lam' & counts & g1 & g2 & Hl' & Hp & Hg & _).
    rewrite Hl in Hl'. inversion Hl'; subst lam'.
    destruct (random_poisson_inv _ _ _ _ Hp) as (_ & _ & Hd).
    pose proof (poisson_draws_zero lam g i Hz H0) as Hq. rewrite Hd in Hq.
    exact (zero_count_zero_map _ _ _ _ _ _ Hg Hi Hq).
  - intros counts template g eg maps w' H i Hi H0.
    destruct (astroEvent_galaxy_inv _ _ _ _ _ _ H) as (g1 & Hg & _).
    exact (zero_count_zero_map _ _ _ _ _ _ Hg Hi H0).
  - intros N_yr fromGalaxy f_diff write_map g eg maps w' Hcal H.
    destruct (computeSyntheticData_inv _ _ _ _ _ _ _ _ H) as (r & Hsteps & _ & _).
    exists r. split; [exact Hsteps |]. intros i Hi Hzero.
    destruct (synthetic_steps_fractions _ _ _ _ _ _ _ Hcal Hsteps) as (_ & Hfr).
    destruct (Hfr i Hi) as (_ & _ & Hlam). cbv zeta in Hlam.
    assert (Hmeans : nth i (run_lambda_atm r) 0 = 0 /\
                     nth i (synthetic_astro_lambda eg N_yr f_diff) 0 = 0).
    { rewrite synthetic_astro_lambda_nth.
      destruct Hzero as [[Ha Hb] | [HN | [Hn Hs]]].
      - rewrite synthetic_astro_lambda_nth in Hb. auto.
      - rewrite Hlam, HN. split; ring.
      - rewrite Hlam, Hn. split; [ring |]. destruct Hs as [-> | ->]; ring. }
    destruct Hmeans as [Hma Hmb].
    destruct Hsteps as (_ & _ & H3 & H4 & _ & H6 & H7 & H8).
    destruct (random_poisson_inv _ _ _ _ H3) as (_ & _ & Hd3).
    destruct (random_poisson_inv _ _ _ _ H6) as (_ & _ & Hd6).
    assert (Za : nth i (run_Natm r) 0%Z = 0%Z).
    { pose proof (poisson_draws_zero (run_lambda_atm r) g i Hz Hma) as Hq.
      now rewrite Hd3 in Hq. }
    assert (Zb : nth i (run_Nastro r) 0%Z = 0%Z).
    { pose proof (poisson_draws_zero (synthetic_astro_lambda eg N_yr f_diff) (run_g3 r) i
                    Hz Hmb) as Hq.
      now rewrite Hd6 in Hq. }
    pose proof (zero_count_zero_map _ _ _ _ _ _ H4 Hi Za) as Ma.
    pose proof (zero_count_zero_map _ _ _ _ _ _ H7 Hi Zb) as Mb.
    destruct (generate_bins_placed _ _ _ _ _ _ _ H4) as (Hlatm & _).
    destruct (add2_inv _ _ _ H8) as (_ & Hrows). rewrite Hlatm in Hrows.
    destruct (add1_inv _ _ _ (Hrows i Hi)) as (Hlr & _ & Hs & Hnn & _).
    rewrite Ma, Mb in *. destruct zeros_hold_zero as (Z0 & Zn & Zl).
    apply holds_zero. unfold holds_count. repeat split.
    + rewrite Hs, Z0. reflexivity.
    + auto.
    + congruence.
  - intros Hpa d g eg lam Hl Hlam Hlen.
    pose proof (random_poisson_total lam g Hlam) as Hp.
    destruct (poisson_draws lam g) as [counts g1] eqn:Ed.
    destruct (random_poisson_inv _ _ _ _ Hp) as (_ & Hlc & _).
    destruct (generate_bins_total atm_pixel counts NEbin 0 g1 Hpa) as (maps & g2 & Hg);
      [lia |].
    exists maps, (g2, set_atm_nevents_expected (PyIntArr counts) eg).
    now apply (atmEvent_steps d g eg lam counts g1 g2).
  - intros counts template g eg Hps Hlen.
    destruct (generate_bins_total (fun _ => astro_pixel template) counts NEbin 0 g Hps)
      as (maps & g1 & Hg); [lia |].
    exists maps, (g1, set_astro (PyIntArr counts) template eg).
    now apply astroEvent_galaxy_steps.
  - intros Hpa Hps N_yr fromGalaxy f_diff g eg Hcal Hphys Hw.
    destruct (computeSyntheticData_total N_yr fromGalaxy f_diff g eg Hpa Hps Hcal Hphys Hw)
      as (r & maps & Hsteps).
    exists maps, (synthetic_final eg r). now apply computeSyntheticData_steps.
Qed.

(** *** The fit *)

Lemma lnL_total (f : list R) (w_data : list (list R)) (Ncount : list Z)
  (lmin Ebinmin Ebinmax : nat) :
  Forall (fun x => 0 <= x <= 1) f ->
  exists l, lnL f w_data Ncount lmin Ebinmin Ebinmax = Ok l.
Proof.
  intros H. unfold lnL.
  replace (forallb (fun x => np.Rleb 0 x && np.Rleb x 1) f) with true; [eauto |].
  symmetry. apply forallb_forall. intros x Hx.
  rewrite Forall_forall in H. specialize (H x Hx). unfold np.Rleb.
  destruct (Rle_dec 0 x); [| lra]. destruct (Rle_dec x 1); [reflexivity | lra].
Qed.

Lemma zeros_in_bounds (n : nat) : Forall (fun x => 0 <= x <= 1) (repeat 0 n).
Proof.
  apply Forall_forall. intros x Hx. apply repeat_spec in Hx. subst. lra.
Qed.

(** C2. The fit returns, next to the best-fit fractions, the test statistic
    2 * (lnL at the best fit - lnL at the all-zero fraction vector). *)
Theorem minimize__lnL_test_statistic (w_data : list (list R)) (Ncount : list Z)
  (lmin Ebinmin Ebinmax : nat) (g : rng) :
  bounded_optimizer ->
  exists best TS g' l1 l0,
    minimize__lnL w_data Ncount lmin Ebinmin Ebinmax g = Ok ((best, TS), g') /\
    lnL best w_data Ncount lmin Ebinmin Ebinmax = Ok l1 /\
    lnL (repeat 0 (Ebinmax - Ebinmin)) w_data Ncount lmin Ebinmin Ebinmax = Ok l0 /\
    TS = 2 * (l1 - l0).
Proof.
  intros Hb. unfold minimize__lnL.
  pose proof (Hb (fun f => l <- lnL f w_data Ncount lmin Ebinmin Ebinmax ;; Ok (- l))
                 (Ebinmax - Ebinmin)%nat g) as Hbest.
  destruct (optimizer _ (Ebinmax - Ebinmin)%nat g) as [best g1]. simpl in Hbest.
  destruct (lnL_total best w_data Ncount lmin Ebinmin Ebinmax Hbest) as [l1 H1].
  destruct (lnL_total (repeat 0 (Ebinmax - Ebinmin)) w_data Ncount lmin Ebinmin Ebinmax
              (zeros_in_bounds _)) as [l0 H0].
  exists best, (2 * (l1 - l0)), g1, l1, l0.
  rewrite H1, H0. cbn [bind]. auto.
Qed.

(** *** The generators' cells *)

(** [computeSyntheticData] overwrites the generators' cells before it reads
    them: its result does not depend on what they held. *)
Lemma computeSyntheticData_ignores_cells (N_yr : R) (fromGalaxy : bool) (f_diff : R)
  (write_map : bool) (g : rng) (nevts0 Nastro0 : list R)
  (a1 b1 : pyval) (m1 : list R) (a2 b2 : pyval) (m2 : list R) :
  computeSyntheticData N_yr fromGalaxy f_diff write_map (g, mkEG nevts0 Nastro0 a1 b1 m1)
  = computeSyntheticData N_yr fromGalaxy f_diff write_map (g, mkEG nevts0 Nastro0 a2 b2 m2).
Proof.
  unfold computeSyntheticData, fractions, fraction_bin, synthetic_atm_lambda,
    synthetic_astro_lambda, astroEvent_galaxy, set_atm_nevents_expected, set_astro.
  cbn [nevts Nastro_1yr_Aeffmax atm_nevents_expected astro_nevents_expected
       astro_normalized_counts_map].
  reflexivity.
Qed.

(** [atmEvent] does read a cell that earlier calls wrote. *)
Lemma atmEvent_lambda_after (duration_year : R) (counts : list Z) (eg : EventGenerator) :
  atmEvent_lambda duration_year (set_atm_nevents_expected (PyIntArr counts) eg)
  = Ok (map (fun k => IZR k * duration_year) counts).
Proof. reflexivity. Qed.

(** *** The seeded trials of the tests *)


(** ** Further properties of the generator *)

(** *** Histograms *)

Lemma filter_length_split {A : Type} (p q r : A -> bool) (l : list A) :
  (forall x, r x = p x || q x) -> (forall x, p x && q x = false) ->
  length (filter r l) = (length (filter p l) + length (filter q l))%nat.
Proof.
  intros Hr Hd. induction l as [| a l IH]; simpl; [reflexivity |].
  rewrite Hr. specialize (Hd a).
  destruct (p a), (q a); simpl in *; try discriminate; rewrite IH; lia.
Qed.

Lemma increasing_last (tl : list R) (lo : R) :
  np.increasing (lo :: tl) = true -> lo <= last (lo :: tl) 0.
Proof.
  revert lo. induction tl as [| hi rest IH]; intros lo H.
  - simpl. lra.
  - change (np.increasing (lo :: hi :: rest))
      with (np.Rleb lo hi && np.increasing (hi :: rest)) in H.
    apply andb_true_iff in H. destruct H as [H1 H2].
    change (last (lo :: hi :: rest) 0) with (last (hi :: rest) 0).
    specialize (IH hi H2). unfold np.Rleb in H1.
    destruct (Rle_dec lo hi); [lra | discriminate].
Qed.

(** The counts of [np.histogram] add up to the number of values between
    the first and the last edge, both included. *)
Lemma hist_counts_sum (rest : list R) (lo hi : R) (x : list R) :
  np.increasing (lo :: hi :: rest) = true ->
  np.sum (np.hist_counts (lo :: hi :: rest) x)
  = Z.of_nat (length (filter (fun v => np.Rleb lo v && np.Rleb v (last (hi :: rest) 0)) x)).
Proof.
  revert lo hi. induction rest as [| h2 r IH]; intros lo hi Hinc.
  - simpl. rewrite Z.add_0_r. do 2 f_equal. apply filter_ext. intro v.
    unfold np.in_bin, np.Rleb, np.Rltb.
    destruct (Rle_dec lo v), (Rlt_dec v hi), (Rle_dec v hi); simpl; try reflexivity;
      exfalso; lra.
  - change (np.increasing (lo :: hi :: h2 :: r))
      with (np.Rleb lo hi && np.increasing (hi :: h2 :: r)) in Hinc.
    apply andb_true_iff in Hinc. destruct Hinc as [H1 H2].
    change (np.hist_counts (lo :: hi :: h2 :: r) x)
      with (Z.of_nat (length (filter (np.in_bin lo hi false) x))
            :: np.hist_counts (hi :: h2 :: r) x).
    change (np.sum (?a :: ?l)) with (a + np.sum l)%Z.
    rewrite (IH hi h2 H2), <- Nat2Z.inj_add. f_equal. symmetry.
    change (last (hi :: h2 :: r) 0) with (last (h2 :: r) 0).
    pose proof (increasing_last _ _ H2) as Hl.
    change (last (hi :: h2 :: r) 0) with (last (h2 :: r) 0) in Hl.
    unfold np.Rleb in H1. destruct (Rle_dec lo hi) as [Hlh |]; [| discriminate].
    apply filter_length_split; intro v; unfold np.in_bin, np.Rleb, np.Rltb;
      destruct (Rle_dec lo v), (Rlt_dec v hi), (Rle_dec hi v),
        (Rle_dec v (last (h2 :: r) 0)); simpl; try reflexivity; exfalso; lra.
Qed.

Lemma hist_counts_shape (edges : list R) (x : list R) :
  length (np.hist_counts edges x) = (length edges - 1)%nat /\
  Forall (fun c => (0 <= c)%Z) (np.hist_counts edges x).
Proof.
  induction edges as [| lo tl IH]; [simpl; auto |].
  destruct tl as [| hi rest]; [simpl; auto |].
  change (np.hist_counts (lo :: hi :: rest) x)
    with (Z.of_nat (length (filter (np.in_bin lo hi
                                      (match rest with [] => true | _ => false end)) x))
          :: np.hist_counts (hi :: rest) x).
  destruct IH as [IH1 IH2]. split.
  - simpl length in *. lia.
  - constructor; [lia | exact IH2].
Qed.

Lemma ln_10_pos : 0 < ln 10.
Proof. rewrite <- ln_1. apply ln_increasing; lra. Qed.

(** Over the reals the energies of [randPowerLaw] lie between the bounds;
    within float64 they need not ([randPowerLaw_f64_underflow]). *)
Lemma randPowerLaw_energies (alpha : R) (Ntotal : nat) (emin emax : R) (g : rng) :
  uniform01 -> 0 < emin <= emax ->
  length (fst (randPowerLaw alpha Ntotal emin emax g)) = Ntotal /\
  Forall (fun e => emin <= e <= emax) (fst (randPowerLaw alpha Ntotal emin emax g)).
Proof.
  intros Hu Hb. unfold randPowerLaw.
  pose proof (random_rand_length Ntotal g) as Hlen.
  pose proof (random_rand_range Ntotal g Hu) as Hr.
  destruct (Req_dec_T alpha (-1)) as [Ha | Ha];
    destruct (random_rand Ntotal g) as [u g']; simpl in *;
    (split; [now rewrite length_map |]);
    apply Forall_map; (eapply Forall_impl; [| exact Hr]); intros x Hx.
  - now apply loguniform_range.
  - apply inverse_cdf_range; auto. lra.
Qed.

Lemma filter_all {A : Type} (p : A -> bool) (l : list A) :
  Forall (fun x => p x = true) l -> filter p l = l.
Proof.
  induction 1 as [| a l Ha _ IH]; simpl; [reflexivity |]. now rewrite Ha, IH.
Qed.

(** X5. On a partition with increasing edges the binning of
    [astroEvent_galaxy_powerlaw] returns one non-negative count per bin,
    and the counts add up to the number of energies whose [log10] lies
    between the first and the last edge, both included: an energy outside
    the edges is in no bin, and the sum is at most [Ntotal]. *)
Theorem powerlaw_histogram_counts_energies_inside (Ntotal : nat) (alpha emin emax : R)
  (g : rng) :
  (2 <= length map_logE_edge)%nat -> np.increasing map_logE_edge = true ->
  exists counts g',
    powerlaw_intrinsicCounts Ntotal alpha emin emax g
      = Ok (PyPair (PyIntArr counts) (PyFloatArr map_logE_edge), g') /\
    length counts = (length map_logE_edge - 1)%nat /\
    Forall (fun c => (0 <= c)%Z) counts /\
    np.sum counts
    = Z.of_nat (length (filter (fun v => np.Rleb (nth 0 map_logE_edge 0) v
                                         && np.Rleb v (last map_logE_edge 0))
                          (map np.log10 (fst (randPowerLaw alpha Ntotal emin emax g))))) /\
    (np.sum counts <= Z.of_nat Ntotal)%Z.
Proof.
  intros Hlen Hinc.
  assert (Hn : length (fst (randPowerLaw alpha Ntotal emin emax g)) = Ntotal).
  { unfold randPowerLaw. pose proof (random_rand_length Ntotal g) as Hl.
    destruct (Req_dec_T alpha (-1)); destruct (random_rand Ntotal g) as [u g'];
      cbn [fst] in *; now rewrite length_map. }
  unfold powerlaw_intrinsicCounts.
  destruct (randPowerLaw alpha Ntotal emin emax g) as [energy g1]. cbn [fst] in *.
  unfold np.histogram. rewrite Hinc. cbn [bind].
  exists (np.hist_counts map_logE_edge (map np.log10 energy)), g1.
  split; [reflexivity |].
  destruct (hist_counts_shape map_logE_edge (map np.log10 energy)) as [Hs1 Hs2].
  split; [exact Hs1 |]. split; [exact Hs2 |].
  destruct map_logE_edge as [| lo [| hi rest]]; [simpl in Hlen; lia | simpl in Hlen; lia |].
  rewrite (hist_counts_sum rest lo hi _ Hinc).
  change (last (lo :: hi :: rest) 0) with (last (hi :: rest) 0). cbn [nth].
  split; [reflexivity |].
  apply Nat2Z.inj_le. rewrite <- Hn, <- (length_map np.log10 energy).
  apply filter_length_le.
Qed.

(** *** Signal fractions at the ends of their range *)

Lemma add1_zeros (a r : list Z) (n : nat) :
  np.add1 a (repeat 0%Z n) = Ok r -> r = a.
Proof.
  intros H. destruct (add1_inv _ _ _ H) as (Hl & _ & _ & _ & Hn).
  apply nth_ext with (d := 0%Z) (d' := 0%Z); [exact Hl |].
  intros p _. rewrite Hn.
  replace (nth p (repeat 0%Z n) 0%Z) with 0%Z; [lia |].
  symmetry. destruct (Nat.lt_ge_cases p n) as [Hp | Hp].
  - now apply nth_repeat_lt.
  - apply nth_overflow. now rewrite repeat_length.
Qed.

(** X6. Without injected signal ([f_diff = 0]) a run of
    [computeSyntheticData] is pure background: the atmospheric means are
    [nevts * N_yr], no astrophysical event is drawn, the astrophysical maps
    are all-zero and the returned map is the atmospheric one. *)
Theorem no_signal_gives_background_only (N_yr : R) (fromGalaxy write_map : bool)
  (g : rng) (eg : EventGenerator) (maps : list (list Z)) (w' : world) :
  poisson_zero -> calibrated eg ->
  computeSyntheticData N_yr fromGalaxy 0 write_map (g, eg) = Ok (maps, w') ->
  exists r,
    synthetic_steps N_yr fromGalaxy 0 g eg r maps /\
    run_lambda_atm r = map (fun x => x * N_yr) (nevts eg) /\
    run_Nastro r = repeat 0%Z NEbin /\
    run_astro_map r = repeat (repeat 0%Z NPIXEL) NEbin /\
    maps = run_atm_map r.
Proof.
  intros Hz Hcal H.
  destruct (computeSyntheticData_inv _ _ _ _ _ _ _ _ H) as (r & Hsteps & _ & _).
  exists r. split; [exact Hsteps |].
  destruct (synthetic_steps_fractions _ _ _ _ _ _ _ Hcal Hsteps) as (Hlen & Hfr).
  destruct Hsteps as (_ & _ & H3 & H4 & _ & H6 & H7 & H8).
  destruct (random_poisson_inv _ _ _ _ H6) as (_ & Hl6 & Hd6).
  destruct Hcal as [Hc1 Hc2].
  assert (Hast : run_Nastro r = repeat 0%Z NEbin).
  { apply nth_ext with (d := 0%Z) (d' := 0%Z).
    - rewrite Hl6, repeat_length. unfold synthetic_astro_lambda. now rewrite length_map.
    - intros i Hi.
      pose proof (poisson_draws_zero (synthetic_astro_lambda eg N_yr 0) (run_g3 r) i Hz)
        as Hq.
      rewrite Hd6 in Hq. simpl in Hq. rewrite Hq.
      + symmetry. apply nth_repeat_lt. rewrite Hl6 in Hi.
        unfold synthetic_astro_lambda in Hi. rewrite length_map in Hi. lia.
      + rewrite synthetic_astro_lambda_nth. lra. }
  destruct (generate_bins_placed _ _ _ _ _ _ _ H4) as (Hlatm & _).
  destruct (generate_bins_placed _ _ _ _ _ _ _ H7) as (Hlast & _).
  assert (Hmap : run_astro_map r = repeat (repeat 0%Z NPIXEL) NEbin).
  { apply nth_ext with (d := []) (d' := []).
    - now rewrite repeat_length.
    - intros i Hi. rewrite Hlast in Hi. rewrite nth_repeat_lt by exact Hi.
      apply (zero_count_zero_map _ _ _ _ _ _ H7 Hi).
      rewrite Hast. now apply nth_repeat_lt. }
  split; [| split; [exact Hast | split; [exact Hmap |]]].
  - apply nth_ext with (d := 0) (d' := 0).
    + rewrite length_map. lia.
    + intros i Hi. rewrite Hlen in Hi. destruct (Hfr i Hi) as (_ & _ & Hl).
      cbv zeta in Hl. rewrite Hl. rewrite (nth_map_in _ _ _ _ 0) by lia.
      unfold fraction_of.
      destruct (Req_dec_T (nth i (nevts eg) 0) 0) as [E | E].
      * destruct (Req_dec_T (nth i (Nastro_1yr_Aeffmax eg) 0) 0); simpl; rewrite E; lra.
      * simpl. unfold Rdiv. ring.
  - destruct (add2_inv _ _ _ H8) as (Hlr & Hrows).
    apply nth_ext with (d := []) (d' := []); [exact Hlr |].
    intros i Hi. rewrite Hlr in Hi. specialize (Hrows i Hi).
    rewrite Hmap in Hrows. rewrite Hlatm in Hi. rewrite nth_repeat_lt in Hrows by exact Hi.
    now apply add1_zeros in Hrows.
Qed.

Lemma forallb_nth_false (lam : list R) (i : nat) :
  (i < length lam)%nat -> nth i lam 0 < 0 ->
  forallb (fun x => np.Rleb 0 x && np.Rleb x np.POISSON_LAM_MAX) lam = false.
Proof.
  revert i. induction lam as [| x lam IH]; intros i Hi Hn; [simpl in Hi; lia |].
  simpl. destruct i as [| i]; simpl in Hn.
  - unfold np.Rleb. destruct (Rle_dec 0 x); [exfalso; lra | reflexivity].
  - rewrite (IH i); [apply andb_false_r | simpl in Hi; lia | exact Hn].
Qed.

(** X7. When the injected signal exceeds the background of some bin
    ([Nastro_1yr_Aeffmax[i] * f_diff > nevts[i] > 0], so that
    [f_astro[i] > 1]) and [N_yr] is positive, the atmospheric mean of that
    bin is negative and [computeSyntheticData] raises [ValueError] in
    [np.random.poisson], whatever the other arguments are. *)
Theorem excess_signal_raises_ValueError (N_yr : R) (fromGalaxy : bool) (f_diff : R)
  (write_map : bool) (g : rng) (eg : EventGenerator) (i : nat) :
  calibrated eg -> (i < NEbin)%nat -> 0 < N_yr ->
  0 < nth i (nevts eg) 0 < nth i (Nastro_1yr_Aeffmax eg) 0 * f_diff ->
  computeSyntheticData N_yr fromGalaxy f_diff write_map (g, eg) = Raise ValueError.
Proof.
  intros Hcal Hi HN [Hn Hex].
  unfold computeSyntheticData. rewrite (fractions_pure eg f_diff Hcal). cbn [bind].
  destruct (synthetic_atm_lambda_pure eg N_yr f_diff Hcal) as (lam & Hl & Hlen & Hnth).
  rewrite Hl. cbn [bind]. unfold random_poisson.
  rewrite (forallb_nth_false lam i); [reflexivity | lia |].
  rewrite (Hnth i Hi). unfold fraction_of.
  destruct (Req_dec_T (nth i (nevts eg) 0) 0) as [E | E]; [exfalso; lra |].
  simpl snd.
  replace (nth i (nevts eg) 0 * N_yr
           * (1 - nth i (Nastro_1yr_Aeffmax eg) 0 * f_diff / nth i (nevts eg) 0))
    with (N_yr * (nth i (nevts eg) 0 - nth i (Nastro_1yr_Aeffmax eg) 0 * f_diff))
    by (field; exact E).
  nra.
Qed.

(** *** Repeated calls of atmEvent *)

(** X8. Once the atmospheric generator's cell holds the count zero for a
    bin, every later call of [atmEvent] that returns gives that bin an
    all-zero map and leaves the count zero in the cell again: a bin in
    which one call drew no event stays empty in all later calls, whatever
    their duration. *)
Theorem atmEvent_empty_bin_stays_empty (duration_year : R) (g : rng)
  (eg : EventGenerator) (counts : list Z) (maps : list (list Z)) (g' : rng)
  (eg' : EventGenerator) (i : nat) :
  poisson_zero -> (i < NEbin)%nat ->
  atm_nevents_expected eg = PyIntArr counts -> nth i counts 0%Z = 0%Z ->
  atmEvent duration_year (g, eg) = Ok (maps, (g', eg')) ->
  nth i maps [] = repeat 0%Z NPIXEL /\
  exists counts',
    atm_nevents_expected eg' = PyIntArr counts' /\ nth i counts' 0%Z = 0%Z.
Proof.
  intros Hz Hi Hcell H0 H.
  destruct (atmEvent_inv _ _ _ _ _ H) as (lam & counts' & g1 & g2 & Hl & Hp & Hg & Hw).
  unfold atmEvent_lambda in Hl. rewrite Hcell in Hl. simpl in Hl.
  inversion Hl; subst lam. clear Hl.
  destruct (random_poisson_inv _ _ _ _ Hp) as (_ & _ & Hd).
  assert (Hlam : nth i (map (fun k => IZR k * duration_year) counts) 0 = 0).
  { destruct (Nat.lt_ge_cases i (length counts)) as [Hlt | Hge].
    - rewrite (nth_map_in _ _ _ _ 0%Z) by exact Hlt. rewrite H0. lra.
    - apply nth_overflow. now rewrite length_map. }
  pose proof (poisson_draws_zero _ g i Hz Hlam) as Hq. rewrite Hd in Hq. simpl in Hq.
  split.
  - exact (zero_count_zero_map _ _ _ _ _ _ Hg Hi Hq).
  - exists counts'. inversion Hw; subst. split; [reflexivity | exact Hq].
Qed.

(** *** The template of the non-galaxy signal *)

Lemma sumR_scale (l : list R) (s : R) : np.sumR (map (fun x => x / s) l) = np.sumR l / s.
Proof. induction l as [| x l IH]; simpl; [lra | rewrite IH; lra]. Qed.

Lemma sumR_exp_pos (d : list R) : d <> [] -> 0 < np.sumR (map exp d).
Proof.
  induction d as [| y d IH]; [contradiction |]. intros _. simpl.
  pose proof (exp_pos y). destruct d as [| z d]; [simpl; lra |].
  assert (0 < np.sumR (map exp (z :: d))) by (apply IH; discriminate). lra.
Qed.

(** X9. Without a galaxy sample ([fromGalaxy] off) the template of the
    astrophysical events is a probability map: [exp] of the synthesised
    field divided by its sum never raises, has one positive entry per pixel
    of the field, and the entries add up to one. *)
Theorem density_nu_synfast_is_normalised (g : rng) :
  exists d g',
    density_nu false g = Ok (d, g') /\
    g' = snd (synfast g) /\ length d = length (fst (synfast g)) /\
    Forall (fun x => 0 < x) d /\ (d <> [] -> np.sumR d = 1).
Proof.
  unfold density_nu. destruct (synfast g) as [f g1]. cbn [fst snd].
  exists (map (fun x => x / np.sumR (map exp f)) (map exp f)), g1.
  split; [reflexivity |]. split; [reflexivity |].
  split; [now rewrite !length_map |].
  destruct f as [| y f].
  - split; [constructor | intros H; now contradiction H].
  - assert (Hpos : 0 < np.sumR (map exp (y :: f))) by (apply sumR_exp_pos; discriminate).
    split.
    + apply Forall_map, Forall_map, Forall_forall. intros x _.
      pose proof (exp_pos x). now apply Rdiv_lt_0_compat.
    + intros _. rewrite sumR_scale. field. lra.
Qed.

End nuXgal.

(** ** The effective-area lookup *)

Lemma searchsorted_le_length (a : list R) (v : R) :
  (np.searchsorted a v <= length a)%nat.
Proof. unfold np.searchsorted. apply filter_length_le. Qed.

Lemma searchsorted_all_below (a : list R) (v : R) :
  Forall (fun x => x < v) a -> np.searchsorted a v = length a.
Proof.
  unfold np.searchsorted. induction 1 as [| x a Hx _ IH]; simpl; [reflexivity |].
  unfold np.Rltb at 1. destruct (Rlt_dec x v); [simpl; now rewrite IH | contradiction].
Qed.

Lemma searchsorted_none_below (a : list R) (v : R) :
  Forall (fun x => v <= x) a -> np.searchsorted a v = 0%nat.
Proof.
  unfold np.searchsorted. induction 1 as [| x a Hx _ IH]; simpl; [reflexivity |].
  unfold np.Rltb at 1. destruct (Rlt_dec x v); [lra | exact IH].
Qed.

(** On a sorted array the index splits it: the entries before it are below
    [v], the entries from it on are not. *)
Lemma searchsorted_sorted (a : list R) (v : R) :
  StronglySorted Rle a ->
  (forall j, (j < np.searchsorted a v)%nat -> nth j a 0 < v) /\
  (forall j, (np.searchsorted a v <= j < length a)%nat -> v <= nth j a 0).
Proof.
  induction 1 as [| x a Hs IH Hx].
  - split; intros j Hj; unfold np.searchsorted in Hj; simpl in Hj; lia.
  - destruct IH as [IH1 IH2]. destruct (Rlt_dec x v) as [Hlt | Hge].
    + assert (E : np.searchsorted (x :: a) v = S (np.searchsorted a v)).
      { unfold np.searchsorted. simpl. unfold np.Rltb at 1.
        destruct (Rlt_dec x v); [reflexivity | contradiction]. }
      rewrite E. split; intros [| j] Hj; simpl in *; try lia; auto.
      * apply IH1. lia.
      * apply IH2. lia.
    + assert (Hall : Forall (fun y => v <= y) a).
      { eapply Forall_impl; [| exact Hx]. intros y Hy. simpl in Hy. lra. }
      assert (E : np.searchsorted (x :: a) v = 0%nat).
      { apply searchsorted_none_below. constructor; [lra | exact Hall]. }
      rewrite E. split; intros [| j] Hj; simpl in *; try lia; try lra.
      rewrite Forall_forall in Hall. apply Hall. apply nth_In. lia.
Qed.

Lemma searchsorted_bin (edges : list R) (v : R) :
  StronglySorted Rle edges -> (0 < length edges)%nat -> nth 0 edges 0 < v ->
  (1 <= np.searchsorted edges v)%nat /\
  IC3yr.in_bin_of edges v (np.searchsorted edges v - 1).
Proof.
  intros Hs Hne Hv. destruct (searchsorted_sorted edges v Hs) as [H1 H2].
  pose proof (searchsorted_le_length edges v) as Hle.
  assert (Hpos : (1 <= np.searchsorted edges v)%nat).
  { destruct (np.searchsorted edges v) eqn:E; [| lia].
    destruct edges as [| x edges]; simpl in Hv, Hne; [lia |].
    specialize (H2 0%nat). simpl in H2. assert (v <= x) by (apply H2; lia). lra. }
  split; [exact Hpos |]. unfold IC3yr.in_bin_of. repeat split.
  - lia.
  - apply H1. lia.
  - intros Hn. apply H2. lia.
Qed.

Lemma searchsorted_below_first (edges : list R) (v : R) :
  StronglySorted Rle edges -> v <= nth 0 edges 0 -> (0 < length edges)%nat ->
  np.searchsorted edges v = 0%nat.
Proof.
  intros Hs Hv Hlen. destruct (searchsorted_sorted edges v Hs) as [H1 _].
  destruct (np.searchsorted edges v) eqn:E; [reflexivity |].
  specialize (H1 0%nat). assert (nth 0 edges 0 < v) by (apply H1; lia). lra.
Qed.

Lemma getitem_in_range {A : Type} (a : list A) (k : Z) (d : A) :
  (0 <= k < Z.of_nat (length a))%Z -> np.getitem a k = Ok (nth (Z.to_nat k) a d).
Proof.
  intros Hk. replace k with (Z.of_nat (Z.to_nat k)) at 1 by lia.
  rewrite getitem_of_nat.
  destruct (nth_error a (Z.to_nat k)) as [x |] eqn:E.
  - now rewrite (nth_error_nth _ _ _ E).
  - apply nth_error_None in E. lia.
Qed.

(** C6, as the code has it. On the grid of the data release the lookup
    raises nothing: a log-energy at or below the first lower edge goes to
    energy bin 0, and for a cosine above the first lower edge the result is
    the table entry of the bin that contains the value (its lower edge
    below the value, the next lower edge not below it; past the last lower
    edge that is the last bin).  The exposure lookup of analyzeICdata.py
    returns the same entry when the log-energy is above the first lower
    edge. *)
Theorem Aeff_lookup_containing_bin (Aeff_table logEmin cosZenith_min : list R)
  (logE cosz : R) :
  IC3yr.grid Aeff_table logEmin cosZenith_min ->
  nth 0 cosZenith_min 0 < cosz ->
  exists iE ic : nat,
    IC3yr.Aeff_event Aeff_table logEmin cosZenith_min logE cosz
      = Ok (nth (iE * 200 + ic) Aeff_table 0) /\
    (iE < 70)%nat /\ IC3yr.in_bin_of cosZenith_min cosz ic /\
    (logE <= nth 0 logEmin 0 -> iE = 0%nat) /\
    (nth 0 logEmin 0 < logE ->
       IC3yr.in_bin_of logEmin logE iE /\
       IC3yr.exposuremap_pixel Aeff_table logEmin cosZenith_min logE cosz
         = Ok (nth (iE * 200 + ic) Aeff_table 0)).
Proof.
  intros (Ht & HE & Hc & HsE & Hsc) Hcos.
  destruct (searchsorted_bin cosZenith_min cosz Hsc ltac:(lia) Hcos) as (Hc1 & Hbin).
  pose proof (searchsorted_le_length cosZenith_min cosz) as Hcle.
  pose proof (searchsorted_le_length logEmin logE) as HEle.
  set (sc := np.searchsorted cosZenith_min cosz) in *.
  destruct (Rle_dec logE (nth 0 logEmin 0)) as [Hlow | Hhigh].
  - exists 0%nat, (sc - 1)%nat.
    assert (E0 : np.searchsorted logEmin logE = 0%nat).
    { apply searchsorted_below_first; auto. lia. }
    refine (conj _ (conj _ (conj Hbin (conj _ _)))).
    + unfold IC3yr.Aeff_event, IC3yr.index_E_Aeff_table, IC3yr.index_coszenith_Aeff_table.
      fold sc. rewrite E0. simpl (Z.of_nat 0 - 1 =? -1)%Z. cbv iota.
      rewrite (getitem_in_range _ _ 0) by lia. f_equal. f_equal. lia.
    + lia.
    + reflexivity.
    + intros Hlt. lra.
  - assert (Hlt : nth 0 logEmin 0 < logE) by lra.
    destruct (searchsorted_bin logEmin logE HsE ltac:(lia) Hlt) as (HE1 & HbinE).
    set (sE := np.searchsorted logEmin logE) in *.
    exists (sE - 1)%nat, (sc - 1)%nat.
    assert (Hne : ((Z.of_nat sE - 1 =? -1) = false)%Z) by (apply Z.eqb_neq; lia).
    refine (conj _ (conj _ (conj Hbin (conj _ (fun _ => conj HbinE _))))).
    + unfold IC3yr.Aeff_event, IC3yr.index_E_Aeff_table, IC3yr.index_coszenith_Aeff_table.
      fold sc sE. cbv zeta. rewrite Hne.
      rewrite (getitem_in_range _ _ 0) by lia. f_equal. f_equal. lia.
    + lia.
    + intros Hlow. lra.
    + unfold IC3yr.exposuremap_pixel, IC3yr.index_E, IC3yr.index_coszenith.
      fold sc sE. rewrite (getitem_in_range _ _ 0) by lia. f_equal. f_equal. lia.
Qed.

(** ** Counts and flux maps *)

Lemma updateM_nth {A : Type} (f : A -> result A) (a : list A) (i : nat) (y d : A) :
  (i < length a)%nat -> f (nth i a d) = Ok y ->
  exists a', np.updateM f a i = Ok a' /\ length a' = length a /\
             nth i a' d = y /\ forall j, j <> i -> nth j a' d = nth j a d.
Proof.
  revert i. induction a as [| x a IH]; intros i Hi Hf; simpl in Hi; [lia |].
  destruct i as [| i]; simpl in *.
  - rewrite Hf. cbn [bind]. exists (y :: a). repeat split; auto.
    intros [| j] Hj; [contradiction | reflexivity].
  - destruct (IH i) as (a' & Ha & Hl & Hn & Ho); [lia | exact Hf |].
    rewrite Ha. cbn [bind]. exists (x :: a'). simpl. repeat split; auto.
    intros [| j] Hj; [reflexivity | apply Ho; lia].
Qed.

Lemma update2_nth {A : Type} (f : A -> A) (m : list (list A)) (b p : nat) (d : A) :
  (b < length m)%nat -> (p < length (nth b m []))%nat ->
  exists m', np.update2 f m b p = Ok m' /\ length m' = length m /\
    nth p (nth b m' []) d = f (nth p (nth b m []) d) /\
    forall b' p', (b', p') <> (b, p) -> nth p' (nth b' m' []) d = nth p' (nth b' m []) d.
Proof.
  intros Hb Hp.
  destruct (updateM_nth (fun x => Ok (f x)) (nth b m []) p (f (nth p (nth b m []) d)) d Hp
              eq_refl) as (row' & Hr & Hlr & Hnr & Hor).
  destruct (updateM_nth (fun row => np.update f row p) m b row' [] Hb Hr)
    as (m' & Hm & Hlm & Hnm & Hom).
  exists m'. unfold np.update2. repeat split; auto.
  - now rewrite Hnm.
  - intros b' p' Hne. destruct (Nat.eq_dec b' b) as [-> | Hb'].
    + rewrite Hnm. apply Hor. intros ->. now apply Hne.
    + now rewrite Hom.
Qed.

Lemma norm_index_nonneg (n : nat) (k : Z) :
  (0 <= k < Z.of_nat n)%Z -> np.norm_index n k = Ok (Z.to_nat k).
Proof.
  intros Hk. unfold np.norm_index.
  replace ((0 <=? k) && (k <? Z.of_nat n))%Z with true; [reflexivity |].
  symmetry. apply andb_true_iff. split; [apply Z.leb_le | apply Z.ltb_lt]; lia.
Qed.

Lemma put_event_excluded (logEmin cosZenith_min : list R) (st : IC3yr.maps) (i : nat)
  (e : IC3yr.event) (d : IC3yr.diagnostic) :
  IC3yr.excluded e -> IC3yr.check_event logEmin cosZenith_min i e = Ok d ->
  IC3yr.put_event logEmin cosZenith_min st (i, e)
  = Ok (IC3yr.mkMaps (IC3yr.fluxmap st) (IC3yr.countsmap st) (IC3yr.printed st ++ [d])).
Proof.
  intros [Ha Hz] Hd. unfold IC3yr.put_event, np.Reqb, np.Rltb.
  destruct (Req_dec_T (IC3yr.ev_Aeff e) 0); [| contradiction].
  destruct (Rlt_dec 90 (IC3yr.col6 (IC3yr.ev_row e))); [| contradiction].
  simpl. now rewrite Hd.
Qed.

Lemma put_event_counted (logEmin cosZenith_min : list R) (st : IC3yr.maps) (i : nat)
  (e : IC3yr.event) :
  ~ IC3yr.excluded e -> IC3yr.on_map st e ->
  let b := Z.to_nat (IC3yr.ev_index_map_logE e) in
  let p := IC3yr.ev_index_map_pixel e in
  exists st',
    IC3yr.put_event logEmin cosZenith_min st (i, e) = Ok st' /\
    IC3yr.printed st' = IC3yr.printed st /\
    nth p (nth b (IC3yr.countsmap st') []) 0 = nth p (nth b (IC3yr.countsmap st) []) 0 + 1 /\
    nth p (nth b (IC3yr.fluxmap st') []) (IC3yr.Finite 0)
      = IC3yr.flux_add (nth p (nth b (IC3yr.fluxmap st) []) (IC3yr.Finite 0))
          (IC3yr.one_over (IC3yr.ev_Aeff e)) /\
    forall b' p', (b', p') <> (b, p) ->
      nth p' (nth b' (IC3yr.countsmap st') []) 0 = nth p' (nth b' (IC3yr.countsmap st) []) 0 /\
      nth p' (nth b' (IC3yr.fluxmap st') []) (IC3yr.Finite 0)
        = nth p' (nth b' (IC3yr.fluxmap st) []) (IC3yr.Finite 0).
Proof.
  intros Hex (Hb & Hlen & Hpf & Hpc). cbv zeta.
  assert (Hguard : np.Reqb (IC3yr.ev_Aeff e) 0 && np.Rltb 90 (IC3yr.col6 (IC3yr.ev_row e))
                   = false).
  { unfold np.Reqb, np.Rltb. destruct (Req_dec_T (IC3yr.ev_Aeff e) 0) as [Ha |]; [| reflexivity].
    destruct (Rlt_dec 90 (IC3yr.col6 (IC3yr.ev_row e))) as [Hz |]; [| reflexivity].
    exfalso. apply Hex. now split. }
  unfold IC3yr.put_event. rewrite Hguard.
  rewrite (norm_index_nonneg _ _ Hb). cbn [bind].
  destruct (update2_nth (fun v => IC3yr.flux_add v (IC3yr.one_over (IC3yr.ev_Aeff e)))
              (IC3yr.fluxmap st) (Z.to_nat (IC3yr.ev_index_map_logE e))
              (IC3yr.ev_index_map_pixel e) (IC3yr.Finite 0))
    as (fm & Hfm & _ & Hfn & Hfo); [lia | exact Hpf |].
  rewrite Hfm. cbn [bind]. rewrite Hlen. rewrite (norm_index_nonneg _ _ Hb). cbn [bind].
  destruct (update2_nth (fun v => v + 1) (IC3yr.countsmap st)
              (Z.to_nat (IC3yr.ev_index_map_logE e)) (IC3yr.ev_index_map_pixel e) 0)
    as (cm & Hcm & _ & Hcn & Hco); [lia | exact Hpc |].
  rewrite Hcm. cbn [bind]. eexists. split; [reflexivity |]. simpl.
  repeat split; auto.
Qed.

(** ** The sample data *)

Ltac rdecide :=
  repeat match goal with
    | |- context [Req_dec_T ?a ?b] =>
        destruct (Req_dec_T a b); [try (exfalso; lra) | try (exfalso; lra)]
    | |- context [Rle_dec ?a ?b] =>
        destruct (Rle_dec a b); [try (exfalso; lra) | try (exfalso; lra)]
    | |- context [Rlt_dec ?a ?b] =>
        destruct (Rlt_dec a b); [try (exfalso; lra) | try (exfalso; lra)]
    end.


Lemma sample_poisson_zero : poisson_zero Sample.rng Sample.poisson1.
Proof.
  intros [| k g]; simpl; [reflexivity |].
  destruct (Req_dec_T 0 0); [reflexivity | contradiction].
Qed.

Lemma sample_atm_pixels : pixels_in_range Sample.rng Sample.NPIXEL Sample.atm_pixel.
Proof. intros i g. unfold Sample.atm_pixel, Sample.NPIXEL. simpl. lia. Qed.

Lemma sample_astro_pixels (t : list R) :
  pixels_in_range Sample.rng Sample.NPIXEL (fun _ => Sample.astro_pixel t).
Proof. intros i g. unfold Sample.astro_pixel, Sample.NPIXEL. simpl. lia. Qed.

(** One call of [atmEvent] on the sample generator, the first draw being 3. *)
Lemma sample_atmEvent_once :
  atmEvent Sample.rng Sample.poisson1 Sample.NEbin Sample.NPIXEL Sample.atm_pixel
    Sample.generate_other 1 ([3%nat], Sample.eg)
  = Ok ([[3; 0; 0; 0; 0; 0; 0; 0; 0; 0; 0; 0]%Z; repeat 0%Z 12; repeat 0%Z 12;
         repeat 0%Z 12; repeat 0%Z 12; repeat 0%Z 12; repeat 0%Z 12],
        ([], set_atm_nevents_expected (PyIntArr [3; 0; 0; 0; 0; 0; 0]%Z) Sample.eg)).
Proof.
  unfold atmEvent, atmEvent_lambda, Sample.eg, random_poisson. simpl.
  unfold np.Rleb, np.POISSON_LAM_MAX. rdecide. simpl. reflexivity.
Qed.

Lemma log10_100 : np.log10 100 = 2.
Proof.
  unfold np.log10.
  assert (H10 : 0 < ln 10).
  { rewrite <- ln_1. apply ln_increasing; lra. }
  replace 100 with (10 * 10) by lra.
  rewrite ln_mult by lra. field. lra.
Qed.

Lemma sample_powerlaw_energy :
  randPowerLaw Sample.rng Sample.rand1 (-1) 1 100 1000 [] = ([100], []).
Proof.
  unfold randPowerLaw. destruct (Req_dec_T (-1) (-1)) as [_ | H]; [| contradiction].
  cbn [random_rand Sample.rand1 map]. f_equal. f_equal.
  replace ((ln 1000 - ln 100) * 0 + ln 100) with (ln 100) by ring.
  apply exp_ln. lra.
Qed.

(** C1, at the call with one event, index -1 and bounds 100 and 1000: the
    energies are binned into the partition, but [astroEvent_galaxy] is
    handed the pair (counts, edges) that [np.histogram] returns, not the
    counts. *)
Theorem powerlaw_hands_over_histogram_pair :
  powerlaw_intrinsicCounts Sample.rng Sample.rand1 Sample.map_logE_edge 1 (-1) 100 1000 []
    = Ok (PyPair (PyIntArr [1; 0; 0; 0; 0; 0; 0]%Z) (PyFloatArr Sample.map_logE_edge), []) /\
  forall template eg,
    astroEvent_galaxy_powerlaw Sample.rng Sample.rand1 Sample.NEbin Sample.NPIXEL
      Sample.map_logE_edge Sample.astro_pixel Sample.generate_other
      1 template (-1) 100 1000 ([], eg)
    = astroEvent_galaxy Sample.rng Sample.NEbin Sample.NPIXEL Sample.astro_pixel
        Sample.generate_other
        (PyPair (PyIntArr [1; 0; 0; 0; 0; 0; 0]%Z) (PyFloatArr Sample.map_logE_edge))
        template ([], eg).
Proof.
  assert (H : powerlaw_intrinsicCounts Sample.rng Sample.rand1 Sample.map_logE_edge
                1 (-1) 100 1000 []
              = Ok (PyPair (PyIntArr [1; 0; 0; 0; 0; 0; 0]%Z)
                      (PyFloatArr Sample.map_logE_edge), [])).
  { unfold powerlaw_intrinsicCounts. rewrite sample_powerlaw_energy.
    cbn [map]. rewrite log10_100.
    unfold np.histogram, Sample.map_logE_edge. simpl.
    unfold np.in_bin, np.Rleb, np.Rltb. rdecide. simpl. reflexivity. }
  split; [exact H |].
  intros template eg. unfold astroEvent_galaxy_powerlaw. rewrite H. reflexivity.
Qed.

(** C4, at two calls in a row on a fresh generator whose first draw is 3:
    the first call draws at the means [nevts * duration_year], the second
    one at the counts the first call drew times [duration_year]. *)
Theorem atmEvent_second_call_mean :
  fresh Sample.eg /\
  atmEvent_lambda 1 Sample.eg = Ok [10 * 1; 0 * 1; 0 * 1; 0 * 1; 0 * 1; 0 * 1; 0 * 1] /\
  exists maps g1 eg1,
    atmEvent Sample.rng Sample.poisson1 Sample.NEbin Sample.NPIXEL Sample.atm_pixel
      Sample.generate_other 1 ([3%nat], Sample.eg) = Ok (maps, (g1, eg1)) /\
    nevts eg1 = [10; 0; 0; 0; 0; 0; 0] /\
    atmEvent_lambda 1 eg1 = Ok [3 * 1; 0 * 1; 0 * 1; 0 * 1; 0 * 1; 0 * 1; 0 * 1].
Proof.
  split; [reflexivity |]. split; [reflexivity |].
  eexists _, _, _. split; [exact sample_atmEvent_once |]. split; reflexivity.
Qed.



(** The maps of the sample run of [atmEvent]. *)
Lemma generated_maps_hold_drawn_counts_sample :
  exists lam counts g1,
    atmEvent_lambda 1 Sample.eg = Ok lam /\
    random_poisson Sample.rng Sample.poisson1 lam [3%nat] = Ok (counts, g1) /\
    length [[3; 0; 0; 0; 0; 0; 0; 0; 0; 0; 0; 0]%Z; repeat 0%Z 12; repeat 0%Z 12;
            repeat 0%Z 12; repeat 0%Z 12; repeat 0%Z 12; repeat 0%Z 12] = Sample.NEbin /\
    forall i, (i < Sample.NEbin)%nat ->
      np.sum (nth i [[3; 0; 0; 0; 0; 0; 0; 0; 0; 0; 0; 0]%Z; repeat 0%Z 12; repeat 0%Z 12;
                     repeat 0%Z 12; repeat 0%Z 12; repeat 0%Z 12; repeat 0%Z 12] [])
        = nth i counts 0%Z /\
      Forall (fun v => (0 <= v)%Z)
        (nth i [[3; 0; 0; 0; 0; 0; 0; 0; 0; 0; 0; 0]%Z; repeat 0%Z 12; repeat 0%Z 12;
                repeat 0%Z 12; repeat 0%Z 12; repeat 0%Z 12; repeat 0%Z 12] []).
Proof.
  exact (proj1 (generated_maps_hold_drawn_counts Sample.rng Sample.poisson1 Sample.NEbin
                  Sample.NPIXEL Sample.atm_pixel Sample.astro_pixel Sample.generate_other
                  Sample.generate_other)
           1 [3%nat] Sample.eg _ _ sample_atmEvent_once).
Defined.

Lemma sample_calibrated : calibrated Sample.NEbin Sample.eg.
Proof. split; reflexivity. Qed.

Lemma sample_physical : physical Sample.NEbin Sample.eg 1 1.
Proof.
  unfold physical, Sample.eg, Sample.nevts0, Sample.Nastro0, Sample.NEbin. simpl.
  unfold np.POISSON_LAM_MAX.
  repeat split; try lra.
  - repeat constructor; lra.
  - repeat constructor; lra.
  - intros i Hi Hn.
    do 7 (destruct i as [| i]; [simpl in *; lra |]). lia.
  - repeat constructor; lra.
  - repeat constructor; lra.
Qed.

Lemma sample_physical_no_duration : physical Sample.NEbin Sample.eg 0 1.
Proof.
  unfold physical, Sample.eg, Sample.nevts0, Sample.Nastro0, Sample.NEbin. simpl.
  unfold np.POISSON_LAM_MAX.
  repeat split; try lra.
  - repeat constructor; lra.
  - repeat constructor; lra.
  - intros i Hi Hn.
    do 7 (destruct i as [| i]; [simpl in *; lra |]). lia.
  - repeat constructor; lra.
  - repeat constructor; lra.
Qed.

(** Bin 1 of the sample generator expects no event; over a duration of
    zero years bin 0, with ten background events a year, expects none
    either. *)
Lemma zero_expected_count_sample :
  (exists maps w',
     atmEvent Sample.rng Sample.poisson1 Sample.NEbin Sample.NPIXEL Sample.atm_pixel
       Sample.generate_other 1 ([3%nat], Sample.eg) = Ok (maps, w') /\
     nth 1 maps [] = repeat 0%Z Sample.NPIXEL) /\
  (exists maps w',
     astroEvent_galaxy Sample.rng Sample.NEbin Sample.NPIXEL Sample.astro_pixel
       Sample.generate_other (PyIntArr [2; 0; 0; 0; 0; 0; 0]%Z) Sample.analy_density
       ([], Sample.eg) = Ok (maps, w') /\
     nth 1 maps [] = repeat 0%Z Sample.NPIXEL) /\
  (exists maps w',
     computeSyntheticData Sample.rng Sample.poisson1 Sample.NEbin Sample.NPIXEL
       Sample.atm_pixel Sample.astro_pixel Sample.generate_other Sample.generate_other
       Sample.analy_density Sample.where_negative Sample.synfast
       1 true 1 false ([4; 9; 9; 9; 9; 9; 9; 1]%nat, Sample.eg) = Ok (maps, w') /\
     nth 1 maps [] = repeat 0%Z Sample.NPIXEL) /\
  (exists maps w',
     computeSyntheticData Sample.rng Sample.poisson1 Sample.NEbin Sample.NPIXEL
       Sample.atm_pixel Sample.astro_pixel Sample.generate_other Sample.generate_other
       Sample.analy_density Sample.where_negative Sample.synfast
       0 true 1 false ([4; 9; 9; 9; 9; 9; 9; 1]%nat, Sample.eg) = Ok (maps, w') /\
     nth 0 maps [] = repeat 0%Z Sample.NPIXEL).
Proof.
  destruct (zero_expected_count_gives_zero_map Sample.rng Sample.poisson1 Sample.NEbin
              Sample.NPIXEL Sample.atm_pixel Sample.astro_pixel Sample.generate_other
              Sample.generate_other Sample.analy_density Sample.where_negative
              Sample.synfast sample_poisson_zero)
    as (Hatm & Hastro & Hsyn & Tatm & Tastro & Tsyn).
  split; [| split; [| split]].
  - destruct (Tatm sample_atm_pixels 1 [3%nat] Sample.eg
                [10 * 1; 0 * 1; 0 * 1; 0 * 1; 0 * 1; 0 * 1; 0 * 1])
      as (maps & w' & Hrun).
    + reflexivity.
    + unfold np.POISSON_LAM_MAX. repeat constructor; lra.
    + unfold Sample.NEbin. simpl. lia.
    + exists maps, w'. split; [exact Hrun |].
      apply (Hatm 1 [3%nat] Sample.eg _ maps w' eq_refl Hrun).
      * unfold Sample.NEbin. lia.
      * simpl. lra.
  - destruct (Tastro [2; 0; 0; 0; 0; 0; 0]%Z Sample.analy_density [] Sample.eg)
      as (maps & w' & Hrun).
    + apply sample_astro_pixels.
    + unfold Sample.NEbin. simpl. lia.
    + exists maps, w'. split; [exact Hrun |].
      apply (Hastro _ _ _ _ maps w' Hrun).
      * unfold Sample.NEbin. lia.
      * reflexivity.
  - destruct (Tsyn sample_atm_pixels sample_astro_pixels 1 true 1
                [4; 9; 9; 9; 9; 9; 9; 1]%nat Sample.eg sample_calibrated
                sample_physical (fun _ => eq_refl))
      as (maps & w' & Hrun).
    exists maps, w'. split; [exact Hrun |].
    destruct (Hsyn _ _ _ _ _ _ maps w' sample_calibrated Hrun) as (r & _ & Hzero).
    apply (Hzero 1%nat).
    + unfold Sample.NEbin. lia.
    + right. right. split; [reflexivity | left; reflexivity].
  - destruct (Tsyn sample_atm_pixels sample_astro_pixels 0 true 1
                [4; 9; 9; 9; 9; 9; 9; 1]%nat Sample.eg sample_calibrated
                sample_physical_no_duration (fun _ => eq_refl))
      as (maps & w' & Hrun).
    exists maps, w'. split; [exact Hrun |].
    destruct (Hsyn _ _ _ _ _ _ maps w' sample_calibrated Hrun) as (r & _ & Hzero).
    apply (Hzero 0%nat).
    + unfold Sample.NEbin. lia.
    + right. left. reflexivity.
Defined.

(** One call of [computeSyntheticData] on the sample generator. *)
Lemma sample_synthetic_run :
  computeSyntheticData Sample.rng Sample.poisson1 Sample.NEbin Sample.NPIXEL
    Sample.atm_pixel Sample.astro_pixel Sample.generate_other Sample.generate_other
    Sample.analy_density Sample.where_negative Sample.synfast
    1 true 1 false ([4; 9; 9; 9; 9; 9; 9; 1]%nat, Sample.eg)
  = Ok ([[5; 0; 0; 0; 0; 0; 0; 0; 0; 0; 0; 0]%Z; repeat 0%Z 12; repeat 0%Z 12;
         repeat 0%Z 12; repeat 0%Z 12; repeat 0%Z 12; repeat 0%Z 12],
        ([], mkEG Sample.nevts0 Sample.Nastro0 (PyIntArr [4; 0; 0; 0; 0; 0; 0]%Z)
               (PyIntArr [1; 0; 0; 0; 0; 0; 0]%Z) Sample.analy_density)).
Proof.
  unfold computeSyntheticData, fractions, fraction_bin, synthetic_atm_lambda,
    synthetic_astro_lambda, random_poisson, astroEvent_galaxy, Sample.eg,
    Sample.nevts0, Sample.Nastro0. simpl.
  rdecide. simpl. unfold np.Rleb, np.POISSON_LAM_MAX. rdecide. simpl. rdecide. simpl. reflexivity.
Qed.

(** The sample run of [computeSyntheticData]: the means of bin 0 add up to
    ten events for one year. *)
Lemma synthetic_data_keeps_total_expectation_sample :
  exists r,
    synthetic_steps Sample.rng Sample.poisson1 Sample.NEbin Sample.NPIXEL
      Sample.atm_pixel Sample.astro_pixel Sample.analy_density Sample.where_negative
      Sample.synfast 1 true 1 [4; 9; 9; 9; 9; 9; 9; 1]%nat Sample.eg r
      [[5; 0; 0; 0; 0; 0; 0; 0; 0; 0; 0; 0]%Z; repeat 0%Z 12; repeat 0%Z 12;
       repeat 0%Z 12; repeat 0%Z 12; repeat 0%Z 12; repeat 0%Z 12] /\
    nth 0 (run_lambda_atm Sample.rng r) 0
      + nth 0 (synthetic_astro_lambda Sample.eg 1 1) 0 = 10 * 1.
Proof.
  destruct (synthetic_data_keeps_total_expectation Sample.rng Sample.poisson1 Sample.NEbin
              Sample.NPIXEL Sample.atm_pixel Sample.astro_pixel Sample.generate_other
              Sample.generate_other Sample.analy_density Sample.where_negative
              Sample.synfast 1 true 1 false [4; 9; 9; 9; 9; 9; 9; 1]%nat Sample.eg _ _
              sample_calibrated sample_synthetic_run)
    as (r & Hsteps & Hmeans & _).
  exists r. split; [exact Hsteps |].
  destruct (Hmeans 0%nat) as (_ & _ & _ & Htotal).
  - unfold Sample.NEbin. lia.
  - simpl. lra.
  - exact Htotal.
Defined.

Lemma sample_bounded_optimizer : bounded_optimizer Sample.rng Sample.optimizer.
Proof.
  intros obj n g. simpl. apply Forall_forall. intros x Hx.
  apply repeat_spec in Hx. subst. lra.
Qed.

(** A fit of one energy bin with the sample optimizer. *)
Lemma minimize__lnL_test_statistic_sample :
  exists best TS g' l1 l0,
    minimize__lnL Sample.rng Sample.lnL_term Sample.optimizer [[0; 1; 2]] [5%Z] 1 0 1 []
      = Ok ((best, TS), g') /\
    lnL Sample.lnL_term best [[0; 1; 2]] [5%Z] 1 0 1 = Ok l1 /\
    lnL Sample.lnL_term (repeat 0 (1 - 0)) [[0; 1; 2]] [5%Z] 1 0 1 = Ok l0 /\
    TS = 2 * (l1 - l0).
Proof.
  exact (minimize__lnL_test_statistic Sample.rng Sample.lnL_term Sample.optimizer
           [[0; 1; 2]] [5%Z] 1 0 1 [] sample_bounded_optimizer).
Defined.

(** *** The release grid *)

Lemma sorted_map_seq (f : nat -> R) (s n : nat) :
  (forall i j, (i <= j)%nat -> f i <= f j) -> StronglySorted Rle (map f (seq s n)).
Proof.
  intros Hf. revert s. induction n as [| n IH]; intros s; simpl; constructor.
  - apply IH.
  - apply Forall_forall. intros y Hy. apply in_map_iff in Hy.
    destruct Hy as (j & <- & Hj). apply in_seq in Hj. apply Hf. lia.
Qed.

Lemma sample_grid : IC3yr.grid Sample.Aeff_table Sample.logEmin Sample.cosZenith_min.
Proof.
  unfold IC3yr.grid, Sample.Aeff_table, Sample.logEmin, Sample.cosZenith_min.
  rewrite !length_map, !length_seq. repeat split.
  - apply sorted_map_seq. intros i j Hij. apply le_INR in Hij. lra.
  - apply sorted_map_seq. intros i j Hij. apply le_INR in Hij. lra.
Qed.

Lemma INR_below (k n : nat) : (k < n)%nat -> INR k < IZR (Z.of_nat n).
Proof.
  intros H. rewrite INR_IZR_INZ. apply IZR_lt. lia.
Qed.

(** C6 fails as stated: a log-energy of 1 (below the table) and a cosine of
    2 (outside [-1, 1]) are looked up without any error; the result is the
    entry of energy bin 0 and of the last cosine bin. *)
Lemma Aeff_lookup_out_of_range_returns :
  IC3yr.Aeff_event Sample.Aeff_table Sample.logEmin Sample.cosZenith_min 1 2 = Ok 199 /\
  IC3yr.index_E_Aeff_table Sample.logEmin 1 = 0%Z /\
  IC3yr.index_coszenith_Aeff_table Sample.cosZenith_min 2 = 199%Z.
Proof.
  assert (HE : np.searchsorted Sample.logEmin 1 = 0%nat).
  { apply searchsorted_none_below. apply Forall_forall. intros x Hx.
    apply in_map_iff in Hx. destruct Hx as (k & <- & _).
    pose proof (pos_INR k). lra. }
  assert (Hc : np.searchsorted Sample.cosZenith_min 2 = 200%nat).
  { rewrite searchsorted_all_below.
    - unfold Sample.cosZenith_min. now rewrite length_map, length_seq.
    - apply Forall_forall. intros x Hx.
      apply in_map_iff in Hx. destruct Hx as (k & <- & Hk). apply in_seq in Hk.
      pose proof (INR_below k 200 ltac:(lia)) as Hb. simpl in Hb. lra. }
  unfold IC3yr.Aeff_event, IC3yr.index_E_Aeff_table, IC3yr.index_coszenith_Aeff_table.
  rewrite HE, Hc. simpl. repeat split.
  rewrite (getitem_in_range _ _ 0).
  - unfold Sample.Aeff_table. rewrite (nth_map_in _ _ _ _ 0%nat).
    + rewrite seq_nth by lia. rewrite INR_IZR_INZ. reflexivity.
    + rewrite length_seq. lia.
  - unfold Sample.Aeff_table. rewrite length_map, length_seq. lia.
Qed.

(** A lookup inside the sample grid. *)
Lemma Aeff_lookup_containing_bin_sample :
  exists iE ic : nat,
    IC3yr.Aeff_event Sample.Aeff_table Sample.logEmin Sample.cosZenith_min 5 0
      = Ok (nth (iE * 200 + ic) Sample.Aeff_table 0) /\
    (iE < 70)%nat /\ IC3yr.in_bin_of Sample.cosZenith_min 0 ic /\
    (5 <= nth 0 Sample.logEmin 0 -> iE = 0%nat) /\
    (nth 0 Sample.logEmin 0 < 5 ->
       IC3yr.in_bin_of Sample.logEmin 5 iE /\
       IC3yr.exposuremap_pixel Sample.Aeff_table Sample.logEmin Sample.cosZenith_min 5 0
         = Ok (nth (iE * 200 + ic) Sample.Aeff_table 0)).
Proof.
  apply (Aeff_lookup_containing_bin Sample.Aeff_table Sample.logEmin Sample.cosZenith_min 5 0).
  - exact sample_grid.
  - unfold Sample.cosZenith_min. simpl. lra.
Defined.

(** C7 fails as stated: an event whose effective area is zero is counted
    when its zenith is not above 90 degrees; nothing is printed, its counts
    pixel gets 1 and its flux pixel the infinite quotient [1 / 0]. *)
Lemma zero_Aeff_event_is_counted :
  IC3yr.ev_Aeff Sample.downgoing_zero_Aeff = 0 /\
  exists st',
    IC3yr.put_event Sample.logEmin Sample.cosZenith_min (IC3yr.zero_maps 7 12)
      (0%nat, Sample.downgoing_zero_Aeff) = Ok st' /\
    IC3yr.printed st' = [] /\
    nth 0 (nth 3 (IC3yr.countsmap st') []) 0 = 0 + 1 /\
    nth 0 (nth 3 (IC3yr.fluxmap st') []) (IC3yr.Finite 0) = IC3yr.Infinite.
Proof.
  split; [reflexivity |].
  destruct (put_event_counted Sample.logEmin Sample.cosZenith_min (IC3yr.zero_maps 7 12)
              0 Sample.downgoing_zero_Aeff) as (st' & Hrun & Hp & Hc & Hf & _).
  - intros [_ Hz]. simpl in Hz. lra.
  - unfold IC3yr.on_map. simpl. repeat split; lia.
  - exists st'. split; [exact Hrun |]. split; [exact Hp |]. split; [exact Hc |].
    etransitivity; [exact Hf |]. simpl. unfold IC3yr.one_over.
    destruct (Req_dec_T 0 0); [reflexivity | contradiction].
Qed.

(** ** Further properties of the code *)

Lemma getitem_total {A : Type} (a : list A) (k : Z) :
  (- Z.of_nat (length a) <= k < Z.of_nat (length a))%Z ->
  exists x, np.getitem a k = Ok x.
Proof.
  intros Hk. unfold np.getitem, np.norm_index.
  destruct ((0 <=? k) && (k <? Z.of_nat (length a)))%Z eqn:E1.
  - apply andb_true_iff in E1. destruct E1 as [H1 H2].
    apply Z.leb_le in H1. apply Z.ltb_lt in H2. cbn [bind].
    destruct (nth_error a (Z.to_nat k)) as [x |] eqn:E; [eauto |].
    apply nth_error_None in E. lia.
  - destruct ((- Z.of_nat (length a) <=? k) && (k <? 0))%Z eqn:E2.
    + apply andb_true_iff in E2. destruct E2 as [H1 H2].
      apply Z.leb_le in H1. apply Z.ltb_lt in H2. cbn [bind].
      destruct (nth_error a (Z.to_nat (Z.of_nat (length a) + k))) as [x |] eqn:E; [eauto |].
      apply nth_error_None in E. lia.
    + apply andb_false_iff in E1. apply andb_false_iff in E2.
      rewrite Z.leb_gt, Z.ltb_ge in E1. rewrite Z.leb_gt, Z.ltb_ge in E2. lia.
Qed.

(** X1. On the grid of the data release neither lookup of the effective
    area raises, whatever the log-energy and the cosine are: the index
    always falls inside the table (counting from its end when it is
    negative). *)
Theorem Aeff_lookup_never_raises (Aeff_table logEmin cosZenith_min : list R)
  (logE cosz : R) :
  IC3yr.grid Aeff_table logEmin cosZenith_min ->
  (exists a, IC3yr.Aeff_event Aeff_table logEmin cosZenith_min logE cosz = Ok a) /\
  (exists a, IC3yr.exposuremap_pixel Aeff_table logEmin cosZenith_min logE cosz = Ok a).
Proof.
  intros (Ht & HE & Hc & _ & _).
  pose proof (searchsorted_le_length cosZenith_min cosz) as Hcle.
  pose proof (searchsorted_le_length logEmin logE) as HEle.
  split.
  - unfold IC3yr.Aeff_event, IC3yr.index_E_Aeff_table, IC3yr.index_coszenith_Aeff_table.
    cbv zeta. apply getitem_total.
    destruct (Z.of_nat (np.searchsorted logEmin logE) - 1 =? -1)%Z eqn:E.
    + lia.
    + apply Z.eqb_neq in E. lia.
  - unfold IC3yr.exposuremap_pixel, IC3yr.index_E, IC3yr.index_coszenith.
    apply getitem_total. lia.
Qed.

(** A lookup far outside the sample grid. *)
Lemma Aeff_lookup_never_raises_sample :
  (exists a, IC3yr.Aeff_event Sample.Aeff_table Sample.logEmin Sample.cosZenith_min 12 (-3)
             = Ok a) /\
  (exists a, IC3yr.exposuremap_pixel Sample.Aeff_table Sample.logEmin Sample.cosZenith_min
               12 (-3) = Ok a).
Proof.
  exact (Aeff_lookup_never_raises Sample.Aeff_table Sample.logEmin Sample.cosZenith_min
           12 (-3) sample_grid).
Defined.

(** X2. A call of [atmEvent] that returns leaves the calibration arrays and
    the astrophysical generator as they were and leaves the drawn counts in
    the atmospheric generator's [nevents_expected] cell, so that the means
    of the next call are those counts times its duration. *)
Theorem atmEvent_leaves_drawn_counts (rng : Type) (poisson1 : R -> rng -> nat * rng)
  (NEbin NPIXEL : nat) (atm_pixel : nat -> rng -> nat * rng)
  (atm_other : pyval -> nat -> rng -> result (list (list (list Z)) * rng))
  (duration_year : R) (g : rng) (eg : EventGenerator) (maps : list (list Z))
  (g' : rng) (eg' : EventGenerator) :
  atmEvent rng poisson1 NEbin NPIXEL atm_pixel atm_other duration_year (g, eg)
    = Ok (maps, (g', eg')) ->
  exists lam counts g1,
    atmEvent_lambda duration_year eg = Ok lam /\
    random_poisson rng poisson1 lam g = Ok (counts, g1) /\
    atm_nevents_expected eg' = PyIntArr counts /\
    nevts eg' = nevts eg /\ Nastro_1yr_Aeffmax eg' = Nastro_1yr_Aeffmax eg /\
    astro_nevents_expected eg' = astro_nevents_expected eg /\
    astro_normalized_counts_map eg' = astro_normalized_counts_map eg /\
    forall d, atmEvent_lambda d eg' = Ok (map (fun k => IZR k * d) counts).
Proof.
  intros H.
  destruct (atmEvent_inv _ _ _ _ _ _ _ _ _ _ _ H) as (lam & counts & g1 & g2 & Hl & Hp & _ & Hw).
  inversion Hw; subst. exists lam, counts, g1. repeat split; auto.
Qed.

(** The state after the sample run of [atmEvent]. *)
Lemma atmEvent_leaves_drawn_counts_sample :
  exists lam counts g1,
    atmEvent_lambda 1 Sample.eg = Ok lam /\
    random_poisson Sample.rng Sample.poisson1 lam [3%nat] = Ok (counts, g1) /\
    atm_nevents_expected (set_atm_nevents_expected (PyIntArr [3; 0; 0; 0; 0; 0; 0]%Z) Sample.eg)
      = PyIntArr counts /\
    nevts (set_atm_nevents_expected (PyIntArr [3; 0; 0; 0; 0; 0; 0]%Z) Sample.eg)
      = nevts Sample.eg /\
    Nastro_1yr_Aeffmax (set_atm_nevents_expected (PyIntArr [3; 0; 0; 0; 0; 0; 0]%Z) Sample.eg)
      = Nastro_1yr_Aeffmax Sample.eg /\
    astro_nevents_expected (set_atm_nevents_expected (PyIntArr [3; 0; 0; 0; 0; 0; 0]%Z) Sample.eg)
      = astro_nevents_expected Sample.eg /\
    astro_normalized_counts_map
      (set_atm_nevents_expected (PyIntArr [3; 0; 0; 0; 0; 0; 0]%Z) Sample.eg)
      = astro_normalized_counts_map Sample.eg /\
    forall d,
      atmEvent_lambda d (set_atm_nevents_expected (PyIntArr [3; 0; 0; 0; 0; 0; 0]%Z) Sample.eg)
      = Ok (map (fun k => IZR k * d) counts).
Proof.
  exact (atmEvent_leaves_drawn_counts Sample.rng Sample.poisson1 Sample.NEbin Sample.NPIXEL
           Sample.atm_pixel Sample.generate_other 1 [3%nat] Sample.eg _ _ _
           sample_atmEvent_once).
Defined.

(** X3. A call of [computeSyntheticData] that returns was made with
    [write_map] off, has drawn its atmospheric counts at means that do not
    depend on the generators' cells, and leaves the calibration arrays
    unchanged and both generators' cells overwritten with its own draws. *)
Theorem computeSyntheticData_final_state (rng : Type) (poisson1 : R -> rng -> nat * rng)
  (NEbin NPIXEL : nat) (atm_pixel : nat -> rng -> nat * rng)
  (astro_pixel : list R -> rng -> nat * rng)
  (atm_other astro_other : pyval -> nat -> rng -> result (list (list (list Z)) * rng))
  (analy_density : list R) (where_negative : list R -> result unit)
  (synfast : rng -> list R * rng)
  (N_yr : R) (fromGalaxy : bool) (f_diff : R) (write_map : bool) (g : rng)
  (eg : EventGenerator) (maps : list (list Z)) (g' : rng) (eg' : EventGenerator) :
  computeSyntheticData rng poisson1 NEbin NPIXEL atm_pixel astro_pixel atm_other astro_other
    analy_density where_negative synfast N_yr fromGalaxy f_diff write_map (g, eg)
    = Ok (maps, (g', eg')) ->
  write_map = false /\
  exists r,
    synthetic_steps rng poisson1 NEbin NPIXEL atm_pixel astro_pixel analy_density
      where_negative synfast N_yr fromGalaxy f_diff g eg r maps /\
    eg' = mkEG (nevts eg) (Nastro_1yr_Aeffmax eg) (PyIntArr (run_Natm rng r))
            (PyIntArr (run_Nastro rng r)) (run_density rng r).
Proof.
  intros H.
  destruct (computeSyntheticData_inv _ _ _ _ _ _ _ _ _ _ _ _ _ _ _ _ _ _ _ H)
    as (r & Hsteps & Hw & Hm).
  split; [exact Hm |]. exists r. split; [exact Hsteps |].
  unfold synthetic_final in Hw. inversion Hw. reflexivity.
Qed.

(** The state after the sample run of [computeSyntheticData]. *)
Lemma computeSyntheticData_final_state_sample :
  false = false /\
  exists r,
    synthetic_steps Sample.rng Sample.poisson1 Sample.NEbin Sample.NPIXEL
      Sample.atm_pixel Sample.astro_pixel Sample.analy_density Sample.where_negative
      Sample.synfast 1 true 1 [4; 9; 9; 9; 9; 9; 9; 1]%nat Sample.eg r
      [[5; 0; 0; 0; 0; 0; 0; 0; 0; 0; 0; 0]%Z; repeat 0%Z 12; repeat 0%Z 12;
       repeat 0%Z 12; repeat 0%Z 12; repeat 0%Z 12; repeat 0%Z 12] /\
    mkEG Sample.nevts0 Sample.Nastro0 (PyIntArr [4; 0; 0; 0; 0; 0; 0]%Z)
      (PyIntArr [1; 0; 0; 0; 0; 0; 0]%Z) Sample.analy_density
    = mkEG (nevts Sample.eg) (Nastro_1yr_Aeffmax Sample.eg) (PyIntArr (run_Natm Sample.rng r))
        (PyIntArr (run_Nastro Sample.rng r)) (run_density Sample.rng r).
Proof.
  exact (computeSyntheticData_final_state Sample.rng Sample.poisson1 Sample.NEbin
           Sample.NPIXEL Sample.atm_pixel Sample.astro_pixel Sample.generate_other
           Sample.generate_other Sample.analy_density Sample.where_negative Sample.synfast
           1 true 1 false [4; 9; 9; 9; 9; 9; 9; 1]%nat Sample.eg _ _ _ sample_synthetic_run).
Defined.

(** X4. With [write_map] on, [computeSyntheticData] never returns a map: it
    ends in an exception, at the latest the [NameError] of the unbound
    [write_maps_to_fits]. *)
Theorem computeSyntheticData_write_map_raises (rng : Type)
  (poisson1 : R -> rng -> nat * rng)
  (NEbin NPIXEL : nat) (atm_pixel : nat -> rng -> nat * rng)
  (astro_pixel : list R -> rng -> nat * rng)
  (atm_other astro_other : pyval -> nat -> rng -> result (list (list (list Z)) * rng))
  (analy_density : list R) (where_negative : list R -> result unit)
  (synfast : rng -> list R * rng)
  (N_yr : R) (fromGalaxy : bool) (f_diff : R) (g : rng) (eg : EventGenerator) :
  exists e,
    computeSyntheticData rng poisson1 NEbin NPIXEL atm_pixel astro_pixel atm_other astro_other
      analy_density where_negative synfast N_yr fromGalaxy f_diff true (g, eg) = Raise e.
Proof.
  destruct (computeSyntheticData rng poisson1 NEbin NPIXEL atm_pixel astro_pixel atm_other
              astro_other analy_density where_negative synfast N_yr fromGalaxy f_diff true
              (g, eg)) as [[maps w'] | e] eqn:E.
  - destruct (computeSyntheticData_inv _ _ _ _ _ _ _ _ _ _ _ _ _ _ _ _ _ _ _ E)
      as (_ & _ & _ & Hm). discriminate.
  - eauto.
Qed.

(** ** The range of energy bins of the fit *)

Lemma all_zero_nth (l : list Z) (m : nat) :
  Forall (fun c => c = 0%Z) l -> nth m l 0%Z = 0%Z.
Proof.
  intros H. revert m. induction H as [| c l Hc _ IH]; intros [| m]; simpl; auto.
Qed.

Lemma last_nonzero_spec (l : list Z) (k : nat) :
  match last_nonzero l k with
  | None => Forall (fun c => c = 0%Z) l
  | Some j => (k <= j < k + length l)%nat /\ nth (j - k) l 0%Z <> 0%Z /\
              forall m, (j - k < m)%nat -> nth m l 0%Z = 0%Z
  end.
Proof.
  revert k. induction l as [| c rest IH]; intro k; simpl.
  - constructor.
  - specialize (IH (S k)). destruct (last_nonzero rest (S k)) as [j |].
    + destruct IH as (Hj & Hn & Hz). split; [lia |].
      replace (j - k)%nat with (S (j - S k)) by lia. split; [exact Hn |].
      intros [| m] Hm; [lia |]. apply Hz. lia.
    + destruct (Z.eqb_spec c 0) as [-> | Hc].
      * now constructor.
      * split; [lia |]. rewrite Nat.sub_diag. split; [exact Hc |].
        intros [| m] Hm; [lia |]. simpl. now apply all_zero_nth.
Qed.

(** X10. [Ebinmax = np.min([np.where(Ncount != 0)[0][-1] + 1, 5])] raises
    [IndexError] exactly when every bin is empty; otherwise it lies between
    1 and 5 and within the array, and below 5 it cuts exactly the trailing
    empty bins: bin [Ebinmax - 1] is not empty and every bin from [Ebinmax]
    on is. *)
Theorem Ebinmax_of_cuts_trailing_empty_bins (Ncount : list Z) :
  (Ebinmax_of Ncount = Raise IndexError <-> Forall (fun c => c = 0%Z) Ncount) /\
  forall Ebinmax, Ebinmax_of Ncount = Ok Ebinmax ->
    (1 <= Ebinmax <= 5)%nat /\ (Ebinmax <= length Ncount)%nat /\
    ((Ebinmax < 5)%nat ->
       nth (Ebinmax - 1) Ncount 0%Z <> 0%Z /\
       forall m, (Ebinmax <= m)%nat -> nth m Ncount 0%Z = 0%Z) /\
    (Ebinmax = 5%nat -> exists j, (4 <= j)%nat /\ nth j Ncount 0%Z <> 0%Z).
Proof.
  unfold Ebinmax_of. pose proof (last_nonzero_spec Ncount 0) as H.
  destruct (last_nonzero Ncount 0) as [j |].
  - destruct H as (Hj & Hn & Hz). rewrite Nat.sub_0_r in *. split.
    + split; [discriminate |]. intros Hall. exfalso. apply Hn. now apply all_zero_nth.
    + intros n Hn'. inversion Hn'; subst n. clear Hn'.
      split; [lia |]. split; [simpl in Hj; lia |]. split.
      * intros Hlt. replace (Nat.min (j + 1) 5 - 1)%nat with j by lia.
        split; [exact Hn |]. intros m Hm. apply Hz. lia.
      * intros H5. exists j. split; [lia | exact Hn].
  - split.
    + split; auto.
    + discriminate.
Qed.

(** The loop of [getEbinmax] from the state ([E], [N]): it ends within
    [NEbin - 1 - E] iterations, at the first bin after [E] without a
    positive entry or at the last bin. *)
Lemma getEbinmax_loop_spec (NEbin : nat) (w : list (list R)) :
  length w = NEbin ->
  forall fuel E N, (NEbin - 1 - E <= fuel)%nat ->
  exists e,
    test_likelihood.getEbinmax_loop fuel NEbin w E N = Some (Ok e) /\
    (E <= e)%nat /\ (e <= Nat.max E (NEbin - 1))%nat /\
    (forall j, (E < j < e)%nat -> (0 < test_likelihood.count_positive (nth j w []))%nat) /\
    ((e < NEbin - 1)%nat ->
       if (e =? E)%nat then N = 0%nat
       else test_likelihood.count_positive (nth e w []) = 0%nat) /\
    ((E < e)%nat -> (0 < N)%nat).
Proof.
  intros Hw. induction fuel as [| fuel IH]; intros E N Hf.
  - simpl.
    destruct ((0 <? N)%nat && (Z.of_nat E <? Z.of_nat NEbin - 1)%Z) eqn:C.
    + apply andb_true_iff in C. destruct C as [_ C]. apply Z.ltb_lt in C. lia.
    + exists E. split; [reflexivity |]. repeat split; lia.
  - simpl.
    destruct ((0 <? N)%nat && (Z.of_nat E <? Z.of_nat NEbin - 1)%Z) eqn:C.
    + apply andb_true_iff in C. destruct C as [C1 C2].
      apply Nat.ltb_lt in C1. apply Z.ltb_lt in C2.
      rewrite (getitem_in_range _ _ []) by lia. rewrite Nat2Z.id.
      destruct (IH (E + 1)%nat (test_likelihood.count_positive (nth (E + 1) w [])))
        as (e & He & H1 & H2 & H3 & H4 & H5); [lia |].
      exists e. split; [exact He |]. repeat split; try lia.
      * intros j Hj. destruct (Nat.eq_dec j (E + 1)) as [-> | Hne].
        -- apply H5. lia.
        -- apply H3. lia.
      * intros Hlt. specialize (H4 Hlt).
        destruct (Nat.eqb_spec e E) as [-> | _]; [lia |].
        destruct (Nat.eqb_spec e (E + 1)) as [-> | _]; exact H4.
    + exists E. split; [reflexivity |]. repeat split; try lia.
      intros Hlt. rewrite Nat.eqb_refl.
      apply andb_false_iff in C. destruct C as [C | C].
      * apply Nat.ltb_ge in C. lia.
      * apply Z.ltb_ge in C. lia.
Qed.

(** X11. [getEbinmax] ends after fewer than [NEbin] iterations on a
    variance table of [NEbin] rows.  With at most 4 energy bins it returns 3
    without looking at the table; otherwise it returns the first bin from 4
    on that has no positive variance entry, or the last bin when there is
    none: bin 4 is stepped over to whatever it holds, and every bin from 4
    up to the result has a positive entry. *)
Theorem getEbinmax_first_empty_bin (fuel NEbin : nat) (w_astro_std_square : list (list R)) :
  length w_astro_std_square = NEbin -> (NEbin <= fuel)%nat ->
  exists Ebinmax,
    test_likelihood.getEbinmax fuel NEbin w_astro_std_square = Some (Ok Ebinmax) /\
    ((NEbin <= 4)%nat -> Ebinmax = 3%nat) /\
    ((5 <= NEbin)%nat ->
       (4 <= Ebinmax <= NEbin - 1)%nat /\
       (forall j, (4 <= j < Ebinmax)%nat ->
          (0 < test_likelihood.count_positive (nth j w_astro_std_square []))%nat) /\
       ((Ebinmax < NEbin - 1)%nat ->
          test_likelihood.count_positive (nth Ebinmax w_astro_std_square []) = 0%nat)).
Proof.
  intros Hw Hf. unfold test_likelihood.getEbinmax.
  destruct (getEbinmax_loop_spec NEbin w_astro_std_square Hw fuel 3 1)
    as (e & He & H1 & H2 & H3 & H4 & H5); [lia |].
  exists e. split; [exact He |]. split.
  - intros Hn. lia.
  - intros Hn.
    assert (H4e : (4 <= e)%nat).
    { destruct (Nat.lt_ge_cases e (NEbin - 1)) as [Hlt | Hge]; [| lia].
      specialize (H4 Hlt). destruct (Nat.eqb_spec e 3); [lia | lia]. }
    split; [lia |]. split.
    + intros j Hj. apply H3. lia.
    + intros Hlt. specialize (H4 Hlt). destruct (Nat.eqb_spec e 3); [lia | exact H4].
Qed.

(** A table of seven bins whose bins 0 to 4 hold a positive entry. *)
Lemma getEbinmax_first_empty_bin_sample :
  exists Ebinmax,
    test_likelihood.getEbinmax 7 7 Sample.w_astro_std_square = Some (Ok Ebinmax) /\
    ((7 <= 4)%nat -> Ebinmax = 3%nat) /\
    ((5 <= 7)%nat ->
       (4 <= Ebinmax <= 7 - 1)%nat /\
       (forall j, (4 <= j < Ebinmax)%nat ->
          (0 < test_likelihood.count_positive
                 (nth j Sample.w_astro_std_square []))%nat) /\
       ((Ebinmax < 7 - 1)%nat ->
          test_likelihood.count_positive
            (nth Ebinmax Sample.w_astro_std_square []) = 0%nat)).
Proof.
  apply (getEbinmax_first_empty_bin 7 7 Sample.w_astro_std_square).
  - reflexivity.
  - lia.
Defined.

(** ** The loops over the events *)

Lemma update_sumR (row : list R) (p : nat) (row' : list R) :
  np.update (fun v => v + 1) row p = Ok row' ->
  np.sumR row' = np.sumR row + 1 /\ length row' = length row.
Proof.
  unfold np.update. revert p row'.
  induction row as [| x row IH]; intros p row' H; simpl in H; [discriminate |].
  destruct p as [| p].
  - inversion H; subst. simpl. split; [lra | reflexivity].
  - inv_bind H. inversion H; subst. destruct (IH _ _ E) as (Hs & Hl).
    simpl. split; [lra | now rewrite Hl].
Qed.

Lemma updateM_length {A : Type} (f : A -> result A) (a : list A) (i : nat) (a' : list A) :
  np.updateM f a i = Ok a' -> (i < length a)%nat /\ length a' = length a.
Proof.
  revert i a'. induction a as [| x a IH]; intros i a' H; simpl in H; [discriminate |].
  destruct i as [| i]; inv_bind H; inversion H; subst; simpl.
  - split; [lia | reflexivity].
  - destruct (IH _ _ E) as (Hi & Hl). split; [lia | now rewrite Hl].
Qed.

Lemma updateM_rows {A : Type} (f : A -> result A) (a : list A) (i : nat) (a' : list A)
  (d : A) :
  np.updateM f a i = Ok a' ->
  f (nth i a d) = Ok (nth i a' d) /\ forall j, j <> i -> nth j a' d = nth j a d.
Proof.
  revert i a'. induction a as [| x a IH]; intros i a' H; simpl in H; [discriminate |].
  destruct i as [| i]; inv_bind H; inversion H; subst; simpl.
  - split; [exact E |]. intros [| j] Hj; [contradiction | reflexivity].
  - destruct (IH _ _ E) as (Hf & Ho). split; [exact Hf |].
    intros [| j] Hj; [reflexivity | apply Ho; lia].
Qed.

(** An update of one entry keeps the shape of a two-dimensional array. *)
Lemma update2_shape {A : Type} (f : A -> A) (m : list (list A)) (b p : nat)
  (m' : list (list A)) :
  np.update2 f m b p = Ok m' ->
  (b < length m)%nat /\ length m' = length m /\
  forall k, length (nth k m' []) = length (nth k m []).
Proof.
  unfold np.update2. intros H.
  destruct (updateM_length _ _ _ _ H) as (Hb & Hl).
  destruct (updateM_rows _ _ _ _ [] H) as (Hf & Ho).
  repeat split; auto. intros k. destruct (Nat.eq_dec k b) as [-> | Hk].
  - unfold np.update in Hf. now destruct (updateM_length _ _ _ _ Hf).
  - now rewrite Ho.
Qed.

(** One more count: the sum of row [b] grows by one, the other rows keep
    theirs. *)
Lemma update2_sumR (m : list (list R)) (b p : nat) (m' : list (list R)) :
  np.update2 (fun v => v + 1) m b p = Ok m' ->
  (forall k, np.sumR (nth k m' []) = np.sumR (nth k m []) + (if (b =? k)%nat then 1 else 0)) /\
  np.sum2R m' = np.sum2R m + 1.
Proof.
  unfold np.update2. intros H. split.
  - destruct (updateM_rows _ _ _ _ [] H) as (Hf & Ho). intros k.
    destruct (Nat.eqb_spec b k) as [<- | Hk].
    + now destruct (update_sumR _ _ _ Hf).
    + rewrite Ho by auto. lra.
  - revert b m' H. induction m as [| row m IH]; intros b m' H; simpl in H; [discriminate |].
    destruct b as [| b]; inv_bind H; inversion H; subst; unfold np.sum2R in *; simpl.
    + destruct (update_sumR _ _ _ E). lra.
    + rewrite (IH _ _ E). lra.
Qed.

Lemma norm_index_range (n : nat) (k : Z) (b : nat) :
  np.norm_index n k = Ok b -> (b < n)%nat.
Proof.
  unfold np.norm_index. intros H.
  destruct ((0 <=? k) && (k <? Z.of_nat n))%Z eqn:C1.
  - inversion H; subst. apply andb_true_iff in C1. lia.
  - destruct ((- Z.of_nat n <=? k) && (k <? 0))%Z eqn:C2; [| discriminate].
    inversion H; subst. apply andb_true_iff in C2. lia.
Qed.

Lemma put_event_accounts (logEmin cosZenith_min : list R) (st : IC3yr.maps) (i : nat)
  (e : IC3yr.event) (st' : IC3yr.maps) :
  IC3yr.put_event logEmin cosZenith_min st (i, e) = Ok st' ->
  (length (IC3yr.countsmap st') = length (IC3yr.countsmap st) /\
   forall k, length (nth k (IC3yr.countsmap st') []) = length (nth k (IC3yr.countsmap st) []))
  /\
  (length (IC3yr.fluxmap st') = length (IC3yr.fluxmap st) /\
   forall k, length (nth k (IC3yr.fluxmap st') []) = length (nth k (IC3yr.fluxmap st) []))
  /\
  length (IC3yr.printed st')
    = (length (IC3yr.printed st) + (if IC3yr.left_out e then 1 else 0))%nat /\
  (forall k, np.sumR (nth k (IC3yr.countsmap st') [])
             = np.sumR (nth k (IC3yr.countsmap st) [])
               + (if IC3yr.counted_in (length (IC3yr.countsmap st)) k e then 1 else 0)) /\
  np.sum2R (IC3yr.countsmap st')
    = np.sum2R (IC3yr.countsmap st) + (if IC3yr.left_out e then 0 else 1).
Proof.
  unfold IC3yr.put_event, IC3yr.counted_in, IC3yr.left_out. intros H.
  destruct (np.Reqb (IC3yr.ev_Aeff e) 0 && np.Rltb 90 (IC3yr.col6 (IC3yr.ev_row e))) eqn:G.
  - inv_bind H. inversion H; subst. simpl. rewrite length_app. simpl.
    repeat split; auto; try lra. intros k. lra.
  - inv_bind H. inv_bind H. inv_bind H. inv_bind H. inversion H; subst. simpl.
    destruct (update2_shape _ _ _ _ _ E0) as (_ & Hf1 & Hf2).
    destruct (update2_shape _ _ _ _ _ E2) as (_ & Hc1 & Hc2).
    destruct (update2_sumR _ _ _ _ E2) as (Hs1 & Hs2).
    repeat split; auto.
Qed.

Lemma sumR_zeros (n : nat) : np.sumR (repeat 0 n) = 0.
Proof. induction n as [| n IH]; simpl; [reflexivity | rewrite IH; lra]. Qed.

Lemma sum2R_zeros (n npix : nat) : np.sum2R (repeat (repeat 0 npix) n) = 0.
Proof.
  unfold np.sum2R. induction n as [| n IH]; simpl; [reflexivity |].
  rewrite IH, sumR_zeros. lra.
Qed.

Lemma mapM_length {A B : Type} (f : A -> result B) (l : list A) (l' : list B) :
  mapM f l = Ok l' -> length l' = length l.
Proof.
  revert l'. induction l as [| x l IH]; intros l' H; simpl in H.
  - now inversion H.
  - inv_bind H. inv_bind H. inversion H; subst. simpl. now rewrite (IH _ eq_refl).
Qed.

Lemma put_events_accounts (logEmin cosZenith_min : list R) (es : list (nat * IC3yr.event))
  (st st' : IC3yr.maps) :
  IC3yr.put_events logEmin cosZenith_min st es = Ok st' ->
  length (IC3yr.printed st')
    = (length (IC3yr.printed st)
       + length (filter (fun ie => IC3yr.left_out (snd ie)) es))%nat /\
  (forall k, np.sumR (nth k (IC3yr.countsmap st') [])
             = np.sumR (nth k (IC3yr.countsmap st) [])
               + INR (length (filter (fun ie => IC3yr.counted_in
                                                  (length (IC3yr.countsmap st)) k (snd ie))
                                es))) /\
  np.sum2R (IC3yr.countsmap st') + INR (length (IC3yr.printed st'))
    = np.sum2R (IC3yr.countsmap st) + INR (length (IC3yr.printed st)) + INR (length es) /\
  (length (IC3yr.countsmap st') = length (IC3yr.countsmap st) /\
   forall k, length (nth k (IC3yr.countsmap st') []) = length (nth k (IC3yr.countsmap st) []))
  /\
  (length (IC3yr.fluxmap st') = length (IC3yr.fluxmap st) /\
   forall k, length (nth k (IC3yr.fluxmap st') []) = length (nth k (IC3yr.fluxmap st) [])).
Proof.
  revert st. induction es as [| [i e] es IH]; intros st H; simpl in H.
  - inversion H; subst. simpl. repeat split; auto; try lra. intros k. lra.
  - inv_bind H.
    destruct (put_event_accounts _ _ _ _ _ _ E) as ((Hc1 & Hc2) & (Hf1 & Hf2) & Hp & Hs & Ht).
    destruct (IH _ H) as (Ip & Is & It & (Ic1 & Ic2) & (If1 & If2)).
    rewrite Hc1 in Is. cbn [filter snd length].
    split; [| split; [| split; [| split; split]]].
    + rewrite Ip, Hp. destruct (IC3yr.left_out e); simpl; lia.
    + intros k. rewrite Is, Hs.
      destruct (IC3yr.counted_in (length (IC3yr.countsmap st)) k e); cbn [length];
        rewrite ?S_INR; lra.
    + rewrite It, Ht, Hp. rewrite plus_INR, S_INR.
      destruct (IC3yr.left_out e); simpl; lra.
    + congruence.
    + intros k. now rewrite Ic2.
    + congruence.
    + intros k. now rewrite If2.
Qed.

(** X12. The loop "put events into healpy maps" of [getFlux_Countmaps]
    accounts for every event: an event is either reported (zero effective
    area at a zenith above 90 degrees) or adds one count to the row of its
    energy bin, and the shapes of both maps are kept.  So when
    [getFlux_Countmaps] returns, the counts map has [NEbin] rows of [npix]
    pixels and its total plus the number of reported events is the number
    of events of the file. *)
Theorem getFlux_Countmaps_accounts_for_every_event :
  (forall logEmin cosZenith_min es st st',
     IC3yr.put_events logEmin cosZenith_min st es = Ok st' ->
     length (IC3yr.printed st')
       = (length (IC3yr.printed st)
          + length (filter (fun ie => IC3yr.left_out (snd ie)) es))%nat /\
     (forall k, np.sumR (nth k (IC3yr.countsmap st') [])
                = np.sumR (nth k (IC3yr.countsmap st) [])
                  + INR (length (filter (fun ie => IC3yr.counted_in
                                                     (length (IC3yr.countsmap st)) k (snd ie))
                                   es))) /\
     length (IC3yr.countsmap st') = length (IC3yr.countsmap st) /\
     length (IC3yr.fluxmap st') = length (IC3yr.fluxmap st)) /\
  (forall ang2pix NEbin npix map_logE_edge Aeff_file AtmBG_file st',
     IC3yr.getFlux_Countmaps ang2pix NEbin npix map_logE_edge Aeff_file AtmBG_file = Ok st' ->
     np.sum2R (IC3yr.countsmap st') + INR (length (IC3yr.printed st'))
       = INR (length AtmBG_file) /\
     length (IC3yr.countsmap st') = NEbin /\ length (IC3yr.fluxmap st') = NEbin /\
     forall k, (k < NEbin)%nat ->
       length (nth k (IC3yr.countsmap st') []) = npix /\
       length (nth k (IC3yr.fluxmap st') []) = npix).
Proof.
  split.
  - intros lE cZ es st st' H.
    destruct (put_events_accounts _ _ _ _ _ H) as (Hp & Hs & _ & (Hc & _) & (Hf & _)).
    auto.
  - intros ang2pix NEbin npix edges Aeff_file AtmBG_file st' H.
    unfold IC3yr.getFlux_Countmaps in H. inv_bind H. inv_bind H. inv_bind H.
    destruct (put_events_accounts _ _ _ _ _ H) as (_ & _ & Ht & (Hc1 & Hc2) & (Hf1 & Hf2)).
    pose proof (mapM_length _ _ _ E1) as Hl.
    rewrite length_combine, length_seq, Nat.min_id, Hl in Ht.
    simpl in Ht, Hc1, Hc2, Hf1, Hf2. rewrite sum2R_zeros in Ht.
    rewrite repeat_length in Hc1, Hf1.
    split; [lra |]. split; [exact Hc1 |]. split; [exact Hf1 |].
    intros k Hk. rewrite Hc2, Hf2, !nth_repeat_lt by exact Hk.
    now rewrite !repeat_length.
Qed.

(** An event with effective area 4 put into empty maps. *)
Lemma getFlux_Countmaps_accounts_sample :
  exists st',
    IC3yr.put_events Sample.logEmin Sample.cosZenith_min (IC3yr.zero_maps 7 12)
      [(0%nat, IC3yr.mkEvent (IC3yr.mkRow 5.5 0 0 120) 34 50 4 3 0)] = Ok st' /\
    length (IC3yr.printed st') = 0%nat /\
    np.sumR (nth 3 (IC3yr.countsmap st') []) = 1 /\
    length (IC3yr.countsmap st') = 7%nat.
Proof.
  destruct (put_event_counted Sample.logEmin Sample.cosZenith_min (IC3yr.zero_maps 7 12) 0
              (IC3yr.mkEvent (IC3yr.mkRow 5.5 0 0 120) 34 50 4 3 0))
    as (st' & Hrun & _).
  - intros [Ha _]. simpl in Ha. lra.
  - unfold IC3yr.on_map. simpl. repeat split; lia.
  - exists st'.
    assert (Hes : IC3yr.put_events Sample.logEmin Sample.cosZenith_min (IC3yr.zero_maps 7 12)
                    [(0%nat, IC3yr.mkEvent (IC3yr.mkRow 5.5 0 0 120) 34 50 4 3 0)] = Ok st').
    { cbn [IC3yr.put_events]. rewrite Hrun. reflexivity. }
    split; [exact Hes |].
    destruct getFlux_Countmaps_accounts_for_every_event as [Hloop _].
    destruct (Hloop _ _ _ _ _ Hes) as (Hp & Hs & Hc & _).
    assert (G : IC3yr.left_out (IC3yr.mkEvent (IC3yr.mkRow 5.5 0 0 120) 34 50 4 3 0) = false).
    { unfold IC3yr.left_out, np.Reqb, np.Rltb. simpl. rdecide; reflexivity. }
    split; [| split].
    + rewrite Hp. simpl. rewrite G. reflexivity.
    + rewrite (Hs 3%nat). simpl. unfold IC3yr.counted_in. rewrite G. simpl.
      lra.
    + rewrite Hc. simpl. reflexivity.
Defined.

(** *** Energies above the last edge *)

Lemma norm_index_overflow (n : nat) : np.norm_index n (Z.of_nat n) = Raise IndexError.
Proof.
  unfold np.norm_index.
  replace ((0 <=? Z.of_nat n) && (Z.of_nat n <? Z.of_nat n))%Z with false
    by (symmetry; apply andb_false_iff; right; apply Z.ltb_ge; lia).
  replace ((- Z.of_nat n <=? Z.of_nat n) && (Z.of_nat n <? 0))%Z with false
    by (symmetry; apply andb_false_iff; right; apply Z.ltb_ge; lia).
  reflexivity.
Qed.

Lemma norm_index_raises (n : nat) (k : Z) (e : exn) :
  np.norm_index n k = Raise e -> e = IndexError.
Proof.
  unfold np.norm_index. intros H.
  destruct ((0 <=? k) && (k <? Z.of_nat n))%Z; [discriminate |].
  destruct ((- Z.of_nat n <=? k) && (k <? 0))%Z; [discriminate |]. now inversion H.
Qed.

Lemma updateM_raises {A : Type} (f : A -> result A) (a : list A) (i : nat) (e : exn) :
  (forall x e', f x = Raise e' -> e' = IndexError) ->
  np.updateM f a i = Raise e -> e = IndexError.
Proof.
  intros Hf. revert i. induction a as [| x a IH]; intros i H; simpl in H.
  - now inversion H.
  - destruct i as [| i].
    + destruct (f x) eqn:E; cbn [bind] in H; [discriminate |].
      inversion H; subst. eapply Hf; eauto.
    + destruct (np.updateM f a i) eqn:E; cbn [bind] in H; [discriminate |].
      inversion H; subst. eapply IH; eauto.
Qed.

Lemma update2_raises {A : Type} (f : A -> A) (m : list (list A)) (b p : nat) (e : exn) :
  np.update2 f m b p = Raise e -> e = IndexError.
Proof.
  unfold np.update2. apply updateM_raises. intros row e'. unfold np.update.
  apply updateM_raises. discriminate.
Qed.

Lemma analyze_put_events_overflow (l : list (Z * nat)) (m : list (list R)) :
  (exists ip, In ip l /\ fst ip = Z.of_nat (length m)) ->
  analyzeICdata.put_events m l = Raise IndexError.
Proof.
  revert m. induction l as [| ip0 l IH]; intros m (ip & Hin & Hip); [contradiction |].
  simpl. unfold analyzeICdata.put_event at 1.
  destruct (np.norm_index (length m) (fst ip0)) as [b | e] eqn:Eb; cbn [bind].
  - destruct (np.update2 (fun v => v + 1) m b (snd ip0)) as [m1 | e] eqn:Eu; cbn [bind].
    + destruct (update2_shape _ _ _ _ _ Eu) as (_ & Hl & _).
      apply IH. destruct Hin as [-> | Hin].
      * rewrite Hip, norm_index_overflow in Eb. discriminate.
      * exists ip. split; [exact Hin | now rewrite Hl].
    + now rewrite (update2_raises _ _ _ _ _ Eu).
  - now rewrite (norm_index_raises _ _ _ Eb).
Qed.

Lemma index_above_last_edge (edges : list R) (logE : R) :
  edges <> [] -> Forall (fun x => x < logE) edges ->
  IC3yr.index_map_logE edges logE = Z.of_nat (length edges - 1).
Proof.
  intros Hne Hall. unfold IC3yr.index_map_logE.
  rewrite (searchsorted_all_below _ _ Hall).
  assert (0 < length edges)%nat by (destruct edges; [contradiction | simpl; lia]).
  destruct (Z.eqb_spec (Z.of_nat (length edges) - 1) (-1)); lia.
Qed.

Lemma in_combine_map {A B C : Type} (f : A -> B) (l : list A) (l2 : list C) (r : A) :
  length l2 = length l -> In r l -> exists p, In (f r, p) (combine (map f l) l2).
Proof.
  revert l2. induction l as [| a l IH]; intros l2 Hlen Hin; [contradiction |].
  destruct l2 as [| c l2]; [discriminate |]. simpl in *.
  destruct Hin as [-> | Hin].
  - exists c. now left.
  - destruct (IH l2) as (p & Hp); [lia | exact Hin |]. exists p. now right.
Qed.

Lemma zipWith_length_gen {A B C : Type} (f : A -> B -> C) (a : list A) (b : list B) :
  length a = length b -> length (np.zipWith f a b) = length a.
Proof.
  revert b. induction a as [| x a IH]; intros [| y b] H; simpl in *; try lia.
  now rewrite IH by lia.
Qed.

(** X13. An event whose log-energy lies above the last edge of the
    partition gets the map index [len(map_logE_edge) - 1], one past the last
    row of the maps: the counts loop of analyzeICdata.py then ends in
    [IndexError] whatever the other events are, and so does the step of
    [getFlux_Countmaps] for such an event that is not left out. *)
Theorem event_above_last_edge_raises_IndexError :
  (forall ang2pix npix map_logE_edge AtmBG_file random_sample r,
     map_logE_edge <> [] -> In r AtmBG_file ->
     Forall (fun x => x < IC3yr.col1 r) map_logE_edge ->
     analyzeICdata.countsmap ang2pix npix map_logE_edge AtmBG_file random_sample
     = Raise IndexError) /\
  (forall logEmin cosZenith_min map_logE_edge st i e logE,
     map_logE_edge <> [] ->
     length (IC3yr.fluxmap st) = (length map_logE_edge - 1)%nat ->
     Forall (fun x => x < logE) map_logE_edge ->
     IC3yr.ev_index_map_logE e = IC3yr.index_map_logE map_logE_edge logE ->
     IC3yr.left_out e = false ->
     IC3yr.put_event logEmin cosZenith_min st (i, e) = Raise IndexError).
Proof.
  split.
  - intros ang2pix npix edges file rs r Hne Hin Hall.
    unfold analyzeICdata.countsmap. apply analyze_put_events_overflow.
    destruct (in_combine_map
                (fun r => IC3yr.index_map_logE edges (IC3yr.col1 r)) file
                (np.zipWith (fun r phi => ang2pix ((180 - IC3yr.col6 r) * PI / 180) phi) file
                   (map (fun k => rs k * 2 * PI) (seq 0 (length file)))) r)
      as (p & Hp); [| exact Hin |].
    + apply zipWith_length_gen. now rewrite length_map, length_seq.
    + exists (IC3yr.index_map_logE edges (IC3yr.col1 r), p). split; [exact Hp |].
      simpl. rewrite repeat_length. now apply index_above_last_edge.
  - intros lE cZ edges st i e logE Hne Hlen Hall Hidx G.
    unfold IC3yr.put_event. unfold IC3yr.left_out in G. rewrite G.
    rewrite Hidx, (index_above_last_edge _ _ Hne Hall), Hlen, norm_index_overflow.
    reflexivity.
Qed.

(** One event of log-energy 9.5 with the edges 2, 3, ..., 9. *)
Lemma event_above_last_edge_sample :
  analyzeICdata.countsmap (fun _ _ => 0%nat) 12 Sample.map_logE_edge
    [IC3yr.mkRow 9.5 0 0 100] (fun _ => 0) = Raise IndexError /\
  IC3yr.put_event Sample.logEmin Sample.cosZenith_min (IC3yr.zero_maps 7 12)
    (0%nat, IC3yr.mkEvent (IC3yr.mkRow 9.5 0 0 120) 69 50 4
              (IC3yr.index_map_logE Sample.map_logE_edge 9.5) 0) = Raise IndexError.
Proof.
  destruct event_above_last_edge_raises_IndexError as [Ha Hb].
  assert (Hall : Forall (fun x => x < 9.5) Sample.map_logE_edge).
  { unfold Sample.map_logE_edge. repeat constructor; lra. }
  split.
  - apply (Ha _ _ _ _ _ (IC3yr.mkRow 9.5 0 0 100)).
    + discriminate.
    + now left.
    + exact Hall.
  - apply (Hb _ _ Sample.map_logE_edge _ _ _ 9.5).
    + discriminate.
    + reflexivity.
    + exact Hall.
    + reflexivity.
    + unfold IC3yr.left_out, np.Reqb, np.Rltb. simpl. rdecide; reflexivity.
Defined.

(** X14. An event that is left out (zero effective area, zenith above 90
    degrees) and whose log-energy lies above every lower edge of the table
    is in the table's last energy bin; its diagnostic print reads
    [logEmin[index_E_Aeff_table + 1]], one past the end of the array, and
    the loop ends in [IndexError]. *)
Theorem left_out_event_in_last_energy_bin_raises_IndexError
  (logEmin cosZenith_min : list R) (st : IC3yr.maps) (i : nat) (e : IC3yr.event) :
  logEmin <> [] ->
  Forall (fun x => x < IC3yr.col1 (IC3yr.ev_row e)) logEmin ->
  IC3yr.ev_index_E e = IC3yr.index_E_Aeff_table logEmin (IC3yr.col1 (IC3yr.ev_row e)) ->
  IC3yr.left_out e = true ->
  IC3yr.put_event logEmin cosZenith_min st (i, e) = Raise IndexError.
Proof.
  intros Hne Hall Hidx G.
  unfold IC3yr.put_event. unfold IC3yr.left_out in G. rewrite G.
  unfold IC3yr.check_event. rewrite Hidx. unfold IC3yr.index_E_Aeff_table.
  rewrite (searchsorted_all_below _ _ Hall).
  assert (Hpos : (0 < length logEmin)%nat) by (destruct logEmin; [contradiction | simpl; lia]).
  destruct (Z.eqb_spec (Z.of_nat (length logEmin) - 1) (-1)) as [Hm | _]; [lia |].
  rewrite (getitem_in_range _ _ 0) by lia. cbn [bind].
  replace (Z.of_nat (length logEmin) - 1 + 1)%Z with (Z.of_nat (length logEmin)) by lia.
  unfold np.getitem. rewrite norm_index_overflow. reflexivity.
Qed.

(** An event of log-energy 9.5, zenith 120 degrees and zero effective area
    on the sample grid, whose last lower edge is 8.9. *)
Lemma left_out_event_in_last_energy_bin_sample :
  IC3yr.put_event Sample.logEmin Sample.cosZenith_min (IC3yr.zero_maps 7 12)
    (0%nat, IC3yr.mkEvent (IC3yr.mkRow 9.5 0 0 120)
              (IC3yr.index_E_Aeff_table Sample.logEmin 9.5) 50 0 3 0) = Raise IndexError.
Proof.
  apply left_out_event_in_last_energy_bin_raises_IndexError.
  - discriminate.
  - apply Forall_forall. intros x Hx. apply in_map_iff in Hx.
    destruct Hx as (k & <- & Hk). apply in_seq in Hk.
    pose proof (INR_below k 70 ltac:(lia)) as Hb. simpl in Hb |- *. lra.
  - reflexivity.
  - unfold IC3yr.left_out, np.Reqb, np.Rltb. simpl. rdecide; reflexivity.
Defined.

(** ** The axes of the effective-area table *)

Lemma chunks_length (w n : nat) (a : list R) : length (IC3yr.chunks w n a) = n.
Proof. revert a. induction n as [| n IH]; intro a; simpl; [reflexivity | now rewrite IH]. Qed.

Lemma chunks_nth (w n : nat) (a : list R) (k : nat) :
  (k < n)%nat -> nth k (IC3yr.chunks w n a) [] = firstn w (skipn (k * w) a).
Proof.
  revert a k. induction n as [| n IH]; intros a k Hk; [lia |].
  destruct k as [| k]; simpl IC3yr.chunks; cbn [nth].
  - reflexivity.
  - rewrite IH by lia. rewrite skipn_skipn. f_equal. f_equal. simpl. lia.
Qed.

Lemma chunks_head (w n : nat) (a : list R) :
  IC3yr.chunks w (S n) a = firstn w a :: IC3yr.chunks w n (skipn w a).
Proof. reflexivity. Qed.

Lemma first_items (rows : list (list R)) :
  Forall (fun r => r <> []) rows ->
  mapM first_item rows = Ok (map (fun r => nth 0 r 0) rows).
Proof.
  intros H. apply mapM_pure. intros r Hr.
  rewrite Forall_forall in H. specialize (H r Hr). destruct r; [contradiction | reflexivity].
Qed.

(** X15. The axes of the effective-area table are read off the file by its
    layout: with exactly 70 x 200 rows, [logEmin] has 70 entries, entry [k]
    being [log10] of column 0 of row [200 k], [cosZenith_min] has 200
    entries, entry [j] being column 2 of row [j], and the table has
    70 x 200 entries; with any other number of rows [np.reshape] raises
    [ValueError]. *)
Theorem Aeff_table_axes (Aeff_file : list IC3yr.Aeff_row) :
  (length Aeff_file = (70 * 200)%nat ->
   exists logEmin cosZenith_min,
     IC3yr.logEmin Aeff_file = Ok logEmin /\
     IC3yr.cosZenith_min Aeff_file = Ok cosZenith_min /\
     length logEmin = 70%nat /\ length cosZenith_min = 200%nat /\
     length (IC3yr.Aeff_table Aeff_file) = (70 * 200)%nat /\
     (forall k, (k < 70)%nat ->
        nth k logEmin 0 = np.log10 (nth (k * 200) (map IC3yr.col_Emin Aeff_file) 0)) /\
     (forall j, (j < 200)%nat ->
        nth j cosZenith_min 0 = nth j (map IC3yr.col_cosZmin Aeff_file) 0)) /\
  (length Aeff_file <> (70 * 200)%nat ->
   IC3yr.logEmin Aeff_file = Raise ValueError /\
   IC3yr.cosZenith_min Aeff_file = Raise ValueError).
Proof.
  split.
  - intros Hlen.
    assert (HE : length (map IC3yr.col_Emin Aeff_file) = (70 * 200)%nat)
      by now rewrite length_map.
    assert (HZ : length (map IC3yr.col_cosZmin Aeff_file) = (70 * 200)%nat)
      by now rewrite length_map.
    set (aE := map IC3yr.col_Emin Aeff_file) in *.
    set (aZ := map IC3yr.col_cosZmin Aeff_file) in *.
    assert (Hrows : Forall (fun r => r <> []) (IC3yr.chunks 200 70 aE)).
    { apply Forall_forall. intros r Hr.
      destruct (In_nth _ _ [] Hr) as (k & Hk & <-). rewrite chunks_length in Hk.
      rewrite chunks_nth by exact Hk. intros Hnil.
      apply (f_equal (@length R)) in Hnil. rewrite length_firstn, length_skipn, HE in Hnil.
      simpl length in Hnil. lia. }
    exists (map np.log10 (map (fun r => nth 0 r 0) (IC3yr.chunks 200 70 aE))),
      (firstn 200 aZ).
    split; [| split; [| split; [| split; [| split; [| split]]]]].
    + unfold IC3yr.logEmin, IC3yr.reshape_70_200. fold aE.
      rewrite (proj2 (Nat.eqb_eq _ _) HE). cbn [bind].
      rewrite (first_items _ Hrows). reflexivity.
    + unfold IC3yr.cosZenith_min, IC3yr.reshape_70_200. fold aZ.
      rewrite (proj2 (Nat.eqb_eq _ _) HZ). cbn [bind].
      rewrite (chunks_head 200 69). reflexivity.
    + now rewrite !length_map, chunks_length.
    + rewrite length_firstn, HZ. lia.
    + unfold IC3yr.Aeff_table. now rewrite length_map.
    + intros k Hk.
      rewrite (nth_map_in _ _ _ _ 0) by now rewrite length_map, chunks_length.
      rewrite (nth_map_in _ _ _ _ []) by now rewrite chunks_length.
      rewrite chunks_nth by exact Hk. rewrite nth_firstn, nth_skipn.
      replace (k * 200 + 0)%nat with (k * 200)%nat by lia. reflexivity.
    + intros j Hj. rewrite nth_firstn.
      destruct (Nat.ltb_spec j 200); [reflexivity | lia].
  - intros Hlen. unfold IC3yr.logEmin, IC3yr.cosZenith_min, IC3yr.reshape_70_200.
    rewrite !length_map, (proj2 (Nat.eqb_neq _ _) Hlen). split; reflexivity.
Qed.

(** ** Two binnings of the log-energy *)

Lemma hist_counts_nth (edges : list R) (i : nat) (x : list R) :
  (S i < length edges)%nat ->
  nth i (np.hist_counts edges x) 0%Z
  = Z.of_nat (length (filter (np.in_bin (nth i edges 0) (nth (S i) edges 0)
                                (S (S i) =? length edges)%nat) x)).
Proof.
  revert i. induction edges as [| lo tl IH]; intros i Hi; [simpl in Hi; lia |].
  destruct tl as [| hi rest]; [simpl in Hi; lia |].
  change (np.hist_counts (lo :: hi :: rest) x)
    with (Z.of_nat (length (filter (np.in_bin lo hi
                                      (match rest with [] => true | _ => false end)) x))
          :: np.hist_counts (hi :: rest) x).
  destruct i as [| i].
  - cbn [nth]. destruct rest; reflexivity.
  - cbn [nth]. rewrite IH by (simpl in Hi |- *; lia). reflexivity.
Qed.

Lemma sorted_lt_le (l : list R) : StronglySorted Rlt l -> StronglySorted Rle l.
Proof.
  induction 1 as [| a l _ IH Hall]; constructor; [exact IH |].
  eapply Forall_impl; [| exact Hall]. intros x Hx. lra.
Qed.

Lemma sorted_lt_nth (l : list R) (i j : nat) :
  StronglySorted Rlt l -> (i < j < length l)%nat -> nth i l 0 < nth j l 0.
Proof.
  intros H. revert i j. induction H as [| a l _ IH Hall]; intros i j Hij; [simpl in Hij; lia |].
  destruct j as [| j]; [lia |]. destruct i as [| i]; cbn [nth].
  - rewrite Forall_forall in Hall. apply Hall. apply nth_In. simpl in Hij. lia.
  - apply IH. simpl in Hij. lia.
Qed.

Lemma sorted_increasing (l : list R) : StronglySorted Rle l -> np.increasing l = true.
Proof.
  induction 1 as [| a l _ IH Hall]; [reflexivity |].
  destruct l as [| b l]; [reflexivity |].
  change (np.increasing (a :: b :: l)) with (np.Rleb a b && np.increasing (b :: l)).
  rewrite IH. inversion Hall; subst. unfold np.Rleb.
  destruct (Rle_dec a b); [reflexivity | contradiction].
Qed.

Lemma searchsorted_between (edges : list R) (v : R) (i : nat) :
  StronglySorted Rle edges -> (S i < length edges)%nat ->
  nth i edges 0 < v -> v <= nth (S i) edges 0 -> np.searchsorted edges v = S i.
Proof.
  intros Hs Hi Hlo Hhi. destruct (searchsorted_sorted edges v Hs) as [Hb Ha].
  pose proof (searchsorted_le_length edges v) as Hle.
  destruct (Nat.lt_trichotomy (np.searchsorted edges v) (S i)) as [Hlt | [Heq | Hgt]].
  - specialize (Ha i ltac:(lia)). lra.
  - exact Heq.
  - specialize (Hb (S i) Hgt). lra.
Qed.

(** X16. The event numbers per energy bin ([np.histogram], half-open bins
    closed on the left) and the energy index of the maps
    ([np.searchsorted - 1], bins closed on the right, -1 sent to 0) are two
    binnings of the same edges.  On strictly increasing edges they agree
    for a log-energy strictly inside a bin; a log-energy on an inner edge
    is counted by the histogram in the bin above the one the maps use; a
    log-energy below the first edge is in no bin of the histogram and in
    row 0 of the maps. *)
Theorem histogram_and_map_index_bins (edges : list R) (x : R) (i : nat) :
  StronglySorted Rlt edges -> (S i < length edges)%nat ->
  (nth i edges 0 < x < nth (S i) edges 0 ->
   nth i (np.hist_counts edges [x]) 0%Z = 1%Z /\
   IC3yr.index_map_logE edges x = Z.of_nat i) /\
  (x = nth (S i) edges 0 -> (S (S i) < length edges)%nat ->
   nth (S i) (np.hist_counts edges [x]) 0%Z = 1%Z /\
   nth i (np.hist_counts edges [x]) 0%Z = 0%Z /\
   IC3yr.index_map_logE edges x = Z.of_nat i) /\
  (x < nth 0 edges 0 ->
   np.sum (np.hist_counts edges [x]) = 0%Z /\ IC3yr.index_map_logE edges x = 0%Z).
Proof.
  intros Hs Hi. pose proof (sorted_lt_le _ Hs) as Hle.
  assert (Hidx : nth i edges 0 < x -> x <= nth (S i) edges 0 ->
                 IC3yr.index_map_logE edges x = Z.of_nat i).
  { intros H1 H2. unfold IC3yr.index_map_logE.
    rewrite (searchsorted_between edges x i Hle Hi H1 H2).
    destruct (Z.eqb_spec (Z.of_nat (S i) - 1) (-1)); lia. }
  split; [| split].
  - intros [H1 H2]. split; [| apply Hidx; lra].
    rewrite hist_counts_nth by exact Hi. cbn [filter].
    unfold np.in_bin, np.Rleb, np.Rltb.
    destruct (Rle_dec (nth i edges 0) x), (Rlt_dec x (nth (S i) edges 0));
      simpl; try reflexivity; exfalso; lra.
  - intros Hx Hi2.
    pose proof (sorted_lt_nth edges i (S i) Hs ltac:(lia)) as Hlt1.
    pose proof (sorted_lt_nth edges (S i) (S (S i)) Hs ltac:(lia)) as Hlt2.
    split; [| split; [| apply Hidx; lra]].
    + rewrite hist_counts_nth by exact Hi2. cbn [filter].
      unfold np.in_bin, np.Rleb, np.Rltb.
      destruct (Rle_dec (nth (S i) edges 0) x), (Rlt_dec x (nth (S (S i)) edges 0));
        simpl; try reflexivity; exfalso; lra.
    + rewrite hist_counts_nth by exact Hi. cbn [filter].
      destruct (Nat.eqb_spec (S (S i)) (length edges)) as [He | _]; [lia |].
      unfold np.in_bin, np.Rleb, np.Rltb.
      destruct (Rle_dec (nth i edges 0) x), (Rlt_dec x (nth (S i) edges 0));
        simpl; try reflexivity; exfalso; lra.
  - intros Hx. split.
    + destruct edges as [| lo [| hi rest]]; [simpl in Hi; lia | simpl in Hi; lia |].
      rewrite (hist_counts_sum rest lo hi _ (sorted_increasing _ Hle)). cbn [filter nth] in *.
      unfold np.Rleb. destruct (Rle_dec lo x); [exfalso; lra | reflexivity].
    + unfold IC3yr.index_map_logE.
      rewrite (searchsorted_below_first edges x Hle); [reflexivity | lra | lia].
Qed.

Lemma sample_edges_sorted : StronglySorted Rlt Sample.map_logE_edge.
Proof.
  unfold Sample.map_logE_edge. repeat (constructor; [| repeat constructor; lra]). constructor.
Qed.

(** The log-energy 3, an inner edge of the partition 2, 3, ..., 9: bin 1
    of the histogram, row 0 of the maps. *)
Lemma histogram_and_map_index_bins_sample :
  nth 1 (np.hist_counts Sample.map_logE_edge [3]) 0%Z = 1%Z /\
  nth 0 (np.hist_counts Sample.map_logE_edge [3]) 0%Z = 0%Z /\
  IC3yr.index_map_logE Sample.map_logE_edge 3 = Z.of_nat 0.
Proof.
  destruct (histogram_and_map_index_bins Sample.map_logE_edge 3 0 sample_edges_sorted)
    as (_ & H & _).
  - simpl. lia.
  - apply H.
    + reflexivity.
    + simpl. lia.
Defined.

(** ** The counts of analyzeICdata.py *)

Lemma index_map_logE_nonneg (edges : list R) (x : R) :
  (0 <= IC3yr.index_map_logE edges x)%Z.
Proof.
  unfold IC3yr.index_map_logE.
  destruct (Z.eqb_spec (Z.of_nat (np.searchsorted edges x) - 1) (-1)); lia.
Qed.

Lemma norm_index_nonneg_inv (n : nat) (k : Z) (b : nat) :
  (0 <= k)%Z -> np.norm_index n k = Ok b -> b = Z.to_nat k.
Proof.
  unfold np.norm_index. intros Hk H.
  destruct ((0 <=? k) && (k <? Z.of_nat n))%Z; [now inversion H |].
  destruct ((- Z.of_nat n <=? k) && (k <? 0))%Z eqn:C; [| discriminate].
  apply andb_true_iff in C. lia.
Qed.

Lemma analyze_put_events_accounts (l : list (Z * nat)) (m m' : list (list R)) :
  analyzeICdata.put_events m l = Ok m' -> Forall (fun ip => (0 <= fst ip)%Z) l ->
  length m' = length m /\
  (forall k, length (nth k m' []) = length (nth k m [])) /\
  (forall k, np.sumR (nth k m' [])
             = np.sumR (nth k m [])
               + INR (length (filter (fun ip => (fst ip =? Z.of_nat k)%Z) l))) /\
  np.sum2R m' = np.sum2R m + INR (length l).
Proof.
  revert m. induction l as [| ip l IH]; intros m H Hall; simpl in H.
  - inversion H; subst. simpl. repeat split; auto; try lra. intros k. lra.
  - inv_bind H. inversion Hall as [| ? ? Hip Hall']; subst.
    destruct (IH _ H Hall') as (Il & Ir & Is & It).
    unfold analyzeICdata.put_event in E. inv_bind E.
    pose proof (norm_index_nonneg_inv _ _ _ Hip E0) as Hb.
    pose proof (norm_index_range _ _ _ E0) as Hbn.
    destruct (update2_shape _ _ _ _ _ E) as (_ & Hl & Hr).
    destruct (update2_sumR _ _ _ _ E) as (Hs & Ht).
    split; [congruence |]. split; [intros k; now rewrite Ir |]. split.
    + intros k. rewrite Is, Hs. cbn [filter].
      destruct (Nat.eqb_spec a0 k) as [Hk | Hk];
        destruct (Z.eqb_spec (fst ip) (Z.of_nat k)) as [Hz | Hz]; try lia;
        cbn [length]; rewrite ?S_INR; lra.
    + rewrite It, Ht. cbn [length]. rewrite S_INR. lra.
Qed.

Lemma filter_combine_fst {A C : Type} (f : A -> Z) (k : Z) (l : list A) (l2 : list C) :
  length l2 = length l ->
  length (filter (fun ip => (fst ip =? k)%Z) (combine (map f l) l2))
  = length (filter (fun r => (f r =? k)%Z) l).
Proof.
  revert l2. induction l as [| a l IH]; intros [| c l2] H; simpl in *; try lia.
  destruct (f a =? k)%Z; simpl; rewrite IH by lia; reflexivity.
Qed.

(** X17. The counts map of analyzeICdata.py counts every event of the
    file, none is left out: when the loop returns, the map has one row per
    energy bin, row [k] sums to the number of events whose energy index is
    [k], and the whole map sums to the number of events. *)
Theorem analyze_countsmap_counts_every_event (ang2pix : R -> R -> nat) (npix : nat)
  (map_logE_edge : list R) (AtmBG_file : list IC3yr.event_row) (random_sample : nat -> R)
  (countsmap : list (list R)) :
  analyzeICdata.countsmap ang2pix npix map_logE_edge AtmBG_file random_sample = Ok countsmap ->
  length countsmap = (length map_logE_edge - 1)%nat /\
  (forall k, (k < length map_logE_edge - 1)%nat -> length (nth k countsmap []) = npix) /\
  (forall k, np.sumR (nth k countsmap [])
             = INR (length (filter (fun r => (IC3yr.index_map_logE map_logE_edge (IC3yr.col1 r)
                                              =? Z.of_nat k)%Z) AtmBG_file))) /\
  np.sum2R countsmap = INR (length AtmBG_file).
Proof.
  unfold analyzeICdata.countsmap. intros H.
  assert (Hz : length (np.zipWith
                         (fun r phi => ang2pix ((180 - IC3yr.col6 r) * PI / 180) phi)
                         AtmBG_file
                         (map (fun k => random_sample k * 2 * PI) (seq 0 (length AtmBG_file))))
               = length AtmBG_file).
  { apply zipWith_length_gen. now rewrite length_map, length_seq. }
  destruct (analyze_put_events_accounts _ _ _ H) as (Hl & Hr & Hs & Ht).
  { apply Forall_forall. intros [z p] Hin. apply in_combine_l in Hin.
    apply in_map_iff in Hin. destruct Hin as (r & <- & _). apply index_map_logE_nonneg. }
  rewrite repeat_length in Hl. split; [exact Hl |]. split; [| split].
  - intros k Hk. rewrite Hr, nth_repeat_lt by exact Hk. apply repeat_length.
  - intros k. rewrite Hs, filter_combine_fst by exact Hz.
    replace (np.sumR (nth k (repeat (repeat 0 npix) (length map_logE_edge - 1)) [])) with 0;
      [lra |].
    destruct (Nat.lt_ge_cases k (length map_logE_edge - 1)) as [Hk | Hk].
    + rewrite nth_repeat_lt by exact Hk. symmetry. apply sumR_zeros.
    + rewrite nth_overflow by now rewrite repeat_length. reflexivity.
  - rewrite Ht, sum2R_zeros, length_combine, length_map, Hz, Nat.min_id. lra.
Qed.

(** **** Histograms over all values *)

Lemma hist_counts_sum_all (edges : list R) (x : list R) :
  np.increasing edges = true -> (2 <= length edges)%nat ->
  Forall (fun v => nth 0 edges 0 <= v <= last edges 0) x ->
  np.sum (np.hist_counts edges x) = Z.of_nat (length x).
Proof.
  intros Hinc Hlen Hall.
  destruct edges as [| lo [| hi rest]]; [simpl in Hlen; lia | simpl in Hlen; lia |].
  rewrite (hist_counts_sum rest lo hi _ Hinc), filter_all; [reflexivity |].
  eapply Forall_impl; [| exact Hall]. intros v [H1 H2].
  change (last (lo :: hi :: rest) 0) with (last (hi :: rest) 0) in H2. cbn [nth] in H1.
  unfold np.Rleb.
  destruct (Rle_dec lo v), (Rle_dec v (last (hi :: rest) 0)); simpl;
    try reflexivity; exfalso; lra.
Qed.

Lemma linspace_length (lo hi : R) (n : nat) : length (np.linspace lo hi n) = n.
Proof. unfold np.linspace. now rewrite length_map, length_seq. Qed.

Lemma linspace_increasing (lo hi : R) (n : nat) :
  lo <= hi -> (2 <= n)%nat -> np.increasing (np.linspace lo hi n) = true.
Proof.
  intros Hle Hn. apply sorted_increasing. unfold np.linspace. apply sorted_map_seq.
  intros i j Hij. apply le_INR in Hij.
  assert (Hpos : 0 < INR (n - 1)) by (apply lt_0_INR; lia).
  assert (Hstep : 0 <= (hi - lo) / INR (n - 1)).
  { apply Rmult_le_pos; [lra |]. left. now apply Rinv_0_lt_compat. }
  nra.
Qed.

Lemma linspace_ends (lo hi : R) (n : nat) :
  (1 <= n)%nat ->
  nth 0 (np.linspace lo hi (S n)) 0 = lo /\ last (np.linspace lo hi (S n)) 0 = hi.
Proof.
  intros Hn. unfold np.linspace. split.
  - cbn [seq map nth]. simpl INR. lra.
  - rewrite seq_S, map_app. cbn [map]. rewrite last_last.
    replace (S n - 1)%nat with n by lia. cbn [Nat.add].
    assert (Hpos : 0 < INR n) by (apply lt_0_INR; lia).
    field. lra.
Qed.

Lemma add_counts_spec (acc : list R) (c : list Z) :
  length acc = length c ->
  exists r, analyzeICdata.add_counts acc c = Ok r /\ length r = length acc /\
            np.sumR r = np.sumR acc + IZR (np.sum c) /\
            (Forall (fun x => 0 <= x) acc -> Forall (fun k => (0 <= k)%Z) c ->
             Forall (fun x => 0 <= x) r).
Proof.
  revert c. induction acc as [| x acc IH]; intros [| k c] H; simpl in H; try lia.
  - exists []. simpl. repeat split; auto. unfold np.sum. simpl. lra.
  - destruct (IH c) as (r & Hr & Hl & Hs & Hn); [lia |].
    exists (x + IZR k :: r). simpl. rewrite Hr. cbn [bind].
    split; [reflexivity |]. split; [now rewrite Hl |]. split.
    + rewrite Hs. unfold np.sum. simpl. rewrite plus_IZR. lra.
    + intros Ha Hc. inversion Ha as [| ? ? Hx Ha']; subst.
      inversion Hc as [| ? ? Hk Hc']; subst.
      constructor; [| now apply Hn]. apply IZR_le in Hk. lra.
Qed.

Lemma N_coszenith_accounts (edges : list R) (i : nat) (files : list (list IC3yr.event_row))
  (acc : list R) :
  length acc = analyzeICdata.Nzenith_bin ->
  exists N,
    analyzeICdata.N_coszenith edges i acc files = Ok N /\
    length N = analyzeICdata.Nzenith_bin /\
    np.sumR N
    = np.sumR acc
      + INR (length (filter (fun r => (IC3yr.index_map_logE edges (IC3yr.col1 r)
                                       =? Z.of_nat i)%Z) (concat files))).
Proof.
  revert acc. induction files as [| f files IH]; intros acc Hacc.
  - exists acc. simpl. repeat split; auto. lra.
  - cbn [analyzeICdata.N_coszenith]. unfold analyzeICdata.N_coszenith_i, np.histogram_counts.
    unfold analyzeICdata.Nzenith_bin in *.
    change (60 + 1)%nat with (S 60).
    rewrite (linspace_increasing (-1) 1 (S 60)) by (try lra; lia). cbn [bind].
    set (x := map (fun r => analyzeICdata.coszenith (IC3yr.col6 r))
                (filter (fun r => (IC3yr.index_map_logE edges (IC3yr.col1 r) =? Z.of_nat i)%Z)
                   f)).
    destruct (hist_counts_shape (np.linspace (-1) 1 (S 60)) x) as [Hs1 _].
    rewrite linspace_length in Hs1.
    destruct (add_counts_spec acc (np.hist_counts (np.linspace (-1) 1 (S 60)) x))
      as (acc' & Ha & Hl & Hs & _); [rewrite Hs1, Hacc; reflexivity |].
    rewrite Ha. cbn [bind].
    destruct (IH acc') as (N & HN & HlN & HsN); [congruence |].
    exists N. split; [exact HN |]. split; [exact HlN |].
    rewrite HsN, Hs. cbn [concat]. rewrite filter_app, length_app, plus_INR.
    rewrite hist_counts_sum_all.
    + unfold x. rewrite length_map, <- INR_IZR_INZ. lra.
    + apply linspace_increasing; [lra | lia].
    + rewrite linspace_length. lia.
    + destruct (linspace_ends (-1) 1 60 ltac:(lia)) as [-> ->].
      unfold x. apply Forall_map. apply Forall_forall. intros r _.
      unfold analyzeICdata.coszenith. apply COS_bound.
Qed.

(** X18. The zenith distribution of analyzeICdata.py never raises and
    loses no event: for each energy bin the histogram has [Nzenith_bin]
    entries and they add up to the number of events of that energy index
    in the files, because a cosine always lies within the range [-1, 1] of
    the histogram. *)
Theorem N_coszenith_counts_every_event (map_logE_edge : list R) (i : nat)
  (files : list (list IC3yr.event_row)) :
  exists N,
    analyzeICdata.N_coszenith map_logE_edge i (repeat 0 analyzeICdata.Nzenith_bin) files
      = Ok N /\
    length N = analyzeICdata.Nzenith_bin /\
    np.sumR N
    = INR (length (filter (fun r => (IC3yr.index_map_logE map_logE_edge (IC3yr.col1 r)
                                     =? Z.of_nat i)%Z) (concat files))).
Proof.
  destruct (N_coszenith_accounts map_logE_edge i files (repeat 0 analyzeICdata.Nzenith_bin))
    as (N & HN & Hl & Hs); [apply repeat_length |].
  exists N. split; [exact HN |]. split; [exact Hl |]. rewrite Hs, sumR_zeros. lra.
Qed.

Lemma eventnumber_Ebin_accounts (edges : list R) (files : list (list IC3yr.event_row))
  (acc : list R) :
  np.increasing edges = true -> (2 <= length edges)%nat ->
  length acc = (length edges - 1)%nat ->
  exists n,
    analyzeICdata.eventnumber_Ebin edges acc files = Ok n /\
    length n = (length edges - 1)%nat /\
    (Forall (fun x => 0 <= x) acc -> Forall (fun x => 0 <= x) n) /\
    np.sumR n
    = np.sumR acc
      + INR (length (filter (fun r => np.Rleb (nth 0 edges 0) (IC3yr.col1 r)
                                      && np.Rleb (IC3yr.col1 r) (last edges 0))
                       (concat files))).
Proof.
  intros Hinc Hlen. revert acc. induction files as [| f files IH]; intros acc Hacc.
  - exists acc. simpl. repeat split; auto. lra.
  - cbn [analyzeICdata.eventnumber_Ebin]. unfold np.histogram_counts. rewrite Hinc.
    cbn [bind].
    destruct (hist_counts_shape edges (map IC3yr.col1 f)) as [Hs1 Hs2].
    destruct (add_counts_spec acc (np.hist_counts edges (map IC3yr.col1 f)))
      as (acc' & Ha & Hl & Hs & Hn); [congruence |].
    rewrite Ha. cbn [bind].
    destruct (IH acc') as (n & Hn' & Hln & Hnn & Hsn); [congruence |].
    exists n. split; [exact Hn' |]. split; [exact Hln |]. split; [auto |].
    rewrite Hsn, Hs. cbn [concat]. rewrite filter_app, length_app, plus_INR.
    destruct edges as [| lo [| hi rest]]; [simpl in Hlen; lia | simpl in Hlen; lia |].
    rewrite (hist_counts_sum rest lo hi _ Hinc).
    change (last (lo :: hi :: rest) 0) with (last (hi :: rest) 0). cbn [nth].
    rewrite <- INR_IZR_INZ.
    replace (length (filter (fun v => np.Rleb lo v && np.Rleb v (last (hi :: rest) 0))
                       (map IC3yr.col1 f)))
      with (length (filter (fun r => np.Rleb lo (IC3yr.col1 r)
                                     && np.Rleb (IC3yr.col1 r) (last (hi :: rest) 0)) f)).
    + lra.
    + clear. induction f as [| r f IH]; cbn [filter map]; [reflexivity |].
      destruct (np.Rleb lo (IC3yr.col1 r) && np.Rleb (IC3yr.col1 r) (last (hi :: rest) 0));
        cbn [length]; now rewrite IH.
Qed.

Lemma sumR_halves (l : list R) : np.sumR (map (fun x => x / 2) l) = np.sumR l / 2.
Proof. induction l as [| x l IH]; simpl; [lra | rewrite IH; lra]. Qed.

(** X19. The event numbers per energy bin that analyzeICdata.py saves for
    the generator hold, on increasing edges, one non-negative entry per bin,
    and twice their sum is the number of events of the two IC86 files whose
    log-energy lies between the first and the last edge: events outside the
    edges are in no bin.  On edges that are not increasing
    [np.histogram] raises [ValueError]. *)
Theorem eventNumber_Ebin_counts_inside_the_edges (map_logE_edge : list R)
  (IC86_2012 IC86_2011 : list IC3yr.event_row) :
  (np.increasing map_logE_edge = true -> (2 <= length map_logE_edge)%nat ->
   exists n,
     analyzeICdata.eventNumber_Ebin_perIC86year map_logE_edge IC86_2012 IC86_2011 = Ok n /\
     length n = (length map_logE_edge - 1)%nat /\
     Forall (fun x => 0 <= x) n /\
     2 * np.sumR n
     = INR (length (filter (fun r => np.Rleb (nth 0 map_logE_edge 0) (IC3yr.col1 r)
                                     && np.Rleb (IC3yr.col1 r) (last map_logE_edge 0))
                      (IC86_2012 ++ IC86_2011)))) /\
  (np.increasing map_logE_edge = false ->
   analyzeICdata.eventNumber_Ebin_perIC86year map_logE_edge IC86_2012 IC86_2011
   = Raise ValueError).
Proof.
  split.
  - intros Hinc Hlen. unfold analyzeICdata.eventNumber_Ebin_perIC86year.
    destruct (eventnumber_Ebin_accounts map_logE_edge [IC86_2012; IC86_2011]
                (repeat 0 (length map_logE_edge - 1)) Hinc Hlen)
      as (n & Hn & Hl & Hnn & Hs); [apply repeat_length |].
    rewrite Hn. cbn [bind]. exists (map (fun x => x / 2) n).
    split; [reflexivity |]. split; [now rewrite length_map |]. split.
    + apply Forall_map. eapply Forall_impl; [| apply Hnn].
      * intros x Hx. cbv beta. lra.
      * clear. induction (length map_logE_edge - 1)%nat; simpl; constructor; auto. lra.
    + rewrite sumR_halves, Hs, sumR_zeros. cbn [concat]. rewrite app_nil_r. lra.
  - intros Hinc. unfold analyzeICdata.eventNumber_Ebin_perIC86year.
    cbn [analyzeICdata.eventnumber_Ebin]. unfold np.histogram_counts. rewrite Hinc.
    reflexivity.
Qed.

(** ** The expected astrophysical counts of the constructor *)

Lemma fold_left_Rmax_spec (l : list R) (x : R) :
  In (fold_left Rmax l x) (x :: l) /\ Forall (fun y => y <= fold_left Rmax l x) (x :: l).
Proof.
  revert x. induction l as [| y l IH]; intro x; cbn [fold_left].
  - split; [now left | constructor; [lra | constructor]].
  - destruct (IH (Rmax x y)) as [Hin Hall]. split.
    + destruct Hin as [H | H]; [| right; now right].
      rewrite <- H. unfold Rmax. destruct (Rle_dec x y); [right; now left | now left].
    + inversion Hall as [| ? ? Hm Hall']; subst.
      pose proof (Rmax_l x y). pose proof (Rmax_r x y).
      constructor; [lra |]. constructor; [lra | exact Hall'].
Qed.

(** The count of a bin is a positive multiple of its largest effective
    area. *)
Lemma Nastro_1yr_Aeffmax_bin_factor (c dlogE : R) :
  0 < dlogE ->
  exists K, 0 < K /\ forall a, Nastro_1yr_Aeffmax_bin c dlogE a = K * a.
Proof.
  intros Hd.
  exists (dN_dE_astro (Rpower 10 c) * (Rpower 10 c * ln 10 * dlogE) * 1E4
          * (333 * 24 * 3600) * 4 * PI).
  split.
  - unfold dN_dE_astro, Rpower.
    pose proof (exp_pos (c * ln 10)) as H1.
    pose proof (exp_pos (-2.28 * ln (exp (c * ln 10) / 100e3))) as H2.
    pose proof ln_10_pos as H3. pose proof PI_RGT_0 as H4.
    repeat (first [lra | apply Rmult_lt_0_compat]).
  - intros a. unfold Nastro_1yr_Aeffmax_bin. ring.
Qed.

(** X20. On effective-area maps with one non-empty row of non-negative
    values per energy bin, the constructor's loop returns one expected
    astrophysical count per bin, none of them negative, and the count of a
    bin is zero exactly when the effective area of that bin is zero in
    every pixel. *)
Theorem init_Nastro_1yr_Aeffmax_zero_iff_no_area (NEbin : nat) (map_logE_center : list R)
  (dlogE : R) (aeff : list (list R)) :
  length map_logE_center = NEbin -> length aeff = NEbin -> 0 < dlogE ->
  Forall (fun row => row <> [] /\ Forall (fun a => 0 <= a) row) aeff ->
  exists N,
    init_Nastro_1yr_Aeffmax NEbin map_logE_center dlogE aeff = Ok N /\
    length N = NEbin /\
    Forall (fun x => 0 <= x) N /\
    forall i, (i < NEbin)%nat ->
      (nth i N 0 = 0 <-> Forall (fun a => a = 0) (nth i aeff [])).
Proof.
  intros Hc Ha Hd Hrows. unfold init_Nastro_1yr_Aeffmax.
  set (maxf := fun row : list R => fold_left Rmax (tl row) (hd 0 row)).
  rewrite (mapM_pure np.max maxf aeff).
  2:{ intros row Hin. rewrite Forall_forall in Hrows. destruct (Hrows row Hin) as [Hne _].
      destruct row; [contradiction | reflexivity]. }
  cbn [bind].
  set (h := fun i => Nastro_1yr_Aeffmax_bin (nth i map_logE_center 0) dlogE
                       (nth i (map maxf aeff) 0)).
  rewrite (mapM_pure _ h (seq 0 NEbin)).
  2:{ intros i Hi. apply in_seq in Hi.
      rewrite (getitem_in_range _ _ 0) by lia. cbn [bind].
      rewrite (getitem_in_range _ _ 0) by (rewrite length_map; lia). cbn [bind].
      unfold h. now rewrite Nat2Z.id. }
  exists (map h (seq 0 NEbin)). split; [reflexivity |].
  split; [now rewrite length_map, length_seq |].
  assert (Hmax : forall i, (i < NEbin)%nat ->
            0 <= nth i (map maxf aeff) 0 /\
            (nth i (map maxf aeff) 0 = 0 <-> Forall (fun a => a = 0) (nth i aeff []))).
  { intros i Hi. rewrite (nth_map_in _ _ _ _ []) by lia.
    rewrite Forall_forall in Hrows.
    destruct (Hrows (nth i aeff [])) as [Hne Hnn]; [apply nth_In; lia |].
    destruct (nth i aeff []) as [| x l]; [contradiction |]. unfold maxf. cbn [tl hd].
    destruct (fold_left_Rmax_spec l x) as [Hin Hall].
    rewrite Forall_forall in Hnn. split; [now apply Hnn |]. split.
    - intros H0. rewrite H0 in Hall. apply Forall_forall. intros a Ha'.
      rewrite Forall_forall in Hall. specialize (Hall a Ha'). specialize (Hnn a Ha'). lra.
    - intros Hz. rewrite Forall_forall in Hz. now apply Hz. }
  split.
  - apply Forall_forall. intros x Hx. apply in_map_iff in Hx.
    destruct Hx as (i & <- & Hi). apply in_seq in Hi. unfold h.
    destruct (Nastro_1yr_Aeffmax_bin_factor (nth i map_logE_center 0) dlogE Hd)
      as (K & HK & HKa).
    rewrite HKa. destruct (Hmax i ltac:(lia)) as [H0 _]. nra.
  - intros i Hi. rewrite (nth_map_in _ _ _ _ 0%nat) by now rewrite length_seq.
    rewrite seq_nth by exact Hi. cbn [Nat.add]. unfold h.
    destruct (Nastro_1yr_Aeffmax_bin_factor (nth i map_logE_center 0) dlogE Hd)
      as (K & HK & HKa).
    rewrite HKa. destruct (Hmax i Hi) as [H0 Hiff]. rewrite <- Hiff. split.
    + intros H. destruct (Rmult_integral _ _ H); lra.
    + intros ->. lra.
Qed.

(** Two energy bins of two pixels, the second bin without effective area. *)
Lemma init_Nastro_1yr_Aeffmax_sample :
  exists N,
    init_Nastro_1yr_Aeffmax 2 [2.5; 3.5] 1 [[0; 1]; [0; 0]] = Ok N /\
    length N = 2%nat /\
    Forall (fun x => 0 <= x) N /\
    forall i, (i < 2)%nat ->
      (nth i N 0 = 0 <-> Forall (fun a => a = 0) (nth i [[0; 1]; [0; 0]] [])).
Proof.
  apply (init_Nastro_1yr_Aeffmax_zero_iff_no_area 2 [2.5; 3.5] 1 [[0; 1]; [0; 0]]).
  - reflexivity.
  - reflexivity.
  - lra.
  - repeat constructor; try discriminate; lra.
Defined.

(** ** Samples for the further properties *)

Lemma sample_edges_increasing : np.increasing Sample.map_logE_edge = true.
Proof. apply sorted_increasing, sorted_lt_le, sample_edges_sorted. Qed.

(** Three energies at index -2 between 100 and 1000, binned into the
    partition 2, 3, ..., 9. *)
Lemma powerlaw_histogram_counts_energies_inside_sample :
  exists counts g',
    powerlaw_intrinsicCounts Sample.rng Sample.rand1 Sample.map_logE_edge 3 (-2) 100 1000 []
      = Ok (PyPair (PyIntArr counts) (PyFloatArr Sample.map_logE_edge), g') /\
    length counts = (length Sample.map_logE_edge - 1)%nat /\
    Forall (fun c => (0 <= c)%Z) counts /\
    np.sum counts
    = Z.of_nat (length (filter (fun v => np.Rleb (nth 0 Sample.map_logE_edge 0) v
                                         && np.Rleb v (last Sample.map_logE_edge 0))
                          (map np.log10
                             (fst (randPowerLaw Sample.rng Sample.rand1 (-2) 3 100 1000 []))))) /\
    (np.sum counts <= Z.of_nat 3)%Z.
Proof.
  apply (powerlaw_histogram_counts_energies_inside Sample.rng Sample.rand1
           Sample.map_logE_edge 3 (-2) 100 1000 []).
  - simpl. lia.
  - exact sample_edges_increasing.
Defined.

Lemma sample_physical_no_signal : physical Sample.NEbin Sample.eg 1 0.
Proof.
  unfold physical, Sample.eg, Sample.nevts0, Sample.Nastro0, Sample.NEbin. simpl.
  unfold np.POISSON_LAM_MAX.
  repeat split; try lra.
  - repeat constructor; lra.
  - repeat constructor; lra.
  - intros i Hi Hn.
    do 7 (destruct i as [| i]; [simpl in *; lra |]). lia.
  - repeat constructor; lra.
  - repeat constructor; lra.
Qed.

(** A run of the sample generator without injected signal. *)
Lemma no_signal_gives_background_only_sample :
  exists maps w' r,
    computeSyntheticData Sample.rng Sample.poisson1 Sample.NEbin Sample.NPIXEL
      Sample.atm_pixel Sample.astro_pixel Sample.generate_other Sample.generate_other
      Sample.analy_density Sample.where_negative Sample.synfast
      1 true 0 false ([4; 9; 9; 9; 9; 9; 9; 1]%nat, Sample.eg) = Ok (maps, w') /\
    synthetic_steps Sample.rng Sample.poisson1 Sample.NEbin Sample.NPIXEL
      Sample.atm_pixel Sample.astro_pixel Sample.analy_density Sample.where_negative
      Sample.synfast 1 true 0 [4; 9; 9; 9; 9; 9; 9; 1]%nat Sample.eg r maps /\
    run_lambda_atm Sample.rng r = map (fun x => x * 1) (nevts Sample.eg) /\
    run_Nastro Sample.rng r = repeat 0%Z Sample.NEbin /\
    run_astro_map Sample.rng r = repeat (repeat 0%Z Sample.NPIXEL) Sample.NEbin /\
    maps = run_atm_map Sample.rng r.
Proof.
  destruct (computeSyntheticData_total Sample.rng Sample.poisson1 Sample.NEbin Sample.NPIXEL
              Sample.atm_pixel Sample.astro_pixel Sample.analy_density Sample.where_negative
              Sample.synfast 1 true 0 [4; 9; 9; 9; 9; 9; 9; 1]%nat Sample.eg
              sample_atm_pixels sample_astro_pixels sample_calibrated
              sample_physical_no_signal (fun _ => eq_refl))
    as (r0 & maps & Hsteps).
  pose proof (computeSyntheticData_steps Sample.rng Sample.poisson1 Sample.NEbin
                Sample.NPIXEL Sample.atm_pixel Sample.astro_pixel Sample.generate_other
                Sample.generate_other Sample.analy_density Sample.where_negative
                Sample.synfast 1 true 0 _ _ r0 maps Hsteps) as Hrun.
  destruct (no_signal_gives_background_only Sample.rng Sample.poisson1 Sample.NEbin
              Sample.NPIXEL Sample.atm_pixel Sample.astro_pixel Sample.generate_other
              Sample.generate_other Sample.analy_density Sample.where_negative
              Sample.synfast 1 true false _ _ maps _ sample_poisson_zero sample_calibrated
              Hrun)
    as (r & H1 & H2 & H3 & H4 & H5).
  exists maps, (synthetic_final Sample.rng Sample.eg r0), r. auto 10.
Defined.

(** Ten times the diffuse flux on the sample generator: 20 astrophysical
    events against 10 background events in bin 0. *)
Lemma excess_signal_raises_ValueError_sample :
  computeSyntheticData Sample.rng Sample.poisson1 Sample.NEbin Sample.NPIXEL
    Sample.atm_pixel Sample.astro_pixel Sample.generate_other Sample.generate_other
    Sample.analy_density Sample.where_negative Sample.synfast
    1 true 10 false ([4; 9; 9; 9; 9; 9; 9; 1]%nat, Sample.eg) = Raise ValueError.
Proof.
  apply (excess_signal_raises_ValueError Sample.rng Sample.poisson1 Sample.NEbin
           Sample.NPIXEL Sample.atm_pixel Sample.astro_pixel Sample.generate_other
           Sample.generate_other Sample.analy_density Sample.where_negative Sample.synfast
           1 true 10 false _ Sample.eg 0).
  - exact sample_calibrated.
  - unfold Sample.NEbin. lia.
  - lra.
  - simpl. lra.
Defined.

(** A second call of [atmEvent] on the sample generator, after a first
    call that drew 3 events in bin 0 and none in the other bins. *)
Lemma sample_atmEvent_again :
  atmEvent Sample.rng Sample.poisson1 Sample.NEbin Sample.NPIXEL Sample.atm_pixel
    Sample.generate_other 2
    ([5%nat], set_atm_nevents_expected (PyIntArr [3; 0; 0; 0; 0; 0; 0]%Z) Sample.eg)
  = Ok ([[5; 0; 0; 0; 0; 0; 0; 0; 0; 0; 0; 0]%Z; repeat 0%Z 12; repeat 0%Z 12;
         repeat 0%Z 12; repeat 0%Z 12; repeat 0%Z 12; repeat 0%Z 12],
        ([], set_atm_nevents_expected (PyIntArr [5; 0; 0; 0; 0; 0; 0]%Z) Sample.eg)).
Proof.
  unfold atmEvent, atmEvent_lambda, Sample.eg, random_poisson. simpl.
  unfold np.Rleb, np.POISSON_LAM_MAX. rdecide. simpl. rdecide. simpl. reflexivity.
Qed.

(** Bin 1 of the sample generator after a first call that drew nothing in
    it. *)
Lemma atmEvent_empty_bin_stays_empty_sample :
  nth 1 [[5; 0; 0; 0; 0; 0; 0; 0; 0; 0; 0; 0]%Z; repeat 0%Z 12; repeat 0%Z 12;
         repeat 0%Z 12; repeat 0%Z 12; repeat 0%Z 12; repeat 0%Z 12] []
  = repeat 0%Z Sample.NPIXEL /\
  exists counts',
    atm_nevents_expected (set_atm_nevents_expected (PyIntArr [5; 0; 0; 0; 0; 0; 0]%Z) Sample.eg)
    = PyIntArr counts' /\ nth 1 counts' 0%Z = 0%Z.
Proof.
  apply (atmEvent_empty_bin_stays_empty Sample.rng Sample.poisson1 Sample.NEbin
           Sample.NPIXEL Sample.atm_pixel Sample.generate_other 2 [5%nat]
           (set_atm_nevents_expected (PyIntArr [3; 0; 0; 0; 0; 0; 0]%Z) Sample.eg)
           [3; 0; 0; 0; 0; 0; 0]%Z _ [] _ 1).
  - exact sample_poisson_zero.
  - unfold Sample.NEbin. lia.
  - reflexivity.
  - reflexivity.
  - exact sample_atmEvent_again.
Defined.

(** One event of log-energy 5.5 in the counts map of analyzeICdata.py. *)
Lemma sample_analyze_countsmap :
  analyzeICdata.countsmap (fun _ _ => 0%nat) 2 Sample.map_logE_edge
    [IC3yr.mkRow 5.5 0 0 100] (fun _ => 0)
  = Ok [[0; 0]; [0; 0]; [0; 0]; [0 + 1; 0]; [0; 0]; [0; 0]; [0; 0]].
Proof.
  unfold analyzeICdata.countsmap, IC3yr.index_map_logE, np.searchsorted,
    Sample.map_logE_edge. simpl. unfold np.Rltb. rdecide. simpl. reflexivity.
Qed.

Lemma analyze_countsmap_counts_every_event_sample :
  length [[0; 0]; [0; 0]; [0; 0]; [0 + 1; 0]; [0; 0]; [0; 0]; [0; 0]]
  = (length Sample.map_logE_edge - 1)%nat /\
  (forall k, (k < length Sample.map_logE_edge - 1)%nat ->
     length (nth k [[0; 0]; [0; 0]; [0; 0]; [0 + 1; 0]; [0; 0]; [0; 0]; [0; 0]] []) = 2%nat) /\
  (forall k, np.sumR (nth k [[0; 0]; [0; 0]; [0; 0]; [0 + 1; 0]; [0; 0]; [0; 0]; [0; 0]] [])
             = INR (length (filter (fun r => (IC3yr.index_map_logE Sample.map_logE_edge
                                                (IC3yr.col1 r) =? Z.of_nat k)%Z)
                              [IC3yr.mkRow 5.5 0 0 100]))) /\
  np.sum2R [[0; 0]; [0; 0]; [0; 0]; [0 + 1; 0]; [0; 0]; [0; 0]; [0; 0]]
  = INR (length [IC3yr.mkRow 5.5 0 0 100]).
Proof.
  apply (analyze_countsmap_counts_every_event (fun _ _ => 0%nat) 2 Sample.map_logE_edge
           [IC3yr.mkRow 5.5 0 0 100] (fun _ => 0)).
  exact sample_analyze_countsmap.
Defined.

(** Two one-event files, log-energies 5.5 and 1 (below the first edge). *)
Lemma eventNumber_Ebin_sample :
  exists n,
    analyzeICdata.eventNumber_Ebin_perIC86year Sample.map_logE_edge
      [IC3yr.mkRow 5.5 0 0 100] [IC3yr.mkRow 1 0 0 100] = Ok n /\
    length n = (length Sample.map_logE_edge - 1)%nat /\
    Forall (fun x => 0 <= x) n /\
    2 * np.sumR n
    = INR (length (filter (fun r => np.Rleb (nth 0 Sample.map_logE_edge 0) (IC3yr.col1 r)
                                    && np.Rleb (IC3yr.col1 r) (last Sample.map_logE_edge 0))
                     ([IC3yr.mkRow 5.5 0 0 100] ++ [IC3yr.mkRow 1 0 0 100]))).
Proof.
  destruct (eventNumber_Ebin_counts_inside_the_edges Sample.map_logE_edge
              [IC3yr.mkRow 5.5 0 0 100] [IC3yr.mkRow 1 0 0 100]) as [H _].
  apply H.
  - exact sample_edges_increasing.
  - simpl. lia.
Defined.

(** The sample file of the effective area: 70 x 200 rows, row [k] holding
    [k] in every column. *)
Lemma Aeff_table_axes_sample :
  exists logEmin cosZenith_min,
    IC3yr.logEmin Sample.Aeff_file = Ok logEmin /\
    IC3yr.cosZenith_min Sample.Aeff_file = Ok cosZenith_min /\
    length logEmin = 70%nat /\ length cosZenith_min = 200%nat /\
    length (IC3yr.Aeff_table Sample.Aeff_file) = (70 * 200)%nat /\
    (forall k, (k < 70)%nat ->
       nth k logEmin 0
       = np.log10 (nth (k * 200) (map IC3yr.col_Emin Sample.Aeff_file) 0)) /\
    (forall j, (j < 200)%nat ->
       nth j cosZenith_min 0 = nth j (map IC3yr.col_cosZmin Sample.Aeff_file) 0).
Proof.
  destruct (Aeff_table_axes Sample.Aeff_file) as [H _]. apply H.
  unfold Sample.Aeff_file. now rewrite length_map, length_seq.
Defined.

(** ** Infinite flux values *)

Lemma update2_inv {A : Type} (f : A -> A) (m : list (list A)) (b p : nat)
  (m' : list (list A)) (d : A) :
  np.update2 f m b p = Ok m' ->
  nth p (nth b m' []) d = f (nth p (nth b m []) d) /\
  forall b' p', (b', p') <> (b, p) -> nth p' (nth b' m' []) d = nth p' (nth b' m []) d.
Proof.
  unfold np.update2. intros H.
  destruct (updateM_rows _ _ _ _ [] H) as (Hf & Ho). unfold np.update in Hf.
  destruct (updateM_rows _ _ _ _ d Hf) as (Hv & Hov). split.
  - now inversion Hv.
  - intros b' p' Hne. destruct (Nat.eq_dec b' b) as [-> | Hb].
    + apply Hov. intros ->. now apply Hne.
    + now rewrite Ho.
Qed.

Lemma flux_add_infinite_l (x : IC3yr.flux) : IC3yr.flux_add IC3yr.Infinite x = IC3yr.Infinite.
Proof. reflexivity. Qed.

Lemma flux_add_infinite_r (x : IC3yr.flux) : IC3yr.flux_add x IC3yr.Infinite = IC3yr.Infinite.
Proof. now destruct x. Qed.

Lemma put_event_keeps_infinite (logEmin cosZenith_min : list R) (st : IC3yr.maps)
  (ie : nat * IC3yr.event) (st' : IC3yr.maps) (b p : nat) :
  IC3yr.put_event logEmin cosZenith_min st ie = Ok st' ->
  nth p (nth b (IC3yr.fluxmap st) []) (IC3yr.Finite 0) = IC3yr.Infinite ->
  nth p (nth b (IC3yr.fluxmap st') []) (IC3yr.Finite 0) = IC3yr.Infinite.
Proof.
  destruct ie as [i e]. unfold IC3yr.put_event. intros H Hinf.
  destruct (np.Reqb (IC3yr.ev_Aeff e) 0 && np.Rltb 90 (IC3yr.col6 (IC3yr.ev_row e))).
  - inv_bind H. inversion H; subst. exact Hinf.
  - inv_bind H. inv_bind H. inv_bind H. inv_bind H. inversion H; subst. cbn [IC3yr.fluxmap].
    destruct (update2_inv _ _ _ _ _ (IC3yr.Finite 0) E0) as (Hv & Ho).
    destruct (Nat.eq_dec b a) as [-> | Hb].
    + destruct (Nat.eq_dec p (IC3yr.ev_index_map_pixel e)) as [-> | Hp].
      * rewrite Hv, Hinf. reflexivity.
      * rewrite Ho; [exact Hinf |]. intros Heq. inversion Heq. contradiction.
    + rewrite Ho; [exact Hinf |]. intros Heq. inversion Heq. contradiction.
Qed.

Lemma put_events_keep_infinite (logEmin cosZenith_min : list R)
  (es : list (nat * IC3yr.event)) (st st' : IC3yr.maps) (b p : nat) :
  IC3yr.put_events logEmin cosZenith_min st es = Ok st' ->
  nth p (nth b (IC3yr.fluxmap st) []) (IC3yr.Finite 0) = IC3yr.Infinite ->
  nth p (nth b (IC3yr.fluxmap st') []) (IC3yr.Finite 0) = IC3yr.Infinite.
Proof.
  revert st. induction es as [| ie es IH]; intros st H Hinf; simpl in H.
  - now inversion H; subst.
  - inv_bind H. apply (IH _ H). eapply put_event_keeps_infinite; eauto.
Qed.

Lemma put_events_app (logEmin cosZenith_min : list R) (es1 es2 : list (nat * IC3yr.event))
  (st : IC3yr.maps) :
  IC3yr.put_events logEmin cosZenith_min st (es1 ++ es2)
  = (st1 <- IC3yr.put_events logEmin cosZenith_min st es1 ;;
     IC3yr.put_events logEmin cosZenith_min st1 es2).
Proof.
  revert st. induction es1 as [| ie es1 IH]; intros st; simpl; [reflexivity |].
  destruct (IC3yr.put_event logEmin cosZenith_min st ie); cbn [bind]; [apply IH | reflexivity].
Qed.

(** X21. An infinite flux value is never lost: a pixel of the flux map
    that holds the value of [1. / 0.] holds it after every further event;
    so when the loop returns, one counted event with zero effective area
    (zenith at most 90 degrees) has left its pixel infinite, whatever the
    other events of the file are. *)
Theorem infinite_flux_stays_in_the_map :
  (forall logEmin cosZenith_min es st st' b p,
     IC3yr.put_events logEmin cosZenith_min st es = Ok st' ->
     nth p (nth b (IC3yr.fluxmap st) []) (IC3yr.Finite 0) = IC3yr.Infinite ->
     nth p (nth b (IC3yr.fluxmap st') []) (IC3yr.Finite 0) = IC3yr.Infinite) /\
  (forall logEmin cosZenith_min es1 i e es2 st st',
     IC3yr.put_events logEmin cosZenith_min st (es1 ++ (i, e) :: es2) = Ok st' ->
     IC3yr.ev_Aeff e = 0 -> IC3yr.col6 (IC3yr.ev_row e) <= 90 ->
     (0 <= IC3yr.ev_index_map_logE e)%Z ->
     nth (IC3yr.ev_index_map_pixel e)
       (nth (Z.to_nat (IC3yr.ev_index_map_logE e)) (IC3yr.fluxmap st') []) (IC3yr.Finite 0)
     = IC3yr.Infinite).
Proof.
  split.
  - intros lE cZ es st st' b p. apply put_events_keep_infinite.
  - intros lE cZ es1 i e es2 st st' H Ha Hz Hidx.
    rewrite put_events_app in H. inv_bind H. cbn [IC3yr.put_events] in H. inv_bind H.
    apply (put_events_keep_infinite _ _ _ _ _ _ _ H).
    unfold IC3yr.put_event in E0.
    replace (np.Rltb 90 (IC3yr.col6 (IC3yr.ev_row e))) with false in E0
      by (unfold np.Rltb; destruct (Rlt_dec 90 (IC3yr.col6 (IC3yr.ev_row e)));
          [exfalso; lra | reflexivity]).
    rewrite andb_false_r in E0.
    inv_bind E0. inv_bind E0. inv_bind E0. inv_bind E0. inversion E0; subst.
    cbn [IC3yr.fluxmap].
    match goal with
    | Hn : np.norm_index (length (IC3yr.fluxmap _)) _ = Ok ?b,
      Hu : np.update2 _ (IC3yr.fluxmap _) ?b _ = Ok _ |- _ =>
        rewrite (norm_index_nonneg_inv _ _ _ Hidx Hn) in Hu;
        destruct (update2_inv _ _ _ _ _ (IC3yr.Finite 0) Hu) as (Hv & _)
    end.
    rewrite Hv.
    unfold IC3yr.one_over. destruct (Req_dec_T (IC3yr.ev_Aeff e) 0); [| contradiction].
    apply flux_add_infinite_r.
Qed.

(** The event with zero effective area from above the horizon, followed by
    an event with effective area 4 in the same pixel. *)
Lemma infinite_flux_stays_sample :
  exists st',
    IC3yr.put_events Sample.logEmin Sample.cosZenith_min (IC3yr.zero_maps 7 12)
      ([] ++ (0%nat, Sample.downgoing_zero_Aeff)
          :: [(1%nat, IC3yr.mkEvent (IC3yr.mkRow 5.5 0 0 120) 34 50 4 3 0)]) = Ok st' /\
    nth 0 (nth 3 (IC3yr.fluxmap st') []) (IC3yr.Finite 0) = IC3yr.Infinite.
Proof.
  destruct (put_event_counted Sample.logEmin Sample.cosZenith_min (IC3yr.zero_maps 7 12) 0
              Sample.downgoing_zero_Aeff) as (st1 & Hrun1 & _).
  - intros [_ Hz]. simpl in Hz. lra.
  - unfold IC3yr.on_map. simpl. repeat split; lia.
  - destruct (put_event_accounts _ _ _ _ _ _ Hrun1) as ((Hc1 & Hc2) & (Hf1 & Hf2) & _).
    destruct (put_event_counted Sample.logEmin Sample.cosZenith_min st1 1
                (IC3yr.mkEvent (IC3yr.mkRow 5.5 0 0 120) 34 50 4 3 0)) as (st2 & Hrun2 & _).
    + intros [Ha _]. simpl in Ha. lra.
    + unfold IC3yr.on_map. cbn [IC3yr.ev_index_map_logE IC3yr.ev_index_map_pixel].
      rewrite Hf1, Hc1, Hf2, Hc2. simpl. repeat split; lia.
    + exists st2.
      assert (Hes : IC3yr.put_events Sample.logEmin Sample.cosZenith_min
                      (IC3yr.zero_maps 7 12)
                      ([] ++ (0%nat, Sample.downgoing_zero_Aeff)
                          :: [(1%nat, IC3yr.mkEvent (IC3yr.mkRow 5.5 0 0 120) 34 50 4 3 0)])
                    = Ok st2).
      { cbn [app IC3yr.put_events]. rewrite Hrun1. cbn [bind]. rewrite Hrun2. reflexivity. }
      split; [exact Hes |].
      destruct infinite_flux_stays_in_the_map as [_ Hev].
      apply (Hev _ _ _ _ _ _ _ _ Hes).
      * reflexivity.
      * simpl. lra.
      * simpl. lia.
Defined.

(** ** Calibration arrays that are too short *)

Lemma getitem_raises {A : Type} (a : list A) (k : Z) (e : exn) :
  np.getitem a k = Raise e -> e = IndexError.
Proof.
  unfold np.getitem. intros H.
  destruct (np.norm_index (length a) k) as [i |] eqn:E; cbn [bind] in H.
  - destruct (nth_error a i); [discriminate | now inversion H].
  - inversion H; subst. eapply norm_index_raises; eauto.
Qed.

Lemma getitem_overflow {A : Type} (a : list A) (i : nat) :
  (length a <= i)%nat -> np.getitem a (Z.of_nat i) = Raise IndexError.
Proof.
  intros Hi. rewrite getitem_of_nat.
  now rewrite (proj2 (nth_error_None _ _) Hi).
Qed.

Lemma mapM_raises_IndexError {A B : Type} (f : A -> result B) (l : list A) :
  (forall x e, f x = Raise e -> e = IndexError) ->
  (exists x, In x l /\ f x = Raise IndexError) -> mapM f l = Raise IndexError.
Proof.
  intros Hf. induction l as [| a l IH]; intros (x & Hin & Hx); [contradiction |].
  simpl. destruct (f a) as [y | e] eqn:E; cbn [bind].
  - destruct Hin as [-> | Hin]; [congruence |].
    rewrite IH; [reflexivity | eauto].
  - now rewrite (Hf _ _ E).
Qed.

Lemma fraction_bin_raises (eg : EventGenerator) (f_diff : R) (i : nat) (e : exn) :
  fraction_bin eg f_diff i = Raise e -> e = IndexError.
Proof.
  unfold fraction_bin. intros H.
  destruct (np.getitem (nevts eg) (Z.of_nat i)) as [n |] eqn:En; cbn [bind] in H.
  - destruct (Req_dec_T n 0);
      (destruct (np.getitem (Nastro_1yr_Aeffmax eg) (Z.of_nat i)) as [a |] eqn:Ea;
       cbn [bind] in H;
       [| inversion H; subst; eapply getitem_raises; eauto]).
    + destruct (Req_dec_T a 0); discriminate.
    + discriminate.
  - inversion H; subst. eapply getitem_raises; eauto.
Qed.

(** X22. With fewer than [NEbin] entries in [nevts] or in
    [Nastro_1yr_Aeffmax], the loop of [computeSyntheticData] over the
    energy bins reads past the end of the array and the call ends in
    [IndexError]. *)
Theorem short_calibration_raises_IndexError (rng : Type) (poisson1 : R -> rng -> nat * rng)
  (NEbin NPIXEL : nat) (atm_pixel : nat -> rng -> nat * rng)
  (astro_pixel : list R -> rng -> nat * rng)
  (atm_other astro_other : pyval -> nat -> rng -> result (list (list (list Z)) * rng))
  (analy_density : list R) (where_negative : list R -> result unit)
  (synfast : rng -> list R * rng)
  (N_yr : R) (fromGalaxy : bool) (f_diff : R) (write_map : bool) (g : rng)
  (eg : EventGenerator) :
  (length (nevts eg) < NEbin)%nat \/ (length (Nastro_1yr_Aeffmax eg) < NEbin)%nat ->
  computeSyntheticData rng poisson1 NEbin NPIXEL atm_pixel astro_pixel atm_other astro_other
    analy_density where_negative synfast N_yr fromGalaxy f_diff write_map (g, eg)
  = Raise IndexError.
Proof.
  intros Hshort. unfold computeSyntheticData, fractions.
  rewrite (mapM_raises_IndexError (fraction_bin eg f_diff) (seq 0 NEbin)); [reflexivity | |].
  - intros x e. apply fraction_bin_raises.
  - destruct (Nat.lt_ge_cases (length (nevts eg)) NEbin) as [Hn | Hn].
    + exists (length (nevts eg)). split; [apply in_seq; lia |].
      unfold fraction_bin. now rewrite getitem_overflow by lia.
    + destruct Hshort as [Hs | Hs]; [lia |].
      exists (length (Nastro_1yr_Aeffmax eg)). split; [apply in_seq; lia |].
      unfold fraction_bin.
      destruct (np.getitem (nevts eg) (Z.of_nat (length (Nastro_1yr_Aeffmax eg))))
        as [n | e] eqn:En; cbn [bind]; [| now rewrite (getitem_raises _ _ _ En)].
      destruct (Req_dec_T n 0); now rewrite getitem_overflow by lia.
Qed.

(** A generator with one calibration entry for seven energy bins. *)
Lemma short_calibration_sample :
  computeSyntheticData Sample.rng Sample.poisson1 Sample.NEbin Sample.NPIXEL
    Sample.atm_pixel Sample.astro_pixel Sample.generate_other Sample.generate_other
    Sample.analy_density Sample.where_negative Sample.synfast
    1 true 1 false ([], mkEG [10] [2] (PyFloatArr [10]) (PyIntArr []) [])
  = Raise IndexError.
Proof.
  apply short_calibration_raises_IndexError. left. unfold Sample.NEbin. simpl. lia.
Defined.

(** ** Indices below the table *)

Lemma getitem_negative {A : Type} (a : list A) (k : Z) (d : A) :
  (- Z.of_nat (length a) <= k < 0)%Z ->
  np.getitem a k = Ok (nth (Z.to_nat (Z.of_nat (length a) + k)) a d).
Proof.
  intros Hk. unfold np.getitem, np.norm_index.
  replace ((0 <=? k) && (k <? Z.of_nat (length a)))%Z with false
    by (symmetry; apply andb_false_iff; left; apply Z.leb_gt; lia).
  replace ((- Z.of_nat (length a) <=? k) && (k <? 0))%Z with true
    by (symmetry; apply andb_true_iff; split; [apply Z.leb_le | apply Z.ltb_lt]; lia).
  cbn [bind].
  destruct (nth_error a (Z.to_nat (Z.of_nat (length a) + k))) as [x |] eqn:E.
  - now rewrite (nth_error_nth _ _ _ E).
  - apply nth_error_None in E. lia.
Qed.

(** X23. A value at or below the first lower edge gives the index -1, and
    where the scripts do not send it to 0 the flat index into the table
    counts from the end.  On the grid of the data release: for a cosine at
    or below the first lower edge, [Aeff_event] is the last cosine bin of
    the energy bin before the event's (of the last energy bin when the
    event is in energy bin 0); for a bin centre at or below the first lower
    energy edge, the exposure lookup of analyzeICdata.py is the entry of
    the last energy bin. *)
Theorem lookup_below_first_edge_counts_from_the_end (Aeff_table logEmin cosZenith_min : list R)
  (logE cosz : R) :
  IC3yr.grid Aeff_table logEmin cosZenith_min ->
  (cosz <= nth 0 cosZenith_min 0 ->
   exists iE : nat,
     (iE < 70)%nat /\ IC3yr.index_E_Aeff_table logEmin logE = Z.of_nat iE /\
     IC3yr.index_coszenith_Aeff_table cosZenith_min cosz = (-1)%Z /\
     IC3yr.Aeff_event Aeff_table logEmin cosZenith_min logE cosz
     = Ok (nth (if (iE =? 0)%nat then 69 * 200 + 199 else (iE - 1) * 200 + 199)
             Aeff_table 0)) /\
  (logE <= nth 0 logEmin 0 -> nth 0 cosZenith_min 0 < cosz ->
   exists ic : nat,
     IC3yr.in_bin_of cosZenith_min cosz ic /\
     IC3yr.index_E logEmin logE = (-1)%Z /\
     IC3yr.exposuremap_pixel Aeff_table logEmin cosZenith_min logE cosz
     = Ok (nth (69 * 200 + ic) Aeff_table 0)).
Proof.
  intros (Ht & HlE & HlZ & HsE & HsZ). split.
  - intros Hc.
    assert (Hss : np.searchsorted cosZenith_min cosz = 0%nat)
      by (apply searchsorted_below_first; [exact HsZ | exact Hc | lia]).
    pose proof (searchsorted_le_length logEmin logE) as Hle. rewrite HlE in Hle.
    unfold IC3yr.Aeff_event, IC3yr.index_coszenith_Aeff_table, IC3yr.index_E_Aeff_table.
    rewrite Hss.
    destruct (Z.eqb_spec (Z.of_nat (np.searchsorted logEmin logE) - 1) (-1)) as [Hm | Hm].
    + exists 0%nat. split; [lia |]. split; [reflexivity |]. split; [reflexivity |].
      rewrite (getitem_negative _ _ 0) by (rewrite Ht; lia). rewrite Ht.
      cbn [Nat.eqb]. do 2 f_equal; lia.
    + exists (np.searchsorted logEmin logE - 1)%nat.
      split; [lia |]. split; [lia |]. split; [reflexivity |].
      destruct (Nat.eqb_spec (np.searchsorted logEmin logE - 1) 0) as [H0 | H0].
      * rewrite (getitem_negative _ _ 0) by (rewrite Ht; lia). rewrite Ht.
        do 2 f_equal; lia.
      * rewrite (getitem_in_range _ _ 0) by (rewrite Ht; lia). do 2 f_equal; lia.
  - intros HE Hc.
    assert (Hss : np.searchsorted logEmin logE = 0%nat)
      by (apply searchsorted_below_first; [exact HsE | exact HE | lia]).
    destruct (searchsorted_bin cosZenith_min cosz HsZ ltac:(lia) Hc) as [H1 Hbin].
    pose proof (searchsorted_le_length cosZenith_min cosz) as Hle. rewrite HlZ in Hle.
    exists (np.searchsorted cosZenith_min cosz - 1)%nat.
    split; [exact Hbin |].
    unfold IC3yr.exposuremap_pixel, IC3yr.index_E, IC3yr.index_coszenith. rewrite Hss.
    split; [reflexivity |].
    rewrite (getitem_negative _ _ 0) by (rewrite Ht; lia). rewrite Ht.
    do 2 f_equal; lia.
Qed.

(** A bin centre of log-energy 1, below the sample grid, at the cosine 0. *)
Lemma lookup_below_first_edge_sample :
  exists ic : nat,
    IC3yr.in_bin_of Sample.cosZenith_min 0 ic /\
    IC3yr.index_E Sample.logEmin 1 = (-1)%Z /\
    IC3yr.exposuremap_pixel Sample.Aeff_table Sample.logEmin Sample.cosZenith_min 1 0
    = Ok (nth (69 * 200 + ic) Sample.Aeff_table 0).
Proof.
  destruct (lookup_below_first_edge_counts_from_the_end Sample.Aeff_table Sample.logEmin
              Sample.cosZenith_min 1 0 sample_grid) as [_ H].
  apply H.
  - unfold Sample.logEmin. cbn [seq map nth]. simpl INR. lra.
  - unfold Sample.cosZenith_min. cbn [seq map nth]. simpl INR. lra.
Defined.

(** ** The exclusion rule of the event loop *)

Lemma check_event_raises (logEmin cosZenith_min : list R) (i : nat) (e : IC3yr.event)
  (x : exn) :
  IC3yr.check_event logEmin cosZenith_min i e = Raise x -> x = IndexError.
Proof.
  unfold IC3yr.check_event. intros H.
  repeat match type of H with
    | bind (np.getitem ?a ?k) _ = Raise _ =>
        let E := fresh "E" in
        destruct (np.getitem a k) eqn:E; cbn [bind] in H;
        [| inversion H; subst; exact (getitem_raises _ _ _ E)]
    end.
  discriminate.
Qed.

Lemma updateM_overflow {A : Type} (f : A -> result A) (a : list A) (i : nat) :
  (length a <= i)%nat -> np.updateM f a i = Raise IndexError.
Proof.
  revert i. induction a as [| x a IH]; intros i Hi; [reflexivity |].
  destruct i as [| i]; [simpl in Hi; lia |]. simpl. rewrite IH by (simpl in Hi; lia).
  reflexivity.
Qed.

Lemma updateM_row_raises {A : Type} (f : A -> result A) (a : list A) (i : nat) (d : A)
  (x : exn) :
  (i < length a)%nat -> f (nth i a d) = Raise x -> np.updateM f a i = Raise x.
Proof.
  revert i. induction a as [| y a IH]; intros i Hi Hf; [simpl in Hi; lia |].
  destruct i as [| i]; simpl in *.
  - now rewrite Hf.
  - rewrite (IH i) by (try lia; exact Hf). reflexivity.
Qed.

Lemma update2_missing_pixel {A : Type} (f : A -> A) (m : list (list A)) (b p : nat) :
  (b < length m)%nat -> (length (nth b m []) <= p)%nat ->
  np.update2 f m b p = Raise IndexError.
Proof.
  intros Hb Hp. unfold np.update2. apply (updateM_row_raises _ _ _ []); [exact Hb |].
  unfold np.update. now apply updateM_overflow.
Qed.

Lemma norm_index_beyond (n : nat) (k : Z) :
  (Z.of_nat n <= k)%Z -> np.norm_index n k = Raise IndexError.
Proof.
  intros Hk. unfold np.norm_index.
  replace ((0 <=? k) && (k <? Z.of_nat n))%Z with false
    by (symmetry; apply andb_false_iff; right; apply Z.ltb_ge; lia).
  replace ((- Z.of_nat n <=? k) && (k <? 0))%Z with false
    by (symmetry; apply andb_false_iff; right; apply Z.ltb_ge; lia).
  reflexivity.
Qed.

Lemma not_excluded_guard (e : IC3yr.event) :
  ~ IC3yr.excluded e ->
  np.Reqb (IC3yr.ev_Aeff e) 0 && np.Rltb 90 (IC3yr.col6 (IC3yr.ev_row e)) = false.
Proof.
  unfold IC3yr.excluded, np.Reqb, np.Rltb. intros H.
  destruct (Req_dec_T (IC3yr.ev_Aeff e) 0), (Rlt_dec 90 (IC3yr.col6 (IC3yr.ev_row e)));
    simpl; try reflexivity. exfalso. auto.
Qed.

Lemma excluded_guard (e : IC3yr.event) :
  IC3yr.excluded e ->
  np.Reqb (IC3yr.ev_Aeff e) 0 && np.Rltb 90 (IC3yr.col6 (IC3yr.ev_row e)) = true.
Proof.
  unfold IC3yr.excluded, np.Reqb, np.Rltb. intros [Ha Hz].
  destruct (Req_dec_T (IC3yr.ev_Aeff e) 0); [| contradiction].
  destruct (Rlt_dec 90 (IC3yr.col6 (IC3yr.ev_row e))); [reflexivity | contradiction].
Qed.

(** C7, as the code has it.  An event is left out exactly when its
    effective area is zero and its zenith is above 90 degrees.  The step
    for such an event changes neither map: it prints the diagnostic when
    the table entries that the print reads exist, and ends in [IndexError]
    when they do not.  The step for every other event adds 1 to its counts
    pixel and the quotient [1 / Aeff] to its flux pixel when the row and
    the pixel exist in the maps, and ends in [IndexError] (its only error)
    when the row or the pixel is missing from the flux map; the quotient is
    the real number [1 / Aeff] for a non-zero effective area and the
    infinite value of the division by zero for a zero effective area
    (zenith at most 90 degrees). *)
Theorem put_event_exclusion_rule (logEmin cosZenith_min : list R) (st : IC3yr.maps)
  (i : nat) (e : IC3yr.event) :
  (IC3yr.excluded e ->
   (forall d, IC3yr.check_event logEmin cosZenith_min i e = Ok d ->
      IC3yr.put_event logEmin cosZenith_min st (i, e)
      = Ok (IC3yr.mkMaps (IC3yr.fluxmap st) (IC3yr.countsmap st) (IC3yr.printed st ++ [d])))
   /\
   (forall x, IC3yr.check_event logEmin cosZenith_min i e = Raise x ->
      x = IndexError /\
      IC3yr.put_event logEmin cosZenith_min st (i, e) = Raise IndexError)) /\
  (~ IC3yr.excluded e ->
   (IC3yr.on_map st e ->
    let b := Z.to_nat (IC3yr.ev_index_map_logE e) in
    let p := IC3yr.ev_index_map_pixel e in
    exists st',
      IC3yr.put_event logEmin cosZenith_min st (i, e) = Ok st' /\
      IC3yr.printed st' = IC3yr.printed st /\
      nth p (nth b (IC3yr.countsmap st') []) 0 = nth p (nth b (IC3yr.countsmap st) []) 0 + 1 /\
      nth p (nth b (IC3yr.fluxmap st') []) (IC3yr.Finite 0)
        = IC3yr.flux_add (nth p (nth b (IC3yr.fluxmap st) []) (IC3yr.Finite 0))
            (IC3yr.one_over (IC3yr.ev_Aeff e)) /\
      forall b' p', (b', p') <> (b, p) ->
        nth p' (nth b' (IC3yr.countsmap st') []) 0
          = nth p' (nth b' (IC3yr.countsmap st) []) 0 /\
        nth p' (nth b' (IC3yr.fluxmap st') []) (IC3yr.Finite 0)
          = nth p' (nth b' (IC3yr.fluxmap st) []) (IC3yr.Finite 0)) /\
   (forall x, IC3yr.put_event logEmin cosZenith_min st (i, e) = Raise x -> x = IndexError) /\
   ((Z.of_nat (length (IC3yr.fluxmap st)) <= IC3yr.ev_index_map_logE e)%Z \/
    ((0 <= IC3yr.ev_index_map_logE e < Z.of_nat (length (IC3yr.fluxmap st)))%Z /\
     (length (nth (Z.to_nat (IC3yr.ev_index_map_logE e)) (IC3yr.fluxmap st) [])
      <= IC3yr.ev_index_map_pixel e)%nat) ->
    IC3yr.put_event logEmin cosZenith_min st (i, e) = Raise IndexError)) /\
  (IC3yr.ev_Aeff e <> 0 ->
   IC3yr.one_over (IC3yr.ev_Aeff e) = IC3yr.Finite (1 / IC3yr.ev_Aeff e)) /\
  (IC3yr.ev_Aeff e = 0 -> IC3yr.one_over (IC3yr.ev_Aeff e) = IC3yr.Infinite).
Proof.
  split; [| split; [| split]].
  - intros Hex. split.
    + intros d Hd. now apply put_event_excluded.
    + intros x Hx. pose proof (check_event_raises _ _ _ _ _ Hx) as ->.
      split; [reflexivity |].
      unfold IC3yr.put_event. rewrite (excluded_guard _ Hex), Hx. reflexivity.
  - intros Hex. split; [| split].
    + intros Hon. now apply put_event_counted.
    + intros x. unfold IC3yr.put_event. rewrite (not_excluded_guard _ Hex). intros H.
      repeat match type of H with
        | bind ?c _ = Raise _ =>
            let E := fresh "E" in
            destruct c eqn:E; cbn [bind] in H;
            [| inversion H; subst;
               first [exact (norm_index_raises _ _ _ E) | exact (update2_raises _ _ _ _ _ E)]]
        end.
      discriminate.
    + intros Hmiss. unfold IC3yr.put_event. rewrite (not_excluded_guard _ Hex).
      destruct Hmiss as [Hrow | [Hrow Hpix]].
      * now rewrite norm_index_beyond.
      * rewrite norm_index_nonneg by exact Hrow. cbn [bind].
        rewrite update2_missing_pixel; [reflexivity | lia | exact Hpix].
  - intros Hne. unfold IC3yr.one_over.
    destruct (Req_dec_T (IC3yr.ev_Aeff e) 0); [contradiction | reflexivity].
  - intros Heq. unfold IC3yr.one_over.
    destruct (Req_dec_T (IC3yr.ev_Aeff e) 0); [reflexivity | contradiction].
Qed.

(** An event with zero effective area at a zenith of 120 degrees, in energy
    bin 34 and cosine bin 50 of the sample grid, is left out with its
    diagnostic; an event with effective area 4 is counted once, with flux
    1/4. *)
Lemma put_event_exclusion_rule_sample :
  IC3yr.put_event Sample.logEmin Sample.cosZenith_min (IC3yr.zero_maps 7 12)
    (0%nat, IC3yr.mkEvent (IC3yr.mkRow 5.5 0 0 120) 34 50 0 3 0)
  = Ok (IC3yr.mkMaps (IC3yr.fluxmap (IC3yr.zero_maps 7 12))
          (IC3yr.countsmap (IC3yr.zero_maps 7 12))
          ([] ++ [IC3yr.mkDiag 0 5.5 34 (nth 34 Sample.logEmin 0) (nth 35 Sample.logEmin 0)
                    (cos (IC3yr.radians 120)) 50 (nth 50 Sample.cosZenith_min 0)
                    (nth 51 Sample.cosZenith_min 0) 0])) /\
  exists st',
    IC3yr.put_event Sample.logEmin Sample.cosZenith_min (IC3yr.zero_maps 7 12)
      (0%nat, IC3yr.mkEvent (IC3yr.mkRow 5.5 0 0 120) 34 50 4 3 0) = Ok st' /\
    IC3yr.printed st' = [] /\
    nth 0 (nth 3 (IC3yr.countsmap st') []) 0 = 0 + 1 /\
    nth 0 (nth 3 (IC3yr.fluxmap st') []) (IC3yr.Finite 0)
      = IC3yr.flux_add (IC3yr.Finite 0) (IC3yr.one_over 4) /\
    IC3yr.one_over 4 = IC3yr.Finite (1 / 4).
Proof.
  split.
  - destruct (put_event_exclusion_rule Sample.logEmin Sample.cosZenith_min
                (IC3yr.zero_maps 7 12) 0
                (IC3yr.mkEvent (IC3yr.mkRow 5.5 0 0 120) 34 50 0 3 0))
      as (Hout & _).
    destruct Hout as (Hprint & _).
    + split; simpl; [reflexivity | lra].
    + apply Hprint. unfold IC3yr.check_event. cbn [IC3yr.ev_index_E IC3yr.ev_index_coszenith
        IC3yr.ev_row IC3yr.ev_Aeff IC3yr.col1 IC3yr.col6].
      assert (HlE : length Sample.logEmin = 70%nat)
        by (unfold Sample.logEmin; now rewrite length_map, length_seq).
      assert (HlZ : length Sample.cosZenith_min = 200%nat)
        by (unfold Sample.cosZenith_min; now rewrite length_map, length_seq).
      rewrite (getitem_in_range Sample.logEmin 34 0) by (rewrite HlE; lia). cbn [bind].
      rewrite (getitem_in_range Sample.logEmin (34 + 1) 0) by (rewrite HlE; lia). cbn [bind].
      rewrite (getitem_in_range Sample.cosZenith_min 50 0) by (rewrite HlZ; lia). cbn [bind].
      rewrite (getitem_in_range Sample.cosZenith_min (50 + 1) 0) by (rewrite HlZ; lia).
      cbn [bind]. reflexivity.
  - destruct (put_event_exclusion_rule Sample.logEmin Sample.cosZenith_min
                (IC3yr.zero_maps 7 12) 0 (IC3yr.mkEvent (IC3yr.mkRow 5.5 0 0 120) 34 50 4 3 0))
      as (_ & Hcount & Hfin & _).
    destruct Hcount as ((st' & Hrun & Hp & Hc & Hf & _) & _).
    + intros [Ha _]. simpl in Ha. lra.
    + unfold IC3yr.on_map. simpl. repeat split; lia.
    + exists st'. split; [exact Hrun |]. split; [exact Hp |]. split; [exact Hc |].
      split; [exact Hf |]. apply Hfin. simpl. lra.
Defined.
